(** * Block operators on product spaces and quasi-Newton solvers (ODL)

    A shallow embedding of [odl/operator/pspace_ops.py] and
    [odl/solvers/smooth/newton.py].

    Python exceptions are values of [Exception] carried by the [result]
    monad.  Vector-space elements, scalars, operators supplied by the
    caller, line searches and the conjugate-gradient routine are
    collaborators of the code: they enter through type classes and are used
    only through the calls the source makes.  An object mutated in place
    ([out], [x]) is returned as its content when the method returns. *)

From Stdlib Require Import ZArith QArith Qabs Qcanon Qcabs Lia String.
From stdpp Require Import base option list strings sorting.

Local Open Scope string_scope.
Local Open Scope list_scope.
Local Open Scope nat_scope.

(** ** Spaces *)

(** A space is either a base space [Rn n] or a [ProductSpace] of component
    spaces; [isinstance(s, ProductSpace)] is a match on the constructor and
    [a != b] on spaces is [negb (space_eqb a b)]. *)
#[warnings="-register-all"]
Inductive Space : Type :=
| Rn (n : nat)
| ProductSpace (parts : list Space).

Fixpoint space_eqb (a b : Space) {struct a} : bool :=
  match a, b with
  | Rn n, Rn m => Nat.eqb n m
  | ProductSpace ps, ProductSpace qs =>
      (fix go (ps qs : list Space) {struct ps} : bool :=
         match ps, qs with
         | [], [] => true
         | p :: ps', q :: qs' => space_eqb p q && go ps' qs'
         | _, _ => false
         end) ps qs
  | _, _ => false
  end.


(** Induction on spaces that reaches the components of a product. *)
Fixpoint Space_nested_ind (P : Space -> Prop)
    (HR : forall n, P (Rn n))
    (HP : forall ps, Forall P ps -> P (ProductSpace ps))
    (s : Space) {struct s} : P s :=
  match s with
  | Rn n => HR n
  | ProductSpace ps =>
      HP ps ((fix go (l : list Space) : Forall P l :=
                match l with
                | [] => @List.Forall_nil _ P
                | x :: l' => @List.Forall_cons _ P x l' (Space_nested_ind P HR HP x) (go l')
                end) ps)
  end.

(** ** Exceptions *)

(** The text of an exception, kept as data: the holes of the format string
    are the arguments of the constructor. *)
Inductive Message : Type :=
| NotAProductSpace (s : option Space)
    (* 'space {!r} not a ProductSpace instance.' *)
| NotOperators
    (* 'operators {!r} must be a matrix of operators.' *)
| ColumnInconsistent (col : nat) (have got : Space)
    (* 'Column {}, has inconsistent domains,got {} and {}' *)
| RowInconsistent (row : nat) (have got : Space)
    (* 'Row {}, has inconsistent ranges,got {} and {}' *)
| ColEmpty (col : nat)
    (* 'Col {} empty, unable to determine domain, ...' *)
| RowEmpty (row : nat)
    (* 'Row {} empty, unable to determine range, ...' *)
| NotInDomain
    (* '`x` {!r} is not in the domain of ...' *)
| NoSpaces
    (* [ProductSpace()] without a space *)
| Ragged.
    (* numpy: sequences whose lengths differ *)

Inductive Exception : Type :=
| TypeError (msg : Message)
| ValueError (msg : Message)
| UnboundLocalError (name : string)
| IndexError
| AssertionError
| NotImplementedError.

Inductive result (A : Type) : Type :=
| Ok (a : A)
| Raise (e : Exception).
Arguments Ok {A} a.
Arguments Raise {A} e.

#[global] Instance result_bind : MBind result := fun A B k m =>
  match m with
  | Ok a => k a
  | Raise e => Raise e
  end.
#[global] Instance result_ret : MRet result := fun A a => Ok a.
#[global] Instance result_fmap : FMap result := fun A B f m =>
  match m with
  | Ok a => Ok (f a)
  | Raise e => Raise e
  end.

(** [l[i]] on a Python list or numpy array with a non-negative index. *)
Definition getitem {A : Type} (l : list A) (i : nat) : result A :=
  match l !! i with
  | Some a => Ok a
  | None => Raise IndexError
  end.

(** Reading a local variable that may not have been assigned. *)
Definition read_local {A : Type} (name : string) (v : option A) : result A :=
  match v with
  | Some a => Ok a
  | None => Raise (UnboundLocalError name)
  end.

(** ** [ProductSpaceOperator] *)

(** Elements of the component spaces: the code adds them, zeroes them and
    hands them to the blocks.  An element of a product space is the list of
    its components. *)
Class ComponentElement (Elem : Type) : Type := {
  add : Elem -> Elem -> Elem;      (* [a + b], [a += b] *)
  zero : Space -> Elem;            (* [space.zero()] *)
  space_of : Elem -> Space         (* [e.space] *)
}.

(** What the code reads of an [Operator]; [call op x] is [op(x)]. *)
Record Operator (Elem : Type) : Type := {
  domain : Space;
  range : Space;
  is_linear : bool;
  call : Elem -> Elem
}.
Arguments domain {Elem} _.
Arguments range {Elem} _.
Arguments is_linear {Elem} _.
Arguments call {Elem} _ _.

(** An entry of the array handed to the constructor: [0] or [None] (the
    implicit zero operator), an [Operator], or any other non-zero object. *)
Inductive Entry (Elem : Type) : Type :=
| Zero
| Op (op : Operator Elem)
| Other.
Arguments Zero {Elem}.
Arguments Op {Elem} op.
Arguments Other {Elem}.

(** [sp.sparse.coo_matrix]: the parallel [row], [col], [data] arrays, here
    a list of triples, and the shape. *)
Record coo (Elem : Type) : Type := {
  shape : nat * nat;
  triples : list (nat * nat * Entry Elem)
}.
Arguments shape {Elem} _.
Arguments triples {Elem} _.

(** The non-zero entries of one row, left to right, from column [col] on. *)
Fixpoint coo_row {Elem : Type} (row col : nat) (entries : list (Entry Elem))
    : list (nat * nat * Entry Elem) :=
  match entries with
  | [] => []
  | Zero :: rest => coo_row row (S col) rest
  | e :: rest => (row, col, e) :: coo_row row (S col) rest
  end.

(** The non-zero entries of the rows, top to bottom, from row [row] on. *)
Fixpoint coo_rows {Elem : Type} (row : nat) (rows : list (list (Entry Elem)))
    : list (nat * nat * Entry Elem) :=
  match rows with
  | [] => []
  | r :: rest => coo_row row 0 r ++ coo_rows (S row) rest
  end.

Definition rectangular {Elem : Type} (operators : list (list (Entry Elem))) : bool :=
  match operators with
  | [] => true
  | r :: rest => forallb (fun r' => Nat.eqb (length r') (length r)) rest
  end.

(** [coo_matrix(operators)] on a two-dimensional array: the non-zero
    entries in row-major order.  A list without rows is an array of one
    dimension and length 0, which is read as one row without columns; rows
    of different lengths are refused with a [TypeError]. *)
Definition coo_matrix {Elem : Type} (operators : list (list (Entry Elem)))
    : result (coo Elem) :=
  if rectangular operators then
    Ok {| shape := match operators with
                   | [] => (1, 0)
                   | r :: _ => (length operators, length r)
                   end;
          triples := coo_rows 0 operators |}
  else Raise (TypeError Ragged).

(** [all(isinstance(op, Operator) for op in self.ops.data)], giving the
    data as operators when it holds. *)
Fixpoint all_operators {Elem : Type} (ts : list (nat * nat * Entry Elem))
    : option (list (nat * nat * Operator Elem)) :=
  match ts with
  | [] => Some []
  | (row, col, Op op) :: rest =>
      match all_operators rest with
      | Some ops => Some ((row, col, op) :: ops)
      | None => None
      end
  | _ :: _ => None
  end.

(** The loop of [__init__] over [zip(ops.row, ops.col, ops.data)].  The
    locals [domains] and [ranges] are assigned only when [dom], respectively
    [ran], is [None]: a local that was not assigned is [None] here. *)
Fixpoint init_loop {Elem : Type} (ts : list (nat * nat * Operator Elem))
    (domains ranges : option (list (option Space)))
    : result (option (list (option Space)) * option (list (option Space))) :=
  match ts with
  | [] => Ok (domains, ranges)
  | (row, col, op) :: rest =>
      ds ← read_local "domains" domains;
      d ← getitem ds col;
      ds' ← match d with
            | None => Ok (<[col := Some (domain op)]> ds)
            | Some d0 =>
                if negb (space_eqb d0 (domain op))
                then Raise (ValueError (ColumnInconsistent col d0 (domain op)))
                else Ok ds
            end;
      rs ← read_local "ranges" ranges;
      r ← getitem rs row;
      rs' ← match r with
            | None => Ok (<[row := Some (range op)]> rs)
            | Some r0 =>
                if negb (space_eqb r0 (range op))
                then Raise (ValueError (RowInconsistent row r0 (range op)))
                else Ok rs
            end;
      init_loop rest (Some ds') (Some rs')
  end.

(** [for i in range(len(slots)): if slots[i] is None: raise ValueError(...)],
    from index [i] on, then the spaces handed to [ProductSpace]. *)
Fixpoint all_filled (empty : nat -> Message) (i : nat) (slots : list (option Space))
    : result (list Space) :=
  match slots with
  | [] => Ok []
  | None :: _ => Raise (ValueError (empty i))
  | Some s :: rest => ss ← all_filled empty (S i) rest; Ok (s :: ss)
  end.

Record ProductSpaceOperator (Elem : Type) : Type := {
  ops_shape : nat * nat;
  ops : list (nat * nat * Operator Elem);
  pso_domain : Space;
  pso_range : Space;
  pso_linear : bool
}.
Arguments ops_shape {Elem} _.
Arguments ops {Elem} _.
Arguments pso_domain {Elem} _.
Arguments pso_range {Elem} _.
Arguments pso_linear {Elem} _.

Definition is_ProductSpace (s : Space) : bool :=
  match s with
  | ProductSpace _ => true
  | Rn _ => false
  end.

(** Modelled from the spec: the constructor of [ProductSpace] of
    [odl.set.pspace], called with the component spaces in order; it refuses
    an empty sequence with a [ValueError]. *)
Definition ProductSpace_new (spaces : list Space) : result Space :=
  match spaces with
  | [] => Raise (ValueError NoSpaces)
  | _ :: _ => Ok (ProductSpace spaces)
  end.

(** [ProductSpaceOperator.__init__(operators, dom, ran)]. *)
Definition ProductSpaceOperator_init {Elem : Type}
    (operators : list (list (Entry Elem))) (dom ran : option Space)
    : result (ProductSpaceOperator Elem) :=
  _ ← match dom with
      | Some s => if is_ProductSpace s then Ok tt
                  else Raise (TypeError (NotAProductSpace dom))
      | None => Ok tt
      end;
  _ ← match ran with
      | Some s => if is_ProductSpace s then Ok tt
                  else Raise (TypeError (NotAProductSpace dom))
      | None => Ok tt
      end;
  m ← coo_matrix operators;
  data ← match all_operators (triples m) with
         | Some data => Ok data
         | None => Raise (TypeError NotOperators)
         end;
  let domains := match dom with
                 | None => Some (replicate (snd (shape m)) None)
                 | Some _ => None
                 end in
  let ranges := match ran with
                | None => Some (replicate (fst (shape m)) None)
                | Some _ => None
                end in
  '(domains, ranges) ← init_loop data domains ranges;
  dom ← match dom with
        | None => ds ← read_local "domains" domains;
                  spaces ← all_filled ColEmpty 0 ds;
                  ProductSpace_new spaces
        | Some s => Ok s
        end;
  ran ← match ran with
        | None => rs ← read_local "ranges" ranges;
                  spaces ← all_filled RowEmpty 0 rs;
                  ProductSpace_new spaces
        | Some s => Ok s
        end;
  let linear := forallb (fun t => is_linear (snd t)) data in
  Ok {| ops_shape := shape m; ops := data;
        pso_domain := dom; pso_range := ran; pso_linear := linear |}.

(** [space.size] and the component spaces of a product space. *)
Definition space_parts (s : Space) : list Space :=
  match s with
  | ProductSpace parts => parts
  | Rn _ => []
  end.

Definition space_size (s : Space) : nat :=
  match s with
  | ProductSpace parts => length parts
  | Rn n => n
  end.

(** [e.set_zero()]: the element becomes the zero of its own space. *)
Definition set_zero `{ComponentElement Elem} (e : Elem) : Elem := zero (space_of e).

(** The first loop of [_apply]; [op(x[j], out=out[i])] leaves [op(x[j])] in
    [out[i]]. *)
Fixpoint apply_loop `{ComponentElement Elem} (ts : list (nat * nat * Operator Elem))
    (x : list Elem) (has_evaluated_row : list bool) (out : list Elem)
    : result (list bool * list Elem) :=
  match ts with
  | [] => Ok (has_evaluated_row, out)
  | (i, j, op) :: rest =>
      evaluated ← getitem has_evaluated_row i;
      out' ← (if negb evaluated then
                xj ← getitem x j;
                _ ← getitem out i;
                Ok (<[i := call op xj]> out)
              else
                oi ← getitem out i;
                xj ← getitem x j;
                Ok (<[i := add oi (call op xj)]> out));
      apply_loop rest x (<[i := true]> has_evaluated_row) out'
  end.

(** The second loop of [_apply], over [enumerate(has_evaluated_row)] from
    index [i] on. *)
Fixpoint zero_loop `{ComponentElement Elem} (i : nat) (has_evaluated_row : list bool)
    (out : list Elem) : result (list Elem) :=
  match has_evaluated_row with
  | [] => Ok out
  | evaluated :: rest =>
      out' ← (if negb evaluated then
                oi ← getitem out i;
                Ok (<[i := set_zero oi]> out)
              else Ok out);
      zero_loop (S i) rest out'
  end.

(** [ProductSpaceOperator._apply(x, out)]; the result is the content of
    [out] when the method returns. *)
Definition ProductSpaceOperator_apply `{ComponentElement Elem}
    (P : ProductSpaceOperator Elem) (x out : list Elem) : result (list Elem) :=
  let has_evaluated_row := replicate (space_size (pso_range P)) false in
  '(has_evaluated_row, out) ← apply_loop (ops P) x has_evaluated_row out;
  zero_loop 0 has_evaluated_row out.

(** The loop of [_call]: [out[i] += op(x[j])]. *)
Fixpoint call_loop `{ComponentElement Elem} (ts : list (nat * nat * Operator Elem))
    (x out : list Elem) : result (list Elem) :=
  match ts with
  | [] => Ok out
  | (i, j, op) :: rest =>
      oi ← getitem out i;
      xj ← getitem x j;
      call_loop rest x (<[i := add oi (call op xj)]> out)
  end.

(** [ProductSpaceOperator._call(x)]. *)
Definition ProductSpaceOperator_call `{ComponentElement Elem}
    (P : ProductSpaceOperator Elem) (x : list Elem) : result (list Elem) :=
  let out := zero <$> space_parts (pso_range P) in
  call_loop (ops P) x out.

(** [ProductSpaceOperator.adjoint]. *)
Definition ProductSpaceOperator_adjoint {Elem : Type}
    (P : ProductSpaceOperator Elem) : result (ProductSpaceOperator Elem) :=
  Raise NotImplementedError.

(** *** Vocabulary for the properties of [ProductSpaceOperator] *)

(** The array [operators] holds the operator [op] at row [i], column [j]. *)
Definition present {Elem : Type} (operators : list (list (Entry Elem)))
    (i j : nat) (op : Operator Elem) : Prop :=
  exists row, operators !! i = Some row /\ row !! j = Some (Op op).

#[global] Instance ComponentElement_inhabited `{ComponentElement Elem} : Inhabited Elem :=
  populate (zero (Rn 0)).

(** The results [op(x[j])] of the stored blocks [(i, j, op)] of row [i], in
    the order of the stored triples. *)
Definition row_blocks `{ComponentElement Elem} (i : nat)
    (ts : list (nat * nat * Operator Elem)) (x : list Elem) : list Elem :=
  (fun t => call t.2 (x !!! t.1.2)) <$> filter (fun t => t.1.1 = i) ts.

(** The results [op(x[j])] over the columns [j] of a row of the array that
    hold an operator, from left to right. *)
Definition row_values {Elem : Type} (entries : list (Entry Elem)) (x : list Elem)
    : list Elem :=
  omap (fun '(e, xj) => match e with
                        | Op op => Some (call op xj)
                        | _ => None
                        end) (zip entries x).

(** The number of columns of the array. *)
Definition columns {Elem : Type} (operators : list (list (Entry Elem))) : nat :=
  match operators with
  | [] => 0
  | r :: _ => length r
  end.

(** The number of rows [coo_matrix] gives the array: a list without rows
    counts as one row. *)
Definition rows {Elem : Type} (operators : list (list (Entry Elem))) : nat :=
  match operators with
  | [] => 1
  | _ :: _ => length operators
  end.

(** One of the two checks of the loop body of [__init__], on the list of
    slots [domains] or [ranges]. *)
Definition slot_step (mk : nat -> Space -> Space -> Message)
    (slots : list (option Space)) (i : nat) (s : Space)
    : result (list (option Space)) :=
  d ← getitem slots i;
  match d with
  | None => Ok (<[i := Some s]> slots)
  | Some d0 =>
      if negb (space_eqb d0 s) then Raise (ValueError (mk i d0 s)) else Ok slots
  end.

(** What the first loop of [_apply] leaves in a row, given whether the row
    had been written before ([b]), what it held ([oi]) and the results of
    the blocks of the row. *)
Definition row_after `{ComponentElement Elem} (b : bool) (oi : Elem) (vs : list Elem)
    : Elem :=
  match b, vs with
  | true, _ => foldl add oi vs
  | false, [] => oi
  | false, v :: vs' => foldl add v vs'
  end.

(** ** [ComponentProjection] and [ComponentProjectionAdjoint] *)

(** Indexing of a product space and of its elements by an integer, a slice
    or an iterable of integers is [ProductSpace.__getitem__] and its
    siblings; the projections only call it. *)
Class ProductIndexing (Index Element : Type) : Type := {
  space_getitem : Space -> Index -> result Space;                    (* [space[index]] *)
  element_getitem : Element -> Index -> result Element;              (* [x[index]] *)
  element_setitem : Element -> Index -> Element -> result Element;   (* [out[index] = x] *)
  element_zero : Space -> Element;                                   (* [space.zero()] *)
  element_set_zero : Element -> Element                              (* [out.set_zero()] *)
}.

(** The attribute [index] and what [Operator.__init__] stores; both
    operators are created with [linear=True]. *)
Record ComponentProjection (Index : Type) : Type := {
  cp_index : Index;
  cp_domain : Space;
  cp_range : Space
}.
Arguments cp_index {Index} _.
Arguments cp_domain {Index} _.
Arguments cp_range {Index} _.

Record ComponentProjectionAdjoint (Index : Type) : Type := {
  cpa_index : Index;
  cpa_domain : Space;
  cpa_range : Space
}.
Arguments cpa_index {Index} _.
Arguments cpa_domain {Index} _.
Arguments cpa_range {Index} _.

(** [ComponentProjection.__init__(space, index)]. *)
Definition ComponentProjection_init `{ProductIndexing Index Element}
    (space : Space) (index : Index) : result (ComponentProjection Index) :=
  sub ← space_getitem space index;
  Ok {| cp_index := index; cp_domain := space; cp_range := sub |}.

(** [ComponentProjection._apply(x, out)]: [out.assign(x[self.index])]; the
    result is the content of [out]. *)
Definition ComponentProjection_apply `{ProductIndexing Index Element}
    (p : ComponentProjection Index) (x out : Element) : result Element :=
  element_getitem x (cp_index p).

(** [ComponentProjection._call(x)]: [x[self.index].copy()]. *)
Definition ComponentProjection_call `{ProductIndexing Index Element}
    (p : ComponentProjection Index) (x : Element) : result Element :=
  element_getitem x (cp_index p).

(** [ComponentProjectionAdjoint.__init__(space, index)]. *)
Definition ComponentProjectionAdjoint_init `{ProductIndexing Index Element}
    (space : Space) (index : Index) : result (ComponentProjectionAdjoint Index) :=
  sub ← space_getitem space index;
  Ok {| cpa_index := index; cpa_domain := sub; cpa_range := space |}.

(** [ComponentProjectionAdjoint._apply(x, out)]. *)
Definition ComponentProjectionAdjoint_apply `{ProductIndexing Index Element}
    (a : ComponentProjectionAdjoint Index) (x out : Element) : result Element :=
  let out := element_set_zero out in
  element_setitem out (cpa_index a) x.

(** [ComponentProjectionAdjoint._call(x)]. *)
Definition ComponentProjectionAdjoint_call `{ProductIndexing Index Element}
    (a : ComponentProjectionAdjoint Index) (x : Element) : result Element :=
  let out := element_zero (cpa_range a) in
  element_setitem out (cpa_index a) x.

(** [ComponentProjection.adjoint]. *)
Definition ComponentProjection_adjoint `{ProductIndexing Index Element}
    (p : ComponentProjection Index) : result (ComponentProjectionAdjoint Index) :=
  ComponentProjectionAdjoint_init (cp_domain p) (cp_index p).

(** [ComponentProjectionAdjoint.adjoint]. *)
Definition ComponentProjectionAdjoint_adjoint `{ProductIndexing Index Element}
    (a : ComponentProjectionAdjoint Index) : result (ComponentProjection Index) :=
  ComponentProjection_init (cpa_range a) (cpa_index a).

(** ** Quasi-Newton solvers *)

(** Scalars (Python and numpy floats), through the operations the solvers
    apply to them. *)
Class Scalar (K : Type) : Type := {
  kzero : K;
  kone : K;
  kopp : K -> K;
  ksub : K -> K -> K;
  kmul : K -> K -> K;
  kdiv : K -> K -> K;         (* [a / b], for [b] other than zero *)
  kabs : K -> K;              (* [np.abs] *)
  kle : K -> K -> bool;       (* [a <= b] *)
  klt : K -> K -> bool        (* [a < b] *)
}.

(** [LinearSpaceElement], through the methods and operators the solvers
    use; [x.copy()] is [x]. *)
Class LinearSpaceElement (K E : Type) : Type := {
  inner : E -> E -> K;               (* [x.inner(y)] *)
  lincomb : K -> E -> K -> E -> E;   (* [out.lincomb(a, x, b, y)]: a*x + b*y *)
  neg : E -> E;                      (* [-x] *)
  plus : E -> E -> E;                (* [x + y], [x += y] *)
  minus : E -> E -> E;               (* [x - y] *)
  scal : K -> E -> E;                (* [a * x], [x * a], [x *= a] *)
  space_zero : E -> E                (* [x.space.zero()] *)
}.

(** [f.gradient]: the operator, membership in its domain, the size of the
    domain and the derivative at a point (an operator). *)
Record Gradient (E : Type) : Type := {
  grad : E -> E;
  grad_domain_contains : E -> bool;
  grad_domain_size : nat;
  grad_derivative : E -> (E -> E)
}.
Arguments grad {E} _ _.
Arguments grad_domain_contains {E} _ _.
Arguments grad_domain_size {E} _.
Arguments grad_derivative {E} _ _ _.

(** [conjugate_gradient(op, x, rhs, niter)] works in place on [x]; the
    result is the content of [x] afterwards. *)
Class LinearSolver (E : Type) : Type := {
  conjugate_gradient : (E -> E) -> E -> E -> nat -> E
}.

(** The argument [line_search]: a number or a callable.  A callable is
    given as its result on the point, the direction and the directional
    derivative, which [bfgs_method] passes as the keyword arguments
    [direction] and [dir_derivative]. *)
Inductive LineSearch (K E : Type) : Type :=
| Number (a : K)
| Callable (ls : E -> E -> K -> K).
Arguments Number {K E} a.
Arguments Callable {K E} ls.

(** Modelled from the spec: [ConstantLineSearch] of [odl.solvers.util], a
    numeric value wrapped as a constant-step strategy. *)
Definition ConstantLineSearch {K E : Type} (a : K) : E -> E -> K -> K :=
  fun _ _ _ => a.

(** [if not callable(line_search): line_search = ConstantLineSearch(line_search)]. *)
Definition as_callable {K E : Type} (line_search : LineSearch K E) : E -> E -> K -> K :=
  match line_search with
  | Callable ls => ls
  | Number a => ConstantLineSearch a
  end.

(** A pass through a loop body either returns from the function or goes on
    to the next pass. *)
Inductive Outcome (S : Type) : Type :=
| Return (s : S)
| Continue (s : S).
Arguments Return {S} s.
Arguments Continue {S} s.

(** The state a pass ends in. *)
Definition state_of {S : Type} (o : Outcome S) : S :=
  match o with
  | Return s => s
  | Continue s => s
  end.

(** [for _ in range(n): body]; the state when the function returns. *)
Fixpoint for_range {S : Type} (n : nat) (body : S -> result (Outcome S)) (s : S)
    : result S :=
  match n with
  | O => Ok s
  | S n' =>
      o ← body s;
      match o with
      | Return s' => Ok s'
      | Continue s' => for_range n' body s'
      end
  end.

(** [callback(x)] when a callback was given: the calls are recorded in the
    order they are made. *)
Definition invoke {E : Type} (callback : bool) (calls : list E) (x : E) : list E :=
  if callback then calls ++ [x] else calls.

(** *** [newtons_method] *)

Record NewtonState (E : Type) : Type := {
  newton_x : E;
  newton_calls : list E
}.
Arguments newton_x {E} _.
Arguments newton_calls {E} _.


Definition newton_body `{Scalar K, LinearSpaceElement K E, LinearSolver E}
    (g : Gradient E) (line_search : E -> E -> K -> K) (tol : K) (cg_iter : nat)
    (callback : bool) (st : NewtonState E) : result (Outcome (NewtonState E)) :=
  let x := newton_x st in
  let search_direction := space_zero x in
  let hessian := grad_derivative g x in
  let deriv_in_point := grad g x in
  let search_direction :=
    conjugate_gradient hessian search_direction (neg deriv_in_point) cg_iter in
  let dir_deriv := inner search_direction deriv_in_point in
  if kle (kabs dir_deriv) tol then Ok (Return st)
  else
    let step_length := line_search x search_direction dir_deriv in
    let x := plus x (scal step_length search_direction) in
    Ok (Continue {| newton_x := x;
                    newton_calls := invoke callback (newton_calls st) x |}).

Definition newtons_method `{Scalar K, LinearSpaceElement K E, LinearSolver E}
    (f : Gradient E) (x : E) (line_search : LineSearch K E) (maxiter : Z) (tol : K)
    (cg_iter : option nat) (callback : bool) : result (NewtonState E) :=
  let g := f in
  if negb (grad_domain_contains g x) then Raise (TypeError NotInDomain)
  else
    let line_search := as_callable line_search in
    let cg_iter := match cg_iter with
                   | None => grad_domain_size g
                   | Some n => n
                   end in
    for_range (Z.to_nat maxiter) (newton_body g line_search tol cg_iter callback)
      {| newton_x := x; newton_calls := [] |}.

(** *** [_bfgs_multiply] *)

(** [a[i] = v] on a numpy array. *)
Definition setitem {A : Type} (l : list A) (i : nat) (v : A) : result (list A) :=
  if decide (i < length l) then Ok (<[i := v]> l) else Raise IndexError.

(** The loop over [reversed(range(len(s)))]; [idx] holds the indices still
    to visit. *)
Fixpoint bfgs_backward `{Scalar K, LinearSpaceElement K E}
    (s y : list E) (idx : list nat) (r : E) (alphas rhos : list K)
    : result (E * list K * list K) :=
  match idx with
  | [] => Ok (r, alphas, rhos)
  | i :: rest =>
      yi ← getitem y i;
      si ← getitem s i;
      rhos ← setitem rhos i (kdiv kone (inner yi si));
      rho ← getitem rhos i;
      alphas ← setitem alphas i (kmul rho (inner si r));
      alpha ← getitem alphas i;
      let r := lincomb kone r (kopp alpha) yi in
      bfgs_backward s y rest r alphas rhos
  end.

(** The loop over [range(len(s))]. *)
Fixpoint bfgs_forward `{Scalar K, LinearSpaceElement K E}
    (s y : list E) (idx : list nat) (r : E) (alphas rhos : list K) : result E :=
  match idx with
  | [] => Ok r
  | i :: rest =>
      rho ← getitem rhos i;
      yi ← getitem y i;
      let beta := kmul rho (inner yi r) in
      alpha ← getitem alphas i;
      si ← getitem s i;
      let r := lincomb kone r (ksub alpha beta) si in
      bfgs_forward s y rest r alphas rhos
  end.

Definition _bfgs_multiply `{Scalar K, LinearSpaceElement K E}
    (s y : list E) (x : E) (hessinv_estimate : option (E -> E)) : result E :=
  if negb (length s =? length y) then Raise AssertionError
  else
    let r := x in
    let alphas := replicate (length s) kzero in
    let rhos := replicate (length s) kzero in
    '(r, alphas, rhos) ← bfgs_backward s y (reverse (seq 0 (length s))) r alphas rhos;
    let r := match hessinv_estimate with
             | Some h => h r
             | None => r
             end in
    bfgs_forward s y (seq 0 (length s)) r alphas rhos.

(** *** [bfgs_method] *)

(** The index at which [l[start:]] starts on a Python list of length [n]: a
    negative [start] counts from the end, and the index is clamped to
    [0 .. n]. *)
Definition slice_start (start : Z) (n : nat) : nat :=
  let n := Z.of_nat n in
  Z.to_nat (if (start <? 0)%Z then Z.max 0 (start + n) else Z.min start n).

(** [l[start:]]. *)
Definition slice_from {A : Type} (start : Z) (l : list A) : list A :=
  drop (slice_start start (length l)) l.

Record BfgsState (E : Type) : Type := {
  bfgs_x : E;
  bfgs_grad_x : E;
  bfgs_ys : list E;
  bfgs_ss : list E;
  bfgs_calls : list E
}.
Arguments bfgs_x {E} _.
Arguments bfgs_grad_x {E} _.
Arguments bfgs_ys {E} _.
Arguments bfgs_ss {E} _.
Arguments bfgs_calls {E} _.

(** [search_dir = -_bfgs_multiply(ys, ss, grad_x, hessinv_estimate)]. *)
Definition bfgs_search_dir `{Scalar K, LinearSpaceElement K E}
    (hessinv_estimate : option (E -> E)) (st : BfgsState E) : result E :=
  neg <$> _bfgs_multiply (bfgs_ys st) (bfgs_ss st) (bfgs_grad_x st) hessinv_estimate.

Definition bfgs_body `{Scalar K, LinearSpaceElement K E}
    (g : Gradient E) (line_search : E -> E -> K -> K) (tol : K) (maxcor : option Z)
    (hessinv_estimate : option (E -> E)) (callback : bool) (st : BfgsState E)
    : result (Outcome (BfgsState E)) :=
  search_dir ← bfgs_search_dir hessinv_estimate st;
  let dir_deriv := inner search_dir (bfgs_grad_x st) in
  if klt (kabs dir_deriv) tol then Ok (Return st)
  else
    let step := line_search (bfgs_x st) search_dir dir_deriv in
    let x_update := scal step search_dir in
    let x := plus (bfgs_x st) x_update in
    let grad_diff := bfgs_grad_x st in
    let grad_x := grad g x in
    let grad_diff := lincomb (kopp kone) grad_diff kone grad_x in
    let y_inner_s := inner grad_diff x_update in
    if klt (kabs y_inner_s) tol then
      Ok (Return {| bfgs_x := x; bfgs_grad_x := grad_x;
                    bfgs_ys := bfgs_ys st; bfgs_ss := bfgs_ss st;
                    bfgs_calls := bfgs_calls st |})
    else
      let ss := bfgs_ss st ++ [grad_diff] in
      let ys := bfgs_ys st ++ [x_update] in
      let ss := match maxcor with
                | Some m => slice_from (- m) ss
                | None => ss
                end in
      let ys := match maxcor with
                | Some m => slice_from (- m) ys
                | None => ys
                end in
      Ok (Continue {| bfgs_x := x; bfgs_grad_x := grad_x;
                      bfgs_ys := ys; bfgs_ss := ss;
                      bfgs_calls := invoke callback (bfgs_calls st) x |}).

Definition bfgs_method `{Scalar K, LinearSpaceElement K E}
    (f : Gradient E) (x : E) (line_search : LineSearch K E) (maxiter : Z) (tol : K)
    (maxcor : option Z) (hessinv_estimate : option (E -> E)) (callback : bool)
    : result (BfgsState E) :=
  let g := f in
  if negb (grad_domain_contains g x) then Raise (TypeError NotInDomain)
  else
    let line_search := as_callable line_search in
    let ys := [] in
    let ss := [] in
    let grad_x := grad g x in
    for_range (Z.to_nat maxiter)
      (bfgs_body g line_search tol maxcor hessinv_estimate callback)
      {| bfgs_x := x; bfgs_grad_x := grad_x; bfgs_ys := ys; bfgs_ss := ss;
         bfgs_calls := [] |}.

(** *** [broydens_method] *)

(** Modelled from the spec: the operators built by [broydens_method] with
    the operator arithmetic of [odl.operator]: the identity, [a * b]
    (composition), [a + b], and [u * w.T], the rank-one operator taking [z]
    to [<z, w> u]. *)
Inductive HessOperator (E : Type) : Type :=
| IdentityOperator
| OperatorComp (a b : HessOperator E)
| OperatorSum (a b : HessOperator E)
| RankOne (u w : E).
Arguments IdentityOperator {E}.
Arguments OperatorComp {E} a b.
Arguments OperatorSum {E} a b.
Arguments RankOne {E} u w.

Fixpoint hess_call `{Scalar K, LinearSpaceElement K E} (h : HessOperator E) (z : E) : E :=
  match h with
  | IdentityOperator => z
  | OperatorComp a b => hess_call a (hess_call b z)
  | OperatorSum a b => plus (hess_call a z) (hess_call b z)
  | RankOne u w => scal (inner z w) u
  end.

Record BroydenState (E : Type) : Type := {
  broyden_x : E;
  broyden_grad_x : E;
  broyden_hess : HessOperator E;
  broyden_calls : list E
}.
Arguments broyden_x {E} _.
Arguments broyden_grad_x {E} _.
Arguments broyden_hess {E} _.
Arguments broyden_calls {E} _.

Definition broyden_body `{Scalar K, LinearSpaceElement K E}
    (g : Gradient E) (line_search : E -> E -> K -> K) (impl : string) (tol : K)
    (callback : bool) (st : BroydenState E) : result (Outcome (BroydenState E)) :=
  let ident := IdentityOperator in
  let hess := broyden_hess st in
  let search_dir := neg (hess_call hess (broyden_grad_x st)) in
  let dir_deriv := inner search_dir (broyden_grad_x st) in
  if klt (kabs dir_deriv) tol then Ok (Return st)
  else
    let step := line_search (broyden_x st) search_dir dir_deriv in
    let delta_x := scal step search_dir in
    let x := plus (broyden_x st) delta_x in
    let grad_x_old := broyden_grad_x st in
    let grad_x := grad g x in
    let delta_grad := minus grad_x grad_x_old in
    let v := hess_call hess delta_grad in
    let returned := {| broyden_x := x; broyden_grad_x := grad_x;
                       broyden_hess := hess;
                       broyden_calls := broyden_calls st |} in
    let continued (hess : HessOperator E) :=
      {| broyden_x := x; broyden_grad_x := grad_x; broyden_hess := hess;
         broyden_calls := invoke callback (broyden_calls st) x |} in
    if String.eqb impl "first" then
      let divisor := inner delta_x v in
      if klt (kabs divisor) tol then Ok (Return returned)
      else
        let u := scal (kdiv kone divisor) (minus search_dir v) in
        Ok (Continue (continued (OperatorComp (OperatorSum ident (RankOne u delta_x)) hess)))
    else if String.eqb impl "second" then
      let divisor := inner delta_grad delta_grad in
      if klt (kabs divisor) tol then Ok (Return returned)
      else
        let u := scal (kdiv kone divisor) (minus search_dir v) in
        Ok (Continue (continued (OperatorSum hess (RankOne u delta_grad))))
    else Ok (Continue (continued hess)).

Definition broydens_method `{Scalar K, LinearSpaceElement K E}
    (f : Gradient E) (x : E) (line_search : LineSearch K E) (impl : string)
    (maxiter : Z) (tol : K) (callback : bool) : result (BroydenState E) :=
  let g := f in
  if negb (grad_domain_contains g x) then Raise (TypeError NotInDomain)
  else
    let line_search := as_callable line_search in
    let hess := IdentityOperator in
    let grad_x := grad g x in
    for_range (Z.to_nat maxiter) (broyden_body g line_search impl tol callback)
      {| broyden_x := x; broyden_grad_x := grad_x; broyden_hess := hess;
         broyden_calls := [] |}.

(** *** Iterations and intermediate values of the solvers *)

(** [iterates body s s']: passes of the loop body that all go on to the
    next pass lead from [s] to [s']. *)
Inductive iterates {S : Type} (body : S -> result (Outcome S)) : S -> S -> Prop :=
| iterates_refl (s : S) : iterates body s s
| iterates_step (s s' s'' : S) :
    iterates body s s' -> body s' = Ok (Continue s'') -> iterates body s s''.


(** [search_dir] and [dir_deriv] of a pass of [broydens_method]. *)
Definition broyden_search_dir `{Scalar K, LinearSpaceElement K E}
    (st : BroydenState E) : E :=
  neg (hess_call (broyden_hess st) (broyden_grad_x st)).

Definition broyden_dir_deriv `{Scalar K, LinearSpaceElement K E}
    (st : BroydenState E) : K :=
  inner (broyden_search_dir st) (broyden_grad_x st).

(** The pair [(x_update, grad_diff)] a pass of [bfgs_method] computes from
    the search direction [d]: the displacement and the difference of the
    gradients. *)
Definition bfgs_pair `{Scalar K, LinearSpaceElement K E}
    (g : Gradient E) (line_search : E -> E -> K -> K) (st : BfgsState E) (d : E)
    : E * E :=
  let step := line_search (bfgs_x st) d (inner d (bfgs_grad_x st)) in
  let x_update := scal step d in
  let x := plus (bfgs_x st) x_update in
  (x_update, lincomb (kopp kone) (bfgs_grad_x st) kone (grad g x)).

(** [bfgs_run ... st log st']: passes of the loop of [bfgs_method] that all
    go on lead from [st] to [st'], and [log] lists the pairs they appended,
    oldest first. *)
Inductive bfgs_run `{Scalar K, LinearSpaceElement K E}
    (g : Gradient E) (line_search : E -> E -> K -> K) (tol : K) (maxcor : option Z)
    (hessinv_estimate : option (E -> E)) (callback : bool)
    : BfgsState E -> list (E * E) -> BfgsState E -> Prop :=
| bfgs_run_nil (st : BfgsState E) :
    bfgs_run g line_search tol maxcor hessinv_estimate callback st [] st
| bfgs_run_step (st st' st'' : BfgsState E) (log : list (E * E)) (d : E) :
    bfgs_run g line_search tol maxcor hessinv_estimate callback st log st' ->
    bfgs_search_dir hessinv_estimate st' = Ok d ->
    bfgs_body g line_search tol maxcor hessinv_estimate callback st' = Ok (Continue st'') ->
    bfgs_run g line_search tol maxcor hessinv_estimate callback st
      (log ++ [bfgs_pair g line_search st' d]) st''.

(** The last [m] elements of a list (all of it when it is shorter). *)
Definition lastn {A : Type} (m : nat) (l : list A) : list A :=
  drop (length l - m) l.

(** *** The two-loop recursion, as the specification words it *)

(** [rho_i = 1 / <y_i, s_i>]. *)
Definition rho_of `{Scalar K, LinearSpaceElement K E} (p : E * E) : K :=
  kdiv kone (inner p.2 p.1).

(** Backward pass over the pairs [(s_i, y_i)], most recent first:
    [alpha_i = rho_i <s_i, r>], [r <- r - alpha_i y_i]; the result is the
    final [r] and the [alpha_i], most recent first. *)
Fixpoint two_loop_backward `{Scalar K, LinearSpaceElement K E}
    (pairs : list (E * E)) (r : E) : E * list K :=
  match pairs with
  | [] => (r, [])
  | p :: older =>
      let alpha := kmul (rho_of p) (inner p.1 r) in
      let r := minus r (scal alpha p.2) in
      let '(r, alphas) := two_loop_backward older r in
      (r, alpha :: alphas)
  end.

(** Forward pass over the pairs with their [alpha_i], oldest first:
    [beta = rho_i <y_i, r>], [r <- r + (alpha_i - beta) s_i]. *)
Fixpoint two_loop_forward `{Scalar K, LinearSpaceElement K E}
    (pairs : list (E * E * K)) (r : E) : E :=
  match pairs with
  | [] => r
  | (p, alpha) :: newer =>
      let beta := kmul (rho_of p) (inner p.2 r) in
      two_loop_forward newer (plus r (scal (ksub alpha beta) p.1))
  end.

(** The two-loop recursion on the pairs [(s_i, y_i)], oldest first. *)
Definition two_loop_recursion `{Scalar K, LinearSpaceElement K E}
    (pairs : list (E * E)) (hessinv_estimate : option (E -> E)) (g : E) : E :=
  let '(r, alphas) := two_loop_backward (reverse pairs) g in
  let r := match hessinv_estimate with
           | Some h => h r
           | None => r
           end in
  two_loop_forward (zip pairs (reverse alphas)) r.

(** What the solvers need of [lincomb]: with the coefficient [1] on its
    first vector it adds a multiple of the second. *)
Class LincombLaws (K E : Type) `{Scalar K, LinearSpaceElement K E} : Prop := {
  lincomb_minus : forall (r y : E) (a : K),
    lincomb kone r (kopp a) y = minus r (scal a y);
  lincomb_plus : forall (r s : E) (a : K),
    lincomb kone r a s = plus r (scal a s)
}.

(** ** Concrete collaborators

    Rational scalars, the spaces [Rn n] with vectors as lists of rationals,
    and nested tuples for the elements of product spaces: the instances on
    which the definitions above are run. *)

#[global] Instance Q_Scalar : Scalar Q := {|
  kzero := 0%Q;
  kone := 1%Q;
  kopp := Qopp;
  ksub := Qminus;
  kmul := Qmult;
  kdiv := Qdiv;
  kabs := Qabs;
  kle := Qle_bool;
  klt := fun a b => negb (Qle_bool b a)
|}.

Definition vec_inner (a b : list Q) : Q :=
  foldr Qplus 0%Q (zip_with Qmult a b).

#[global] Instance Rn_LinearSpaceElement : LinearSpaceElement Q (list Q) := {|
  inner := vec_inner;
  lincomb := fun a x b y => zip_with Qplus (Qmult a <$> x) (Qmult b <$> y);
  neg := fmap Qopp;
  plus := zip_with Qplus;
  minus := zip_with Qminus;
  scal := fun a x => Qmult a <$> x;
  space_zero := fun x => (fun _ => 0%Q) <$> x
|}.

#[global] Instance Rn_ComponentElement : ComponentElement (list Q) := {|
  add := zip_with Qplus;
  zero := fun s => match s with
                   | Rn n => replicate n 0%Q
                   | ProductSpace _ => []
                   end;
  space_of := fun v => Rn (length v)
|}.

(** [odl.IdentityOperator(odl.Rn(n))]. *)
Definition identity_on_Rn (n : nat) : Operator (list Q) :=
  {| domain := Rn n; range := Rn n; is_linear := true; call := fun x => x |}.

(** Elements of [Rn n] and of product spaces, and indices that are an
    integer or a list of integers. *)
#[warnings="-register-all"]
Inductive Element : Type :=
| Vec (v : list Q)
| Tuple (parts : list Element).

Inductive Index : Type :=
| IInt (i : nat)
| IList (l : list nat).

Fixpoint tree_zero (s : Space) : Element :=
  match s with
  | Rn n => Vec (replicate n 0%Q)
  | ProductSpace parts => Tuple (List.map tree_zero parts)
  end.

Fixpoint tree_set_zero (e : Element) : Element :=
  match e with
  | Vec v => Vec (List.map (fun _ => 0%Q) v)
  | Tuple parts => Tuple (List.map tree_set_zero parts)
  end.

Fixpoint getitems {A : Type} (l : list A) (idx : list nat) : result (list A) :=
  match idx with
  | [] => Ok []
  | i :: rest => a ← getitem l i; others ← getitems l rest; Ok (a :: others)
  end.

Fixpoint setitems {A : Type} (l : list A) (idx : list nat) (vs : list A) : result (list A) :=
  match idx, vs with
  | [], [] => Ok l
  | i :: rest, v :: vs' => l' ← setitem l i v; setitems l' rest vs'
  | _, _ => Raise (ValueError Ragged)
  end.

#[global] Instance tree_ProductIndexing : ProductIndexing Index Element := {|
  space_getitem := fun s index =>
    match s, index with
    | ProductSpace parts, IInt i => getitem parts i
    | ProductSpace parts, IList l => ProductSpace <$> getitems parts l
    | Rn _, _ => Raise IndexError
    end;
  element_getitem := fun x index =>
    match x, index with
    | Tuple parts, IInt i => getitem parts i
    | Tuple parts, IList l => Tuple <$> getitems parts l
    | Vec _, _ => Raise IndexError
    end;
  element_setitem := fun out index x =>
    match out, index, x with
    | Tuple parts, IInt i, _ => Tuple <$> setitem parts i x
    | Tuple parts, IList l, Tuple xs => Tuple <$> setitems parts l xs
    | _, _, _ => Raise IndexError
    end;
  element_zero := tree_zero;
  element_set_zero := tree_set_zero
|}.

(** [f(x) = |x|^2 / 2] on [Rn n]: the gradient is the identity and so is
    its derivative at every point. *)
Definition half_square_norm (n : nat) : Gradient (list Q) :=
  {| grad := fun x => x;
     grad_domain_contains := fun x => Nat.eqb (length x) n;
     grad_domain_size := n;
     grad_derivative := fun _ z => z |}.

(** A linear solver that is exact for the identity operator after one
    iteration. *)
#[global] Instance identity_LinearSolver : LinearSolver (list Q) := {|
  conjugate_gradient := fun _ x rhs niter => match niter with O => x | S _ => rhs end
|}.

(** The product space and the element of the docstrings of the
    projections. *)
Definition X123 : Space := ProductSpace [Rn 1; Rn 2; Rn 3].
Definition x123 : Element := Tuple [Vec [1]; Vec [2; 3]; Vec [4; 5; 6]]%Q.

(** The operator of the docstring of [_call], built from
    [[I, I], [I, 0]] with [I] the identity of [Rn 3]. *)
Definition block_example : ProductSpaceOperator (list Q) :=
  {| ops_shape := (2, 2);
     ops := [(0, 0, identity_on_Rn 3); (0, 1, identity_on_Rn 3); (1, 0, identity_on_Rn 3)];
     pso_domain := ProductSpace [Rn 3; Rn 3];
     pso_range := ProductSpace [Rn 3; Rn 3];
     pso_linear := true |}.

(** An operator with a row that has no block. *)
Definition block_with_empty_row : ProductSpaceOperator (list Q) :=
  {| ops_shape := (2, 2);
     ops := [(0, 0, identity_on_Rn 3); (0, 1, identity_on_Rn 3)];
     pso_domain := ProductSpace [Rn 3; Rn 3];
     pso_range := ProductSpace [Rn 3; Rn 3];
     pso_linear := true |}.

(** States of the solvers on [half_square_norm 1]. *)
Definition bfgs_at (x : list Q) : BfgsState (list Q) :=
  {| bfgs_x := x; bfgs_grad_x := x; bfgs_ys := []; bfgs_ss := []; bfgs_calls := [] |}.

Definition broyden_at (x : list Q) : BroydenState (list Q) :=
  {| broyden_x := x; broyden_grad_x := x; broyden_hess := IdentityOperator;
     broyden_calls := [] |}.



Definition example_line_search : list Q -> list Q -> Q -> Q :=
  as_callable (Number (1 # 4)%Q).

(** The state after a pass that goes on (the state itself otherwise). *)
Definition next_state {S : Type} (body : S -> result (Outcome S)) (s : S) : S :=
  match body s with
  | Ok (Continue s') => s'
  | _ => s
  end.

(** *** Further vocabulary *)

(** Row-major order on the positions of stored triples. *)
Definition rowmajor_lt {A : Type} (a b : nat * nat * A) : Prop :=
  a.1.1 < b.1.1 \/ (a.1.1 = b.1.1 /\ a.1.2 < b.1.2).

(** [dom] or [ran] is omitted or is a product space. *)
Definition product_or_omitted (s : option Space) : Prop :=
  s = None \/ exists parts, s = Some (ProductSpace parts).

(** The operators of each column of the array agree on their domain, and
    those of each row on their range. *)
Definition consistent {Elem : Type} (operators : list (list (Entry Elem))) : Prop :=
  (forall i1 i2 j op1 op2,
      present operators i1 j op1 -> present operators i2 j op2 ->
      domain op1 = domain op2) /\
  (forall i j1 j2 op1 op2,
      present operators i j1 op1 -> present operators i j2 op2 ->
      range op1 = range op2).

(** Column [j], respectively row [i], of the array holds no operator. *)
Definition column_empty {Elem : Type} (operators : list (list (Entry Elem))) (j : nat)
    : Prop :=
  forall i op, ~ present operators i j op.

Definition row_empty {Elem : Type} (operators : list (list (Entry Elem))) (i : nat)
    : Prop :=
  forall j op, ~ present operators i j op.


(** *** Exact arithmetic *)

(** The laws of exact arithmetic the update of the Hessian estimate in
    [broydens_method] relies on. *)
Class ExactArithmetic (K E : Type) `{Scalar K, LinearSpaceElement K E} : Prop := {
  inner_comm : forall u v : E, inner u v = inner v u;
  scal_scal : forall (a b : K) (u : E), scal a (scal b u) = scal (kmul a b) u;
  scal_one : forall u : E, scal kone u = u;
  plus_minus : forall u v : E, plus v (minus u v) = u
}.

(** Normalised rationals, as scalars and as the elements of the real line. *)
#[global] Instance Qc_Scalar : Scalar Qc := {|
  kzero := Q2Qc 0;
  kone := Q2Qc 1;
  kopp := Qcopp;
  ksub := Qcminus;
  kmul := Qcmult;
  kdiv := Qcdiv;
  kabs := Qcabs;
  kle := fun a b => Qle_bool a b;
  klt := fun a b => negb (Qle_bool b a)
|}.

#[global] Instance Qc_LinearSpaceElement : LinearSpaceElement Qc Qc := {|
  inner := Qcmult;
  lincomb := fun a x b y => Qcplus (Qcmult a x) (Qcmult b y);
  neg := Qcopp;
  plus := Qcplus;
  minus := Qcminus;
  scal := Qcmult;
  space_zero := fun _ => Q2Qc 0
|}.

(** The gradient [x |-> 2 x] of [x |-> x ^ 2] on the real line. *)
Definition square_on_line : Gradient Qc :=
  {| grad := fun x => Qcmult (Q2Qc 2) x;
     grad_domain_contains := fun _ => true;
     grad_domain_size := 1;
     grad_derivative := fun _ h => Qcmult (Q2Qc 2) h |}.

(** *** Arrays of operators

    The array [[I, I], [I, 0]] of the docstrings, with [I] the identity of
    [Rn 3], and arrays with an empty column, an empty row, no operator, an
    entry that is not an operator, and no column. *)
Definition I3 : Entry (list Q) := Op (identity_on_Rn 3).

Definition array_example : list (list (Entry (list Q))) := [[I3; I3]; [I3; Zero]].
Definition array_empty_column : list (list (Entry (list Q))) := [[I3; Zero]; [I3; Zero]].
Definition array_empty_row : list (list (Entry (list Q))) := [[I3; I3]; [Zero; Zero]].
Definition array_zero : list (list (Entry (list Q))) := [[Zero; Zero; Zero]; [Zero; Zero; Zero]].
Definition array_other : list (list (Entry (list Q))) := [[I3; Other]].
Definition array_no_column : list (list (Entry (list Q))) := [[]].
(** * Properties *)

(** ** The examples of the docstrings *)

Example ProductSpaceOperator_call_sum :
  (P ← ProductSpaceOperator_init [[Op (identity_on_Rn 3); Op (identity_on_Rn 3)]] None None;
   ProductSpaceOperator_call P [[1; 2; 3]; [4; 5; 6]]%Q)
  = Ok [[5; 7; 9]]%Q.
Proof. reflexivity. Qed.

Example ProductSpaceOperator_call_diagonal :
  (P ← ProductSpaceOperator_init
         [[Op (identity_on_Rn 3); Zero]; [Zero; Op (identity_on_Rn 3)]] None None;
   ProductSpaceOperator_call P [[1; 2; 3]; [4; 5; 6]]%Q)
  = Ok [[1; 2; 3]; [4; 5; 6]]%Q.
Proof. reflexivity. Qed.

Example ProductSpaceOperator_call_combined :
  (P ← ProductSpaceOperator_init
         [[Op (identity_on_Rn 3); Op (identity_on_Rn 3)]; [Op (identity_on_Rn 3); Zero]]
         None None;
   ProductSpaceOperator_call P [[1; 2; 3]; [4; 5; 6]]%Q)
  = Ok [[5; 7; 9]; [1; 2; 3]]%Q.
Proof. reflexivity. Qed.

Example ProductSpaceOperator_apply_combined :
  (P ← ProductSpaceOperator_init
         [[Op (identity_on_Rn 3); Op (identity_on_Rn 3)]; [Op (identity_on_Rn 3); Zero]]
         None None;
   ProductSpaceOperator_apply P [[1; 2; 3]; [4; 5; 6]]%Q [[8; 8; 8]; [9; 9; 9]]%Q)
  = Ok [[5; 7; 9]; [1; 2; 3]]%Q.
Proof. reflexivity. Qed.

Example ComponentProjection_range_list :
  cp_range <$> ComponentProjection_init X123 (IList [0; 2])
  = Ok (ProductSpace [Rn 1; Rn 3]).
Proof. reflexivity. Qed.

Example ComponentProjection_call_int :
  (p ← ComponentProjection_init X123 (IInt 0); ComponentProjection_call p x123)
  = Ok (Vec [1]%Q).
Proof. reflexivity. Qed.

Example ComponentProjection_call_list :
  (p ← ComponentProjection_init X123 (IList [0; 2]); ComponentProjection_call p x123)
  = Ok (Tuple [Vec [1]; Vec [4; 5; 6]]%Q).
Proof. reflexivity. Qed.

Example ComponentProjectionAdjoint_call_int :
  (a ← ComponentProjectionAdjoint_init X123 (IInt 0);
   ComponentProjectionAdjoint_call a (Vec [1]%Q))
  = Ok (Tuple [Vec [1]; Vec [0; 0]; Vec [0; 0; 0]]%Q).
Proof. reflexivity. Qed.

Example ComponentProjectionAdjoint_call_list :
  (a ← ComponentProjectionAdjoint_init X123 (IList [0; 2]);
   ComponentProjectionAdjoint_call a (Tuple [Vec [1]; Vec [4; 5; 6]]%Q))
  = Ok (Tuple [Vec [1]; Vec [0; 0]; Vec [4; 5; 6]]%Q).
Proof. reflexivity. Qed.

(** ** Spaces and the result monad *)

Lemma space_eqb_eq (a b : Space) : space_eqb a b = true <-> a = b.
Proof.
  revert b. induction a as [n | ps IH] using Space_nested_ind; intros [m | qs]; simpl.
  - rewrite Nat.eqb_eq. split; congruence.
  - split; discriminate.
  - split; discriminate.
  - revert qs. induction IH as [| p ps Hp _ IHps]; intros [| q qs].
    + split; reflexivity.
    + split; discriminate.
    + split; discriminate.
    + rewrite andb_true_iff, Hp, IHps. split.
      * intros [-> E]. by injection E as ->.
      * intros E. injection E as -> ->. done.
Qed.

Lemma space_eqb_neq (a b : Space) : space_eqb a b = false <-> a <> b.
Proof.
  rewrite <- space_eqb_eq. destruct (space_eqb a b); split; congruence.
Qed.

Lemma bind_Ok {A B : Type} (m : result A) (k : A -> result B) (b : B) :
  m ≫= k = Ok b -> exists a, m = Ok a /\ k a = Ok b.
Proof. destruct m as [a | e]; simpl; [eauto | discriminate]. Qed.

Lemma getitem_Ok {A : Type} (l : list A) (i : nat) (a : A) :
  getitem l i = Ok a <-> l !! i = Some a.
Proof. unfold getitem. destruct (l !! i); split; congruence. Qed.

Lemma getitem_lookup {A : Type} (l : list A) (i : nat) (a : A) :
  l !! i = Some a -> getitem l i = Ok a.
Proof. apply getitem_Ok. Qed.

(** ** [ComponentProjection] and its adjoint *)

Section Projections.
Context `{ProductIndexing Index Element}.

Lemma ComponentProjection_init_Ok (S : Space) (I : Index) (p : ComponentProjection Index) :
  ComponentProjection_init S I = Ok p ->
  cp_index p = I /\ cp_domain p = S /\ space_getitem S I = Ok (cp_range p).
Proof.
  unfold ComponentProjection_init. intros Hp.
  apply bind_Ok in Hp as (sub & Hsub & Hp). injection Hp as <-. simpl. done.
Qed.

(** C8. For every product space [S] and index [I] for which
    [ComponentProjection(S, I)] can be built, taking [.adjoint] twice
    succeeds and gives an operator with the same domain, the same range and
    the same action ([_call] and [_apply]) on every element. *)
Theorem ComponentProjection_adjoint_adjoint (S : Space) (I : Index)
    (p : ComponentProjection Index) :
  ComponentProjection_init S I = Ok p ->
  exists (a : ComponentProjectionAdjoint Index) (p' : ComponentProjection Index),
    ComponentProjection_adjoint p = Ok a /\
    ComponentProjectionAdjoint_adjoint a = Ok p' /\
    cp_domain p' = cp_domain p /\
    cp_range p' = cp_range p /\
    (forall x, ComponentProjection_call p' x = ComponentProjection_call p x) /\
    (forall x out, ComponentProjection_apply p' x out = ComponentProjection_apply p x out).
Proof.
  intros Hp. destruct (ComponentProjection_init_Ok S I p Hp) as (Hi & Hd & Hr).
  destruct p as [pi pd pr]. simpl in *. subst pi pd.
  exists {| cpa_index := I; cpa_domain := pr; cpa_range := S |},
         {| cp_index := I; cp_domain := S; cp_range := pr |}.
  unfold ComponentProjection_adjoint, ComponentProjectionAdjoint_adjoint,
    ComponentProjectionAdjoint_init, ComponentProjection_init. simpl.
  rewrite Hr. simpl. repeat split.
Qed.

End Projections.

Lemma ComponentProjection_adjoint_adjoint_witness :
  exists a p',
    ComponentProjection_adjoint (Index := Index) (Element := Element)
      {| cp_index := IList [0; 2]; cp_domain := X123;
         cp_range := ProductSpace [Rn 1; Rn 3] |} = Ok a /\
    ComponentProjectionAdjoint_adjoint (Element := Element) a = Ok p' /\
    cp_domain p' = X123 /\
    cp_range p' = ProductSpace [Rn 1; Rn 3] /\
    (forall x : Element,
        ComponentProjection_call p' x
        = ComponentProjection_call
            {| cp_index := IList [0; 2]; cp_domain := X123;
               cp_range := ProductSpace [Rn 1; Rn 3] |} x) /\
    (forall x out : Element,
        ComponentProjection_apply p' x out
        = ComponentProjection_apply
            {| cp_index := IList [0; 2]; cp_domain := X123;
               cp_range := ProductSpace [Rn 1; Rn 3] |} x out).
Proof.
  apply (ComponentProjection_adjoint_adjoint (H := tree_ProductIndexing) X123 (IList [0; 2])).
  reflexivity.
Defined.

(** ** Construction of a [ProductSpaceOperator] *)

Section Construction.
Context {Elem : Type}.
Implicit Types (op : Operator Elem) (e : Entry Elem).
Implicit Types (ts : list (nat * nat * Operator Elem)).
Implicit Types (operators : list (list (Entry Elem))).

Lemma elem_of_coo_row (row col : nat) (entries : list (Entry Elem)) r c e :
  (r, c, e) ∈ coo_row row col entries <->
  r = row /\ col <= c /\ entries !! (c - col) = Some e /\ e <> Zero.
Proof.
  revert col. induction entries as [| e0 entries IH]; intros col; simpl.
  - rewrite elem_of_nil. split; [done | intros (_ & _ & Hl & _); discriminate].
  - assert (Hrest : (r, c, e) ∈ coo_row row (S col) entries <->
              r = row /\ col < c /\ (e0 :: entries) !! (c - col) = Some e /\ e <> Zero).
    { rewrite IH. split.
      - intros (-> & Hc & Hl & He). repeat split; [lia | | done].
        replace (c - col) with (S (c - S col)) by lia. done.
      - intros (-> & Hc & Hl & He). repeat split; [lia | | done].
        replace (c - col) with (S (c - S col)) in Hl by lia. done. }
    assert (Hhead : e0 <> Zero ->
              ((r, c, e) = (row, col, e0) <->
               r = row /\ col = c /\ (e0 :: entries) !! (c - col) = Some e /\ e <> Zero)).
    { intros He0. split.
      - intros [= -> -> ->]. rewrite Nat.sub_diag. done.
      - intros (-> & -> & Hl & _). rewrite Nat.sub_diag in Hl. simpl in Hl. congruence. }
    destruct e0 as [| op0 |].
    + rewrite Hrest. split.
      * intros (-> & Hc & Hl & He). repeat split; [lia | done | done].
      * intros (-> & Hc & Hl & He). repeat split; [| done | done].
        destruct (decide (c = col)) as [-> |]; [| lia].
        rewrite Nat.sub_diag in Hl. simpl in Hl. congruence.
    + rewrite elem_of_cons, Hrest, Hhead by done. split.
      * intros [(-> & <- & ?) | (-> & ? & ?)]; repeat split; (lia || tauto).
      * intros (-> & Hc & Hl). destruct (decide (col = c)); [left | right]; repeat split; (lia || tauto).
    + rewrite elem_of_cons, Hrest, Hhead by done. split.
      * intros [(-> & <- & ?) | (-> & ? & ?)]; repeat split; (lia || tauto).
      * intros (-> & Hc & Hl). destruct (decide (col = c)); [left | right]; repeat split; (lia || tauto).
Qed.

Lemma elem_of_coo_rows (row : nat) operators r c e :
  (r, c, e) ∈ coo_rows row operators <->
  row <= r /\ exists es, operators !! (r - row) = Some es /\ es !! c = Some e /\ e <> Zero.
Proof.
  revert row. induction operators as [| es0 operators IH]; intros row; simpl.
  - rewrite elem_of_nil. split; [done | intros (_ & es & Hl & _); discriminate].
  - rewrite elem_of_app, elem_of_coo_row, IH, Nat.sub_0_r. split.
    + intros [(-> & _ & Hl & He) | (Hr & es & Hes & Hl & He)].
      * split; [lia |]. exists es0. rewrite Nat.sub_diag. done.
      * split; [lia |]. exists es. replace (r - row) with (S (r - S row)) by lia. done.
    + intros (Hr & es & Hes & Hl & He). destruct (decide (r = row)) as [-> | Hne].
      * left. rewrite Nat.sub_diag in Hes. injection Hes as ->. repeat split; (lia || done).
      * right. split; [lia |]. exists es.
        replace (r - row) with (S (r - S row)) in Hes by lia. done.
Qed.

Lemma all_operators_Some (es : list (nat * nat * Entry Elem)) ts :
  all_operators es = Some ts ->
  es = (fun t => (t.1, Op t.2)) <$> ts.
Proof.
  revert ts. induction es as [| [[r c] e] es IH]; intros ts; simpl.
  - intros [= <-]. done.
  - destruct e as [| op |]; try discriminate.
    destruct (all_operators es) as [ts' |]; [| discriminate].
    intros [= <-]. simpl. by rewrite <- IH.
Qed.

Lemma all_operators_is_Some (es : list (nat * nat * Entry Elem)) :
  (forall r c e, (r, c, e) ∈ es -> exists op, e = Op op) ->
  is_Some (all_operators es).
Proof.
  induction es as [| [[r c] e] es IH]; intros Hes; simpl; [by eexists |].
  destruct (Hes r c e) as [op ->]; [by left |].
  destruct IH as [ts ->]; [| by eexists].
  intros r' c' e' Hin. apply (Hes r' c' e'). by right.
Qed.

Lemma elem_of_all_operators (es : list (nat * nat * Entry Elem)) ts r c op :
  all_operators es = Some ts ->
  (r, c, op) ∈ ts <-> (r, c, Op op) ∈ es.
Proof.
  intros ->%all_operators_Some. rewrite list_elem_of_fmap. split.
  - intros Hin. exists (r, c, op). done.
  - intros ([[r' c'] op'] & [= -> -> ->] & Hin). done.
Qed.

Lemma init_loop_cons r c op ts (ds rs : list (option Space)) :
  init_loop ((r, c, op) :: ts) (Some ds) (Some rs)
  = (ds' ← slot_step ColumnInconsistent ds c (domain op);
     rs' ← slot_step RowInconsistent rs r (range op);
     init_loop ts (Some ds') (Some rs')).
Proof.
  simpl. unfold slot_step.
  destruct (getitem ds c) as [[d0 |] | ex]; simpl; [| | done].
  - destruct (negb (space_eqb d0 (domain op))); simpl; [done |].
    destruct (getitem rs r) as [[r0 |] | ex]; simpl; [| done | done].
    destruct (negb (space_eqb r0 (range op))); done.
  - destruct (getitem rs r) as [[r0 |] | ex]; simpl; [| done | done].
    destruct (negb (space_eqb r0 (range op))); done.
Qed.

Lemma slot_step_spec mk (slots : list (option Space)) (i : nat) (s : Space) :
  i < length slots ->
  (slot_step mk slots i s = Ok (<[i := Some s]> slots) /\
   (slots !! i = Some None \/ slots !! i = Some (Some s))) \/
  (exists d0, slots !! i = Some (Some d0) /\ d0 <> s /\
              slot_step mk slots i s = Raise (ValueError (mk i d0 s))).
Proof.
  intros Hi. destruct (lookup_lt_is_Some_2 slots i Hi) as [d Hd].
  unfold slot_step. rewrite (getitem_lookup _ _ _ Hd). simpl.
  destruct d as [d0 |].
  - destruct (space_eqb d0 s) eqn:E; simpl.
    + apply space_eqb_eq in E as ->. left. split; [| by right].
      by rewrite list_insert_id.
    + apply space_eqb_neq in E. right. by exists d0.
  - left. split; [done | by left].
Qed.

(** The outcome of the loop of [__init__] when both locals are assigned:
    it either fills the slots consistently with every triple, or raises the
    [ValueError] of a column or of a row, naming two different spaces that
    both come from operators of that column, respectively row. *)
Lemma init_loop_spec pre ts (ds rs : list (option Space)) :
  (forall r c op, (r, c, op) ∈ ts -> c < length ds /\ r < length rs) ->
  (forall c d, ds !! c = Some (Some d) -> exists r op, (r, c, op) ∈ pre /\ domain op = d) ->
  (forall r g, rs !! r = Some (Some g) -> exists c op, (r, c, op) ∈ pre /\ range op = g) ->
  match init_loop ts (Some ds) (Some rs) with
  | Ok (Some ds', Some rs') =>
      length ds' = length ds /\ length rs' = length rs /\
      (forall c d, ds !! c = Some (Some d) -> ds' !! c = Some (Some d)) /\
      (forall r g, rs !! r = Some (Some g) -> rs' !! r = Some (Some g)) /\
      (forall r c op, (r, c, op) ∈ ts ->
         ds' !! c = Some (Some (domain op)) /\ rs' !! r = Some (Some (range op)))
  | Raise (ValueError (ColumnInconsistent c d1 d2)) =>
      d1 <> d2 /\
      (exists r op, (r, c, op) ∈ pre ++ ts /\ domain op = d1) /\
      (exists r op, (r, c, op) ∈ pre ++ ts /\ domain op = d2)
  | Raise (ValueError (RowInconsistent r g1 g2)) =>
      g1 <> g2 /\
      (exists c op, (r, c, op) ∈ pre ++ ts /\ range op = g1) /\
      (exists c op, (r, c, op) ∈ pre ++ ts /\ range op = g2)
  | _ => False
  end.
Proof.
  revert pre ds rs. induction ts as [| [[r c] op] ts IH]; intros pre ds rs Hb Hds Hrs.
  - simpl. split_and!; try done; intros r c op Hin; by apply elem_of_nil in Hin.
  - rewrite init_loop_cons.
    destruct (Hb r c op) as [Hc Hr]; [by left |].
    destruct (slot_step_spec ColumnInconsistent ds c (domain op) Hc)
      as [[-> Hold] | (d0 & Hd0 & Hne & ->)]; simpl.
    2:{ split; [done |]. destruct (Hds c d0 Hd0) as (r0 & op0 & Hin & Heq). split.
        - exists r0, op0. split; [| done]. apply elem_of_app. by left.
        - exists r, op. split; [| done]. apply elem_of_app. right. by left. }
    destruct (slot_step_spec RowInconsistent rs r (range op) Hr)
      as [[-> Hold'] | (g0 & Hg0 & Hne & ->)]; simpl.
    2:{ split; [done |]. destruct (Hrs r g0 Hg0) as (c0 & op0 & Hin & Heq). split.
        - exists c0, op0. split; [| done]. apply elem_of_app. by left.
        - exists c, op. split; [| done]. apply elem_of_app. right. by left. }
    assert (Hmono_d : forall c' d, ds !! c' = Some (Some d) ->
              <[c := Some (domain op)]> ds !! c' = Some (Some d)).
    { intros c' d Hl. destruct (decide (c = c')) as [<- | Hne].
      - rewrite list_lookup_insert_eq by done. destruct Hold; congruence.
      - by rewrite list_lookup_insert_ne. }
    assert (Hmono_r : forall r' g, rs !! r' = Some (Some g) ->
              <[r := Some (range op)]> rs !! r' = Some (Some g)).
    { intros r' g Hl. destruct (decide (r = r')) as [<- | Hne].
      - rewrite list_lookup_insert_eq by done. destruct Hold'; congruence.
      - by rewrite list_lookup_insert_ne. }
    specialize (IH (pre ++ [(r, c, op)]) (<[c := Some (domain op)]> ds)
                  (<[r := Some (range op)]> rs)).
    rewrite !length_insert in IH.
    assert (Hpre : forall t, t ∈ (pre ++ [(r, c, op)]) ++ ts <-> t ∈ pre ++ (r, c, op) :: ts).
    { intros t. by rewrite <- app_assoc. }
    lapply IH; [clear IH; intros IH | intros r' c' op' Hin; apply (Hb r' c' op'); by right].
    lapply IH; [clear IH; intros IH |].
    2:{ intros c' d Hl. destruct (decide (c = c')) as [<- | Hne].
        - rewrite list_lookup_insert_eq in Hl by done. injection Hl as <-.
          exists r, op. split; [| done]. apply elem_of_app. right. by left.
        - rewrite list_lookup_insert_ne in Hl by done.
          destruct (Hds c' d Hl) as (r0 & op0 & Hin & Heq).
          exists r0, op0. split; [| done]. apply elem_of_app. by left. }
    lapply IH; [clear IH; intros IH |].
    2:{ intros r' g Hl. destruct (decide (r = r')) as [<- | Hne].
        - rewrite list_lookup_insert_eq in Hl by done. injection Hl as <-.
          exists c, op. split; [| done]. apply elem_of_app. right. by left.
        - rewrite list_lookup_insert_ne in Hl by done.
          destruct (Hrs r' g Hl) as (c0 & op0 & Hin & Heq).
          exists c0, op0. split; [| done]. apply elem_of_app. by left. }
    destruct (init_loop ts _ _) as [[[ds' |] [rs' |]] | [m | m | | | |]]; try done.
    + destruct IH as (Hld & Hlr & Hmd & Hmr & Hall). repeat split; try done.
      * intros c' d Hl. by apply Hmd, Hmono_d.
      * intros r' g Hl. by apply Hmr, Hmono_r.
      * apply elem_of_cons in H as [[= -> -> ->] | Hin]; [| by apply (Hall _ _ _ Hin)].
        apply Hmd. by apply list_lookup_insert_eq.
      * apply elem_of_cons in H as [[= -> -> ->] | Hin]; [| by apply (Hall _ _ _ Hin)].
        apply Hmr. by apply list_lookup_insert_eq.
    + destruct m as [| | c' d1 d2 | r' g1 g2 | | | | |]; try done.
      * destruct IH as (Hne & (r1 & op1 & Hin1 & He1) & (r2 & op2 & Hin2 & He2)).
        split; [done |]. split; [exists r1, op1 | exists r2, op2]; by rewrite <- Hpre.
      * destruct IH as (Hne & (c1 & op1 & Hin1 & He1) & (c2 & op2 & Hin2 & He2)).
        split; [done |]. split; [exists c1, op1 | exists c2, op2]; by rewrite <- Hpre.
Qed.

End Construction.

Section ConstructionErrors.
Context {Elem : Type}.
Implicit Types (op : Operator Elem) (e : Entry Elem).
Implicit Types (operators : list (list (Entry Elem))).

Lemma rectangular_length operators (i : nat) (es : list (Entry Elem)) :
  rectangular operators = true ->
  operators !! i = Some es ->
  length es = columns operators.
Proof.
  destruct operators as [| r0 rest]; [done |]. simpl. intros Hrect Hl.
  destruct i as [| i]; simpl in Hl; [congruence |].
  rewrite forallb_forall in Hrect. apply Nat.eqb_eq, Hrect.
  apply list_elem_of_In, list_elem_of_lookup. eauto.
Qed.

Lemma present_coo operators (ts : list (nat * nat * Operator Elem)) r c op :
  all_operators (coo_rows 0 operators) = Some ts ->
  (r, c, op) ∈ ts <-> present operators r c op.
Proof.
  intros Hall. rewrite (elem_of_all_operators _ _ _ _ _ Hall), elem_of_coo_rows.
  rewrite Nat.sub_0_r. unfold present. split.
  - intros (_ & es & Hes & Hl & _). eauto.
  - intros (es & Hes & Hl). split; [lia |]. exists es. done.
Qed.

Lemma no_other_all_operators operators :
  Forall (Forall (fun e => e <> Other)) operators ->
  is_Some (all_operators (coo_rows 0 operators)).
Proof.
  intros Hno. apply all_operators_is_Some. intros r c e.
  rewrite elem_of_coo_rows. intros (_ & es & Hes & Hl & He).
  rewrite Forall_lookup in Hno. specialize (Hno _ _ Hes).
  rewrite Forall_lookup in Hno. specialize (Hno _ _ Hl).
  destruct e as [| op |]; [done | by exists op | done].
Qed.

(** With both [dom] and [ran] omitted, the constructor runs the loop on
    empty slots and its outcome is that of the loop, followed by the checks
    for empty columns and rows. *)
Lemma ProductSpaceOperator_init_inferred operators (ts : list (nat * nat * Operator Elem)) :
  rectangular operators = true ->
  all_operators (coo_rows 0 operators) = Some ts ->
  ProductSpaceOperator_init operators None None
  = ('(domains, ranges) ← init_loop ts (Some (replicate (columns operators) None))
                                     (Some (replicate (rows operators) None));
     dom ← (ds ← read_local "domains" domains;
            spaces ← all_filled ColEmpty 0 ds; ProductSpace_new spaces);
     ran ← (rs ← read_local "ranges" ranges;
            spaces ← all_filled RowEmpty 0 rs; ProductSpace_new spaces);
     Ok {| ops_shape := (rows operators, columns operators); ops := ts;
           pso_domain := dom; pso_range := ran;
           pso_linear := forallb (fun t => is_linear (snd t)) ts |}).
Proof.
  intros Hrect Hall. unfold ProductSpaceOperator_init, coo_matrix.
  rewrite Hrect. destruct operators as [| es operators]; simpl in *.
  - by injection Hall as <-.
  - rewrite Hall. done.
Qed.

Lemma length_le_rows operators : length operators <= rows operators.
Proof. destruct operators; simpl; lia. Qed.

Lemma init_loop_inferred operators (ts : list (nat * nat * Operator Elem)) :
  rectangular operators = true ->
  all_operators (coo_rows 0 operators) = Some ts ->
  match init_loop ts (Some (replicate (columns operators) None))
                     (Some (replicate (rows operators) None)) with
  | Ok (Some ds', Some rs') =>
      length ds' = columns operators /\ length rs' = rows operators /\
      (forall r c op, present operators r c op ->
         ds' !! c = Some (Some (domain op)) /\ rs' !! r = Some (Some (range op)))
  | Raise (ValueError (ColumnInconsistent c d1 d2)) =>
      d1 <> d2 /\
      (exists r op, present operators r c op /\ domain op = d1) /\
      (exists r op, present operators r c op /\ domain op = d2)
  | Raise (ValueError (RowInconsistent r g1 g2)) =>
      g1 <> g2 /\
      (exists c op, present operators r c op /\ range op = g1) /\
      (exists c op, present operators r c op /\ range op = g2)
  | _ => False
  end.
Proof.
  intros Hrect Hall.
  pose proof (init_loop_spec [] ts (replicate (columns operators) None)
                (replicate (rows operators) None)) as Hspec.
  rewrite !length_replicate in Hspec.
  lapply Hspec; [clear Hspec; intros Hspec |].
  2:{ intros r c op Hin. apply (present_coo _ _ _ _ _ Hall) in Hin as (es & Hes & Hl).
      split.
      - rewrite <- (rectangular_length _ _ _ Hrect Hes). by eapply lookup_lt_Some.
      - apply lookup_lt_Some in Hes. pose proof (length_le_rows operators). lia. }
  lapply Hspec; [clear Hspec; intros Hspec |].
  2:{ intros c d Hl. apply lookup_replicate in Hl as [? _]. done. }
  lapply Hspec; [clear Hspec; intros Hspec |].
  2:{ intros r g Hl. apply lookup_replicate in Hl as [? _]. done. }
  simpl in Hspec.
  destruct (init_loop ts _ _) as [[[ds' |] [rs' |]] | [m | m | | | |]]; try done.
  - destruct Hspec as (Hld & Hlr & _ & _ & Hts). split_and!; try done.
    intros r c op Hp. apply (Hts r c op). by apply (present_coo _ _ _ _ _ Hall).
  - destruct m as [| | c' d1 d2 | r' g1 g2 | | | | |]; try done.
    + destruct Hspec as (Hne & (r1 & op1 & Hin1 & He1) & (r2 & op2 & Hin2 & He2)).
      split; [done |].
      split; [exists r1, op1 | exists r2, op2]; (split; [| done]);
        by apply (present_coo _ _ _ _ _ Hall).
    + destruct Hspec as (Hne & (c1 & op1 & Hin1 & He1) & (c2 & op2 & Hin2 & He2)).
      split; [done |].
      split; [exists c1, op1 | exists c2, op2]; (split; [| done]);
        by apply (present_coo _ _ _ _ _ Hall).
Qed.

(** C9. Without explicit [dom] and [ran], an array of operators and zeros
    that holds two operators of one column with different domains, or two
    operators of one row with different ranges, makes the constructor raise
    a [ValueError] whose message names a column and two different spaces,
    both domains of operators of that column, or a row and two different
    spaces, both ranges of operators of that row. *)
Theorem ProductSpaceOperator_init_inconsistent operators :
  rectangular operators = true ->
  Forall (Forall (fun e => e <> Other)) operators ->
  (exists i1 i2 j op1 op2,
      present operators i1 j op1 /\ present operators i2 j op2 /\
      domain op1 <> domain op2) \/
  (exists i j1 j2 op1 op2,
      present operators i j1 op1 /\ present operators i j2 op2 /\
      range op1 <> range op2) ->
  (exists col d1 d2,
      ProductSpaceOperator_init operators None None
      = Raise (ValueError (ColumnInconsistent col d1 d2)) /\
      d1 <> d2 /\
      (exists i op, present operators i col op /\ domain op = d1) /\
      (exists i op, present operators i col op /\ domain op = d2)) \/
  (exists row r1 r2,
      ProductSpaceOperator_init operators None None
      = Raise (ValueError (RowInconsistent row r1 r2)) /\
      r1 <> r2 /\
      (exists j op, present operators row j op /\ range op = r1) /\
      (exists j op, present operators row j op /\ range op = r2)).
Proof.
  intros Hrect Hno Hconflict.
  destruct (no_other_all_operators _ Hno) as [ts Hall].
  rewrite (ProductSpaceOperator_init_inferred _ _ Hrect Hall).
  pose proof (init_loop_inferred _ _ Hrect Hall) as Hloop.
  destruct (init_loop ts _ _) as [[[ds' |] [rs' |]] | [m | m | | | |]]; try done.
  - exfalso. destruct Hloop as (_ & _ & Hts).
    destruct Hconflict as [(i1 & i2 & j & op1 & op2 & H1 & H2 & Hne)
                          | (i & j1 & j2 & op1 & op2 & H1 & H2 & Hne)].
    + apply Hts in H1 as [H1 _]. apply Hts in H2 as [H2 _]. congruence.
    + apply Hts in H1 as [_ H1]. apply Hts in H2 as [_ H2]. congruence.
  - destruct m as [| | c d1 d2 | r g1 g2 | | | | |]; try done.
    + left. exists c, d1, d2. done.
    + right. exists r, g1, g2. done.
Qed.

(** With an explicit [dom], the first pass of the loop reads the local
    [domains] that was never assigned: any array that holds an operator
    makes the constructor raise. *)
Lemma ProductSpaceOperator_init_explicit_dom operators (dparts : list Space)
    (ran : option Space) (t : nat * nat * Operator Elem) ts :
  rectangular operators = true ->
  all_operators (coo_rows 0 operators) = Some (t :: ts) ->
  ran = None \/ (exists rparts, ran = Some (ProductSpace rparts)) ->
  ProductSpaceOperator_init operators (Some (ProductSpace dparts)) ran
  = Raise (UnboundLocalError "domains").
Proof.
  intros Hrect Hall Hran. unfold ProductSpaceOperator_init, coo_matrix.
  rewrite Hrect. destruct t as [[r c] op].
  destruct Hran as [-> | [rparts ->]]; simpl; rewrite Hall; reflexivity.
Qed.

End ConstructionErrors.

Lemma ProductSpaceOperator_init_inconsistent_witness :
  (exists col d1 d2,
      ProductSpaceOperator_init [[Op (identity_on_Rn 3)]; [Op (identity_on_Rn 2)]] None None
      = Raise (ValueError (ColumnInconsistent col d1 d2)) /\
      d1 <> d2 /\
      (exists i op, present [[Op (identity_on_Rn 3)]; [Op (identity_on_Rn 2)]] i col op /\
                    domain op = d1) /\
      (exists i op, present [[Op (identity_on_Rn 3)]; [Op (identity_on_Rn 2)]] i col op /\
                    domain op = d2)) \/
  (exists row r1 r2,
      ProductSpaceOperator_init [[Op (identity_on_Rn 3)]; [Op (identity_on_Rn 2)]] None None
      = Raise (ValueError (RowInconsistent row r1 r2)) /\
      r1 <> r2 /\
      (exists j op, present [[Op (identity_on_Rn 3)]; [Op (identity_on_Rn 2)]] row j op /\
                    range op = r1) /\
      (exists j op, present [[Op (identity_on_Rn 3)]; [Op (identity_on_Rn 2)]] row j op /\
                    range op = r2)).
Proof.
  apply (ProductSpaceOperator_init_inconsistent
           [[Op (identity_on_Rn 3)]; [Op (identity_on_Rn 2)]]).
  - reflexivity.
  - repeat constructor; discriminate.
  - left. exists 0, 1, 0, (identity_on_Rn 3), (identity_on_Rn 2).
    split; [by eexists | split; [by eexists | simpl; congruence]].
Defined.

Example ProductSpaceOperator_init_column_conflict :
  ProductSpaceOperator_init [[Op (identity_on_Rn 3)]; [Op (identity_on_Rn 2)]] None None
  = Raise (ValueError (ColumnInconsistent 0 (Rn 3) (Rn 2))).
Proof. reflexivity. Qed.

(** C1. With explicit product spaces [dom] and [ran] and an array that
    holds an operator, the constructor does not return: the first pass of
    its loop reads the local [domains], which is assigned only when [dom] is
    omitted. *)
Theorem ProductSpaceOperator_init_explicit_spaces :
  ProductSpaceOperator_init [[Op (identity_on_Rn 3)]]
    (Some (ProductSpace [Rn 3])) (Some (ProductSpace [Rn 3]))
  = Raise (UnboundLocalError "domains").
Proof. reflexivity. Qed.

(** Only an array without operators gets through with explicit spaces. *)
Example ProductSpaceOperator_init_no_blocks :
  ProductSpaceOperator_init (Elem := list Q) [[Zero]]
    (Some (ProductSpace [Rn 3])) (Some (ProductSpace [Rn 3; Rn 2]))
  = Ok {| ops_shape := (1, 1); ops := [];
          pso_domain := ProductSpace [Rn 3]; pso_range := ProductSpace [Rn 3; Rn 2];
          pso_linear := true |}.
Proof. reflexivity. Qed.

(** ** Evaluation of a [ProductSpaceOperator] *)

Section Evaluation.
Context `{ComponentElement Elem}.
Implicit Types (op : Operator Elem) (ts : list (nat * nat * Operator Elem)).
Implicit Types (x out : list Elem).

Lemma row_blocks_cons_eq i j op ts x :
  row_blocks i ((i, j, op) :: ts) x = call op (x !!! j) :: row_blocks i ts x.
Proof. unfold row_blocks. rewrite filter_cons_True by done. done. Qed.

Lemma row_blocks_cons_ne i r j op ts x :
  r <> i -> row_blocks i ((r, j, op) :: ts) x = row_blocks i ts x.
Proof. intros Hne. unfold row_blocks. rewrite filter_cons_False by done. done. Qed.

Lemma apply_loop_spec ts x (her : list bool) out :
  length her = length out ->
  (forall i j op, (i, j, op) ∈ ts -> i < length out /\ j < length x) ->
  exists her' out',
    apply_loop ts x her out = Ok (her', out') /\
    length her' = length her /\ length out' = length out /\
    forall i oi b, out !! i = Some oi -> her !! i = Some b ->
      her' !! i = Some (b || bool_decide (row_blocks i ts x <> [])) /\
      out' !! i = Some (row_after b oi (row_blocks i ts x)).
Proof.
  revert her out. induction ts as [| [[r c] op] ts IH]; intros her out Hlen Hb.
  - exists her, out. split_and!; try done. intros i oi b Ho Hh.
    unfold row_blocks. simpl. rewrite orb_false_r. by destruct b.
  - destruct (Hb r c op) as [Hr Hc]; [by left |].
    destruct (lookup_lt_is_Some_2 out r Hr) as [o_r Ho_r].
    destruct (lookup_lt_is_Some_2 x c Hc) as [x_c Hx_c].
    destruct (lookup_lt_is_Some_2 her r ltac:(lia)) as [b_r Hb_r].
    set (v := call op x_c).
    set (out1 := <[r := if b_r then add o_r v else v]> out).
    assert (Hstep : apply_loop ((r, c, op) :: ts) x her out
                    = apply_loop ts x (<[r := true]> her) out1).
    { simpl. rewrite (getitem_lookup _ _ _ Hb_r). simpl.
      rewrite (getitem_lookup _ _ _ Hx_c), (getitem_lookup _ _ _ Ho_r).
      subst out1 v. by destruct b_r. }
    destruct (IH (<[r := true]> her) out1) as (her' & out' & Hrun & Hlh & Hlo & Hrows).
    { subst out1. by rewrite !length_insert. }
    { intros i j op' Hin. subst out1. rewrite length_insert. apply (Hb i j op'). by right. }
    exists her', out'. rewrite Hstep, Hrun.
    subst out1. rewrite !length_insert in *. split_and!; try done.
    intros i oi b Ho Hh. destruct (decide (r = i)) as [-> | Hne].
    + assert (b = b_r) as -> by congruence. assert (oi = o_r) as -> by congruence.
      destruct (Hrows i (if b_r then add o_r v else v) true) as [Hh' Ho'].
      { by apply list_lookup_insert_eq. }
      { apply list_lookup_insert_eq. lia. }
      rewrite row_blocks_cons_eq, (list_lookup_total_correct _ _ _ Hx_c).
      fold v. split.
      * rewrite Hh', (bool_decide_eq_true_2 (v :: _ <> [])) by done.
        by rewrite orb_true_r.
      * rewrite Ho'. by destruct b_r.
    + rewrite row_blocks_cons_ne by done. apply Hrows.
      * by rewrite list_lookup_insert_ne.
      * by rewrite list_lookup_insert_ne.
Qed.

Lemma zero_loop_spec (k : nat) (her : list bool) out :
  k + length her <= length out ->
  exists out',
    zero_loop k her out = Ok out' /\ length out' = length out /\
    forall i oi, out !! i = Some oi ->
      out' !! i = Some (if decide (k <= i /\ her !! (i - k) = Some false)
                        then set_zero oi else oi).
Proof.
  revert k out. induction her as [| b her IH]; intros k out Hlen.
  - exists out. split_and!; try done. intros i oi Ho.
    rewrite decide_False; [done |]. intros [_ Hl]. by rewrite lookup_nil in Hl.
  - simpl in Hlen.
    destruct (lookup_lt_is_Some_2 out k ltac:(lia)) as [o_k Ho_k].
    set (out1 := if b then out else <[k := set_zero o_k]> out).
    assert (Hstep : zero_loop k (b :: her) out = zero_loop (S k) her out1).
    { simpl. subst out1. destruct b; simpl; [done |].
      by rewrite (getitem_lookup _ _ _ Ho_k). }
    assert (Hl1 : length out1 = length out).
    { subst out1. destruct b; [done | by rewrite length_insert]. }
    destruct (IH (S k) out1) as (out' & Hrun & Hlo & Hrows); [lia |].
    exists out'. rewrite Hstep, Hrun. split_and!; [done | lia |].
    intros i oi Ho. destruct (decide (i = k)) as [-> | Hne].
    + rewrite Nat.sub_diag. simpl.
      assert (oi = o_k) as -> by congruence.
      rewrite (Hrows k (if b then o_k else set_zero o_k)).
      * rewrite decide_False by lia. destruct b.
        -- rewrite decide_False; [done |]. intros [_ ?]. done.
        -- rewrite decide_True; done.
      * subst out1. destruct b; [done |]. apply list_lookup_insert_eq. lia.
    + rewrite (Hrows i oi).
      * destruct (decide (k <= i)) as [Hle | Hnle].
        -- replace (i - k) with (S (i - S k)) by lia. simpl.
           apply f_equal.
           destruct (decide (S k <= i /\ her !! (i - S k) = Some false)) as [[? ?] | Hn1],
                    (decide (k <= i /\ her !! (i - S k) = Some false)) as [[? ?] | Hn2];
             try done; exfalso; [apply Hn2 | apply Hn1]; (split; [lia | done]).
        -- rewrite !decide_False by lia. done.
      * subst out1. destruct b; [done |]. by rewrite list_lookup_insert_ne.
Qed.

(** C3. [_apply], on an operator whose stored triples address rows of the
    range and components of [x], and for any element [out] of the range:
    it returns, and afterwards row [i] of [out] holds the result of the
    first stored block of that row with the results of the later blocks of
    the row added to it in the order of the triples, and the zero of the
    range component when the row has no block.  The incoming content of
    [out] does not occur in the result. *)
Theorem ProductSpaceOperator_apply_rows (P : ProductSpaceOperator Elem) x out
    (parts : list Space) :
  pso_range P = ProductSpace parts ->
  Forall2 (fun o s => space_of o = s) out parts ->
  Forall (fun t => t.1.1 < length parts /\ t.1.2 < length x) (ops P) ->
  exists out',
    ProductSpaceOperator_apply P x out = Ok out' /\
    length out' = length parts /\
    forall i ri, parts !! i = Some ri ->
      out' !! i = Some (match row_blocks i (ops P) x with
                        | [] => zero ri
                        | v :: vs => foldl add v vs
                        end).
Proof.
  intros Hran Hout Hb. pose proof (Forall2_length _ _ _ Hout) as Hlen.
  rewrite Forall_forall in Hb.
  unfold ProductSpaceOperator_apply. rewrite Hran. simpl.
  destruct (apply_loop_spec (ops P) x (replicate (length parts) false) out)
    as (her' & out1 & Hrun & Hlh & Hlo & Hrows).
  { by rewrite length_replicate. }
  { intros i j op Hin. rewrite Hlen. by apply (Hb (i, j, op)). }
  rewrite Hrun. simpl. rewrite length_replicate in Hlh.
  destruct (zero_loop_spec 0 her' out1) as (out' & Hrun' & Hlo' & Hrows'); [lia |].
  exists out'. split_and!; [done | lia |].
  intros i ri Hri.
  destruct (Forall2_lookup_r _ _ _ _ _ Hout Hri) as (oi & Hoi & Hsp).
  destruct (Hrows i oi false Hoi) as [Hh1 Ho1].
  { apply lookup_replicate. split; [done |]. apply lookup_lt_Some in Hri. lia. }
  rewrite (Hrows' i _ Ho1), Nat.sub_0_r, Hh1.
  destruct (row_blocks i (ops P) x) as [| v vs]; simpl.
  - unfold set_zero. by rewrite Hsp.
  - done.
Qed.

Lemma call_loop_spec ts x out :
  (forall i j op, (i, j, op) ∈ ts -> i < length out /\ j < length x) ->
  exists out',
    call_loop ts x out = Ok out' /\ length out' = length out /\
    forall i oi, out !! i = Some oi ->
      out' !! i = Some (foldl add oi (row_blocks i ts x)).
Proof.
  revert out. induction ts as [| [[r c] op] ts IH]; intros out Hb.
  - exists out. split_and!; try done.
  - destruct (Hb r c op) as [Hr Hc]; [by left |].
    destruct (lookup_lt_is_Some_2 out r Hr) as [o_r Ho_r].
    destruct (lookup_lt_is_Some_2 x c Hc) as [x_c Hx_c].
    destruct (IH (<[r := add o_r (call op x_c)]> out)) as (out' & Hrun & Hlo & Hrows).
    { intros i j op' Hin. rewrite length_insert. apply (Hb i j op'). by right. }
    exists out'. simpl.
    rewrite (getitem_lookup _ _ _ Ho_r). simpl. rewrite (getitem_lookup _ _ _ Hx_c). simpl.
    rewrite length_insert in Hlo. split_and!; try done.
    intros i oi Ho. destruct (decide (r = i)) as [-> | Hne].
    + assert (oi = o_r) as -> by congruence.
      rewrite row_blocks_cons_eq, (list_lookup_total_correct _ _ _ Hx_c). simpl.
      apply Hrows. by apply list_lookup_insert_eq.
    + rewrite row_blocks_cons_ne by done. apply Hrows. by rewrite list_lookup_insert_ne.
Qed.

Lemma filter_fmap {A B : Type} (f : A -> B) (P : B -> Prop) `{!forall b, Decision (P b)}
    (l : list A) :
  filter P (f <$> l) = f <$> filter (fun a => P (f a)) l.
Proof.
  induction l as [| a l IH]; [done |]. rewrite fmap_cons.
  destruct (decide (P (f a))) as [Hp | Hp].
  - rewrite !filter_cons_True by done. by rewrite fmap_cons, IH.
  - rewrite !filter_cons_False by done. done.
Qed.

Lemma filter_coo_row (i row col : nat) (entries : list (Entry Elem)) :
  filter (fun t => t.1.1 = i) (coo_row row col entries)
  = if decide (row = i) then coo_row row col entries else [].
Proof.
  revert col. induction entries as [| e entries IH]; intros col; simpl.
  - by destruct (decide (row = i)).
  - specialize (IH (S col)).
    destruct e as [| op |]; [done | |]; destruct (decide (row = i)) as [Heq | Hne].
    + rewrite filter_cons_True by done. by rewrite IH.
    + rewrite filter_cons_False by done. done.
    + rewrite filter_cons_True by done. by rewrite IH.
    + rewrite filter_cons_False by done. done.
Qed.

Lemma filter_coo_rows (i k : nat) (operators : list (list (Entry Elem))) :
  filter (fun t => t.1.1 = i) (coo_rows k operators)
  = if decide (k <= i) then coo_row i 0 (default [] (operators !! (i - k))) else [].
Proof.
  revert k. induction operators as [| es operators IH]; intros k; simpl.
  - by destruct (decide (k <= i)).
  - rewrite filter_app, filter_coo_row, IH.
    destruct (decide (k = i)) as [-> | Hne].
    + rewrite decide_False by lia. rewrite decide_True by lia.
      rewrite Nat.sub_diag. simpl. by rewrite app_nil_r.
    + destruct (decide (k <= i)) as [Hle | Hnle].
      * rewrite decide_True by lia.
        replace (i - k) with (S (i - S k)) by lia. done.
      * rewrite decide_False by lia. done.
Qed.

Lemma row_values_no_blocks (i col : nat) (entries : list (Entry Elem)) (y : list Elem) :
  Forall (fun e => e <> Other) entries ->
  coo_row i col entries = [] -> row_values entries y = [].
Proof.
  revert col y. induction entries as [| e entries IH]; intros col y Hno; [done |].
  apply Forall_cons in Hno as [He Hno].
  destruct e as [| op |]; simpl; [| done | done].
  intros Hnil. destruct y as [| xj y]; [done |]. apply (IH (S col) y Hno Hnil).
Qed.

Lemma row_blocks_values (i col : nat) (entries : list (Entry Elem)) ts x :
  (fun t => (t.1, Op t.2)) <$> ts = coo_row i col entries ->
  col + length entries <= length x ->
  (fun t => call t.2 (x !!! t.1.2)) <$> ts = row_values entries (drop col x).
Proof.
  revert col ts. induction entries as [| e entries IH]; intros col ts Hts Hlen.
  - simpl in Hts. apply fmap_nil_inv in Hts as ->. done.
  - simpl in Hlen. destruct (lookup_lt_is_Some_2 x col ltac:(lia)) as [x_c Hx_c].
    rewrite (drop_S _ _ _ Hx_c). unfold row_values. simpl.
    destruct e as [| op |]; simpl in Hts.
    + apply (IH (S col) ts Hts). lia.
    + apply fmap_cons_inv in Hts as ([[r c] op'] & ts' & [= <- <- <-] & Hts' & ->).
      simpl. rewrite (list_lookup_total_correct _ _ _ Hx_c). f_equal.
      apply (IH (S col) ts'); [done | lia].
    + apply fmap_cons_inv in Hts as ([[r c] op'] & ts' & [=] & _).
Qed.

End Evaluation.

Section CallOnArray.
Context `{ComponentElement Elem}.
Implicit Types (operators : list (list (Entry Elem))).

Lemma all_filled_length mk (k : nat) (slots : list (option Space)) (l : list Space) :
  all_filled mk k slots = Ok l -> length l = length slots.
Proof.
  revert k l. induction slots as [| [s |] slots IH]; intros k l; simpl.
  - by intros [= <-].
  - destruct (all_filled mk (S k) slots) as [l' |] eqn:E; simpl; [| done].
    intros [= <-]. simpl. f_equal. by eapply IH.
  - done.
Qed.

Lemma init_loop_Ok_assigned (t : nat * nat * Operator Elem) ts domains ranges res :
  init_loop (t :: ts) domains ranges = Ok res -> is_Some domains /\ is_Some ranges.
Proof.
  destruct t as [[r c] op].
  destruct domains as [ds |], ranges as [rs |]; simpl; try done.
  destruct (getitem ds c) as [[d0 |] |]; simpl; try done.
  destruct (negb (space_eqb d0 (domain op))); done.
Qed.

(** What a successful construction tells about its arguments. *)
Local Arguments init_loop : simpl never.

Lemma ProductSpaceOperator_init_Ok operators dom ran (P : ProductSpaceOperator Elem) :
  ProductSpaceOperator_init operators dom ran = Ok P ->
  rectangular operators = true /\
  all_operators (coo_rows 0 operators) = Some (ops P) /\
  exists dparts rparts,
    pso_domain P = ProductSpace dparts /\ pso_range P = ProductSpace rparts /\
    (ops P = [] \/
     (dom = None /\ ran = None /\
      length dparts = columns operators /\ length rparts = length operators)).
Proof.
  intros Hinit0. pose proof Hinit0 as Hinit.
  unfold ProductSpaceOperator_init, coo_matrix in Hinit.
  assert (Hvalid : (dom = None \/ exists dparts, dom = Some (ProductSpace dparts)) /\
                   (ran = None \/ exists rparts, ran = Some (ProductSpace rparts))).
  { destruct dom as [[n | dparts] |], ran as [[m | rparts] |]; simpl in Hinit;
      try discriminate; split; eauto. }
  destruct (rectangular operators) eqn:Hrect.
  2:{ destruct Hvalid as [[-> | [dparts ->]] [-> | [rparts ->]]]; discriminate. }
  assert (Hdata : exists ts, all_operators (coo_rows 0 operators) = Some ts) .
  { destruct (all_operators (coo_rows 0 operators)) as [ts |] eqn:Hall; [by eexists |].
    destruct Hvalid as [[-> | [dparts ->]] [-> | [rparts ->]]]; simpl in Hinit;
      rewrite Hall in Hinit; discriminate. }
  destruct Hdata as [ts Hall].
  destruct ts as [| t ts].
  - destruct Hvalid as [[-> | [dparts ->]] [-> | [rparts ->]]]; simpl in Hinit;
      rewrite Hall in Hinit; unfold init_loop in Hinit.
    1-3: exfalso; destruct operators as [| [| e es] operators]; simpl in Hinit;
         discriminate.
    simpl in Hinit. injection Hinit as <-. simpl. split_and!; try done.
    eexists _, _. split_and!; try reflexivity. by left.
  - destruct Hvalid as [[-> | [dparts ->]] [-> | [rparts ->]]]; simpl in Hinit;
      rewrite Hall in Hinit.
    2-4: exfalso; simpl in Hinit;
         match type of Hinit with
         | context [init_loop ?l ?d ?r] =>
             destruct (init_loop l d r) as [res |] eqn:E; [| discriminate];
             apply init_loop_Ok_assigned in E as [[? ?] [? ?]]; discriminate
         end.
    clear Hinit. rewrite (ProductSpaceOperator_init_inferred _ _ Hrect Hall) in Hinit0.
    pose proof (init_loop_inferred _ _ Hrect Hall) as Hloop.
    destruct (init_loop (t :: ts) _ _) as [[[ds' |] [rs' |]] | ex]; try done.
    destruct Hloop as (Hld & Hlr & _). simpl in Hinit0.
    destruct (all_filled ColEmpty 0 ds') as [[| d dl] |] eqn:Ed; simpl in Hinit0;
      try discriminate.
    destruct (all_filled RowEmpty 0 rs') as [[| r rl] |] eqn:Er; simpl in Hinit0;
      try discriminate.
    injection Hinit0 as <-. simpl. split_and!; try done.
    exists (d :: dl), (r :: rl). split_and!; try done. right.
    apply all_filled_length in Ed, Er. split_and!; try done; [congruence |].
    rewrite Er, Hlr. destruct operators; [done | reflexivity].
Qed.

Lemma all_operators_no_other operators (ts : list (nat * nat * Operator Elem)) :
  all_operators (coo_rows 0 operators) = Some ts ->
  Forall (Forall (fun e => e <> Other)) operators.
Proof.
  intros Hall. apply Forall_lookup. intros i es Hes.
  apply Forall_lookup. intros j e He ->.
  assert (Hin : (i, j, Other) ∈ coo_rows 0 operators).
  { apply elem_of_coo_rows. split; [lia |]. exists es. by rewrite Nat.sub_0_r. }
  rewrite (all_operators_Some _ _ Hall) in Hin.
  apply list_elem_of_fmap in Hin as (t & [=] & _).
Qed.

(** C7. On an operator built from the array [operators], and for an
    element [x] of its domain, [_call] returns an element of the range whose
    component [i] is the zero of the range component with, added to it from
    left to right, the results [op(x[j])] over the columns [j] of row [i]
    that hold an operator; for a row without operators it is that zero. *)
Theorem ProductSpaceOperator_call_rows operators dom ran
    (P : ProductSpaceOperator Elem) (x : list Elem) :
  ProductSpaceOperator_init operators dom ran = Ok P ->
  length x = length (space_parts (pso_domain P)) ->
  exists out,
    ProductSpaceOperator_call P x = Ok out /\
    length out = length (space_parts (pso_range P)) /\
    forall i ri, space_parts (pso_range P) !! i = Some ri ->
      out !! i = Some (foldl add (zero ri) (row_values (default [] (operators !! i)) x)) /\
      (Forall (fun e => e = Zero) (default [] (operators !! i)) ->
       out !! i = Some (zero ri)).
Proof.
  intros Hinit Hx.
  destruct (ProductSpaceOperator_init_Ok _ _ _ _ Hinit)
    as (Hrect & Hall & dparts & rparts & Hdom & Hran & Hcases).
  pose proof (all_operators_no_other _ _ Hall) as Hno.
  rewrite Hdom in Hx. rewrite Hran. simpl in *.
  assert (Hfilter : forall i,
            (fun t => (t.1, Op t.2)) <$> filter (fun t => t.1.1 = i) (ops P)
            = coo_row i 0 (default [] (operators !! i))).
  { intros i.
    pose proof (filter_fmap (fun t : nat * nat * Operator Elem => (t.1, Op t.2))
                  (fun t => t.1.1 = i) (ops P)) as Hf.
    rewrite <- (all_operators_Some _ _ Hall), filter_coo_rows, decide_True in Hf by lia.
    rewrite Nat.sub_0_r in Hf. by rewrite Hf. }
  assert (Hnoi : forall i, Forall (fun e => e <> Other) (default [] (operators !! i))).
  { intros i. destruct (operators !! i) as [es |] eqn:Hes; simpl; [| done].
    rewrite Forall_lookup in Hno. by apply (Hno i). }
  assert (Hzero : forall i y, Forall (fun e => e = Zero) (default [] (operators !! i)) ->
                     row_values (default [] (operators !! i)) y = []).
  { intros i y Hz. apply (row_values_no_blocks i 0); [done |].
    clear -Hz. generalize 0. induction Hz as [| e es -> _ IH]; intros k; [done |].
    simpl. apply IH. }
  unfold ProductSpaceOperator_call. rewrite Hran. simpl.
  destruct Hcases as [Hnil | (-> & -> & Hld & Hlr)].
  - rewrite Hnil. simpl. exists (zero <$> rparts). split_and!; [done | by rewrite length_fmap |].
    intros i ri Hri. rewrite list_lookup_fmap, Hri. simpl.
    assert (Hrv : forall y, row_values (default [] (operators !! i)) y = []).
    { intros y. apply (row_values_no_blocks i 0); [done |].
      rewrite <- Hfilter, Hnil. done. }
    rewrite Hrv. done.
  - destruct (call_loop_spec (ops P) x (zero <$> rparts)) as (out & Hrun & Hlo & Hrows).
    { intros i j op Hin. apply (present_coo _ _ _ _ _ Hall) in Hin as (es & Hes & Hl).
      rewrite length_fmap, Hlr, Hx, Hld. split.
      - by eapply lookup_lt_Some.
      - rewrite <- (rectangular_length _ _ _ Hrect Hes). by eapply lookup_lt_Some. }
    exists out. rewrite length_fmap in Hlo. split_and!; try done.
    intros i ri Hri.
    assert (Hval : out !! i
                   = Some (foldl add (zero ri) (row_values (default [] (operators !! i)) x))).
    { rewrite (Hrows i (zero ri)) by (by rewrite list_lookup_fmap, Hri).
      do 2 f_equal. unfold row_blocks.
      rewrite (row_blocks_values i 0 (default [] (operators !! i))); [done | done |].
      destruct (operators !! i) as [es |] eqn:Hes; simpl; [| lia].
      rewrite (rectangular_length _ _ _ Hrect Hes). lia. }
    split; [done |]. intros Hz. by rewrite Hval, Hzero.
Qed.

End CallOnArray.

(** ** The solvers *)

Section Solvers.
Context `{Scalar K, LinearSpaceElement K E, LinearSolver E}.
Implicit Types (g : Gradient E) (line_search : E -> E -> K -> K) (tol : K).

Lemma for_range_Return {S : Type} (n : nat) (body : S -> result (Outcome S)) (s s' : S) :
  body s = Ok (Return s') -> for_range (Datatypes.S n) body s = Ok s'.
Proof. intros Hb. simpl. by rewrite Hb. Qed.

Lemma for_range_Continue {S : Type} (n : nat) (body : S -> result (Outcome S)) (s s' : S) :
  body s = Ok (Continue s') -> for_range (Datatypes.S n) body s = for_range n body s'.
Proof. intros Hb. simpl. by rewrite Hb. Qed.

(** The state a loop returns is reached by passes that go on, followed by
    at most one pass that returns. *)
Lemma for_range_iterates {S : Type} (n : nat) (body : S -> result (Outcome S)) (s s' : S) :
  for_range n body s = Ok s' ->
  exists s1, iterates body s s1 /\ (s' = s1 \/ body s1 = Ok (Return s')).
Proof.
  assert (Hgen : forall s0 s, iterates body s0 s -> for_range n body s = Ok s' ->
            exists s1, iterates body s0 s1 /\ (s' = s1 \/ body s1 = Ok (Return s'))).
  { induction n as [| n IH]; intros s0 s1 Hit; simpl.
    - intros [= <-]. eauto.
    - destruct (body s1) as [[s2 | s2] |] eqn:Hb; simpl; [| | done].
      + intros [= <-]. eauto.
      + intros Hrun. apply (IH s0 s2); [| done]. by eapply iterates_step. }
  apply Hgen. constructor.
Qed.

(** *** The test on the directional derivative *)







(** *** [broydens_method] with an unknown [impl] *)

Lemma broyden_body_other_impl g line_search (impl : string) tol (callback : bool)
    (st : BroydenState E) :
  impl <> "first" -> impl <> "second" ->
  klt (kabs (broyden_dir_deriv st)) tol = false ->
  let search_dir := broyden_search_dir st in
  let step := line_search (broyden_x st) search_dir (broyden_dir_deriv st) in
  let x := plus (broyden_x st) (scal step search_dir) in
  broyden_body g line_search impl tol callback st
  = Ok (Continue {| broyden_x := x; broyden_grad_x := grad g x;
                    broyden_hess := broyden_hess st;
                    broyden_calls := invoke callback (broyden_calls st) x |}).
Proof.
  intros Hf Hs Hdd. unfold broyden_body.
  unfold broyden_dir_deriv, broyden_search_dir in Hdd. rewrite Hdd.
  apply String.eqb_neq in Hf, Hs. rewrite Hf, Hs. done.
Qed.

Lemma broyden_body_other_impl_hess g line_search (impl : string) tol (callback : bool)
    (st : BroydenState E) (o : Outcome (BroydenState E)) :
  impl <> "first" -> impl <> "second" ->
  broyden_body g line_search impl tol callback st = Ok o ->
  broyden_hess (match o with Return s => s | Continue s => s end) = broyden_hess st.
Proof.
  intros Hf Hs. unfold broyden_body.
  apply String.eqb_neq in Hf, Hs. rewrite Hf, Hs.
  destruct (klt _ tol); intros [= <-]; done.
Qed.

(** C6. With [impl] neither ['first'] nor ['second'], a pass of
    [broydens_method] that gets past the test on the directional derivative
    goes on with [x] moved by the step along the search direction, the
    gradient taken at the new [x], [hess] unchanged and, when a callback
    was given, one more call of it, on the new [x], after the calls made
    before; [hess] is the identity in every state the loop reaches and in
    the state in which the solver returns. *)
Theorem broydens_method_other_impl (f : Gradient E) (line_search : LineSearch K E)
    (impl : string) tol (callback : bool) :
  impl <> "first" -> impl <> "second" ->
  (forall st : BroydenState E,
      klt (kabs (broyden_dir_deriv st)) tol = false ->
      let search_dir := broyden_search_dir st in
      let step := as_callable line_search (broyden_x st) search_dir (broyden_dir_deriv st) in
      let x := plus (broyden_x st) (scal step search_dir) in
      broyden_body f (as_callable line_search) impl tol callback st
      = Ok (Continue {| broyden_x := x; broyden_grad_x := grad f x;
                        broyden_hess := broyden_hess st;
                        broyden_calls := if callback then broyden_calls st ++ [x]
                                         else broyden_calls st |})) /\
  (forall st st' : BroydenState E,
      iterates (broyden_body f (as_callable line_search) impl tol callback) st st' ->
      broyden_hess st' = broyden_hess st) /\
  (forall (x : E) (maxiter : Z) (st : BroydenState E),
      broydens_method f x line_search impl maxiter tol callback = Ok st ->
      broyden_hess st = IdentityOperator).
Proof.
  intros Hf Hs.
  assert (Hiter : forall st st' : BroydenState E,
             iterates (broyden_body f (as_callable line_search) impl tol callback) st st' ->
             broyden_hess st' = broyden_hess st).
  { intros st st' Hit. induction Hit as [st | st st' st'' _ IH Hb]; [done |].
    rewrite <- IH.
    apply (broyden_body_other_impl_hess _ _ _ _ _ _ (Continue st'') Hf Hs Hb). }
  split_and!; [| done |].
  - intros st. by apply broyden_body_other_impl.
  - intros x maxiter st. unfold broydens_method.
    destruct (negb (grad_domain_contains f x)); [done |].
    intros Hrun. apply for_range_iterates in Hrun as (s1 & Hit & [-> | Hret]).
    + by rewrite (Hiter _ _ Hit).
    + rewrite (broyden_body_other_impl_hess _ _ _ _ _ _ (Return st) Hf Hs Hret).
      by rewrite (Hiter _ _ Hit).
Qed.

(** *** Returns after the update of [x] *)

Lemma bfgs_body_underflow g line_search tol (maxcor : option Z)
    (hessinv_estimate : option (E -> E)) (callback : bool) (st : BfgsState E) (d : E) :
  bfgs_search_dir hessinv_estimate st = Ok d ->
  klt (kabs (inner d (bfgs_grad_x st))) tol = false ->
  let step := line_search (bfgs_x st) d (inner d (bfgs_grad_x st)) in
  let x := plus (bfgs_x st) (scal step d) in
  let pair := bfgs_pair g line_search st d in
  klt (kabs (inner pair.2 pair.1)) tol = true ->
  bfgs_body g line_search tol maxcor hessinv_estimate callback st
  = Ok (Return {| bfgs_x := x; bfgs_grad_x := grad g x;
                  bfgs_ys := bfgs_ys st; bfgs_ss := bfgs_ss st;
                  bfgs_calls := bfgs_calls st |}).
Proof.
  intros Hd Hdd. simpl. unfold bfgs_body, bfgs_pair. rewrite Hd. simpl.
  rewrite Hdd. by intros ->.
Qed.

Lemma broyden_body_underflow g line_search (impl : string) tol (callback : bool)
    (st : BroydenState E) :
  klt (kabs (broyden_dir_deriv st)) tol = false ->
  let search_dir := broyden_search_dir st in
  let step := line_search (broyden_x st) search_dir (broyden_dir_deriv st) in
  let delta_x := scal step search_dir in
  let x := plus (broyden_x st) delta_x in
  let delta_grad := minus (grad g x) (broyden_grad_x st) in
  let v := hess_call (broyden_hess st) delta_grad in
  (impl = "first" /\ klt (kabs (inner delta_x v)) tol = true) \/
  (impl = "second" /\ klt (kabs (inner delta_grad delta_grad)) tol = true) ->
  broyden_body g line_search impl tol callback st
  = Ok (Return {| broyden_x := x; broyden_grad_x := grad g x;
                  broyden_hess := broyden_hess st;
                  broyden_calls := broyden_calls st |}).
Proof.
  intros Hdd. simpl. unfold broyden_body.
  unfold broyden_dir_deriv, broyden_search_dir in *. rewrite Hdd.
  intros [[-> Hdiv] | [-> Hdiv]]; simpl; by rewrite Hdiv.
Qed.

(** C10. When the guard on the denominator trips in a pass of
    [bfgs_method] ([|<grad_diff, x_update>| < tol]) or of
    [broydens_method] ([|divisor| < tol], for either [impl]), the solver
    returns with [x] already moved by the step of that pass, and the
    recorded callback invocations are those of the earlier passes: the
    callback is not invoked on the moved [x]. *)
Theorem underflow_return_after_update g line_search tol (callback : bool) :
  (forall (maxcor : option Z) (hessinv_estimate : option (E -> E))
          (st : BfgsState E) (d : E) (n : nat),
      bfgs_search_dir hessinv_estimate st = Ok d ->
      klt (kabs (inner d (bfgs_grad_x st))) tol = false ->
      let step := line_search (bfgs_x st) d (inner d (bfgs_grad_x st)) in
      let x := plus (bfgs_x st) (scal step d) in
      let pair := bfgs_pair g line_search st d in
      klt (kabs (inner pair.2 pair.1)) tol = true ->
      exists st',
        for_range (S n) (bfgs_body g line_search tol maxcor hessinv_estimate callback) st
        = Ok st' /\
        bfgs_x st' = x /\ bfgs_calls st' = bfgs_calls st) /\
  (forall (impl : string) (st : BroydenState E) (n : nat),
      klt (kabs (broyden_dir_deriv st)) tol = false ->
      let search_dir := broyden_search_dir st in
      let step := line_search (broyden_x st) search_dir (broyden_dir_deriv st) in
      let delta_x := scal step search_dir in
      let x := plus (broyden_x st) delta_x in
      let delta_grad := minus (grad g x) (broyden_grad_x st) in
      let v := hess_call (broyden_hess st) delta_grad in
      (impl = "first" /\ klt (kabs (inner delta_x v)) tol = true) \/
      (impl = "second" /\ klt (kabs (inner delta_grad delta_grad)) tol = true) ->
      exists st',
        for_range (S n) (broyden_body g line_search impl tol callback) st = Ok st' /\
        broyden_x st' = x /\ broyden_calls st' = broyden_calls st).
Proof.
  split.
  - intros maxcor hessinv_estimate st d n Hd Hdd step x pair Hguard.
    eexists. split.
    + apply for_range_Return. by apply (bfgs_body_underflow _ _ _ _ _ _ _ d).
    + done.
  - intros impl st n Hdd search_dir step delta_x x delta_grad v Hguard.
    eexists. split.
    + apply for_range_Return. by apply broyden_body_underflow.
    + done.
Qed.

End Solvers.

(** ** The correction pairs of [bfgs_method] *)

Section History.
Context `{Scalar K, LinearSpaceElement K E}.
Implicit Types (g : Gradient E) (line_search : E -> E -> K -> K) (tol : K).
Implicit Types (st : BfgsState E) (log : list (E * E)).

Lemma slice_start_le (start : Z) (n : nat) : slice_start start n <= n.
Proof.
  unfold slice_start. cbv zeta.
  destruct (start <? 0)%Z eqn:Hneg; [apply Z.ltb_lt in Hneg |]; lia.
Qed.

Lemma slice_from_last {A : Type} (m : Z) (l : list A) :
  (0 < m)%Z -> slice_from (- m) l = lastn (Z.to_nat m) l.
Proof.
  intros Hm. unfold slice_from, lastn, slice_start. cbv zeta. f_equal.
  destruct (- m <? 0)%Z eqn:Hneg; [lia |]. apply Z.ltb_ge in Hneg. lia.
Qed.

Lemma lastn_snoc {A : Type} (m : nat) (l : list A) (a : A) :
  0 < m -> lastn m (lastn m l ++ [a]) = lastn m (l ++ [a]).
Proof.
  intros Hm. unfold lastn. rewrite !length_app, length_drop. simpl.
  destruct (decide (length l <= m)) as [Hle | Hgt].
  - replace (length l - m) with 0 by lia. rewrite drop_0. f_equal. lia.
  - rewrite (drop_app_le _ _ (length l - (length l - m) + 1 - m));
      [| rewrite length_drop; lia].
    rewrite (drop_app_le l); [| lia]. rewrite drop_drop. do 2 f_equal. lia.
Qed.

Lemma length_lastn {A : Type} (m : nat) (l : list A) : length (lastn m l) <= m.
Proof. unfold lastn. rewrite length_drop. lia. Qed.

(** What a pass that goes on leaves in the state. *)
Lemma bfgs_body_Continue g line_search tol (maxcor : option Z)
    (hessinv_estimate : option (E -> E)) (callback : bool) st st' :
  bfgs_body g line_search tol maxcor hessinv_estimate callback st = Ok (Continue st') ->
  exists d,
    bfgs_search_dir hessinv_estimate st = Ok d /\
    let pair := bfgs_pair g line_search st d in
    bfgs_x st' = plus (bfgs_x st) pair.1 /\
    bfgs_grad_x st' = grad g (bfgs_x st') /\
    pair.2 = lincomb (kopp kone) (bfgs_grad_x st) kone (bfgs_grad_x st') /\
    bfgs_ys st' = match maxcor with
                  | Some m => slice_from (- m) (bfgs_ys st ++ [pair.1])
                  | None => bfgs_ys st ++ [pair.1]
                  end /\
    bfgs_ss st' = match maxcor with
                  | Some m => slice_from (- m) (bfgs_ss st ++ [pair.2])
                  | None => bfgs_ss st ++ [pair.2]
                  end /\
    bfgs_calls st' = invoke callback (bfgs_calls st) (bfgs_x st').
Proof.
  unfold bfgs_body, bfgs_pair.
  destruct (bfgs_search_dir hessinv_estimate st) as [d |]; simpl; [| done].
  destruct (klt _ tol); [done |]. destruct (klt _ tol); [done |].
  intros [= <-]. exists d. simpl. done.
Qed.

Lemma bfgs_run_history g line_search tol (maxcor : option Z)
    (hessinv_estimate : option (E -> E)) (callback : bool) st0 log st :
  bfgs_ys st0 = [] -> bfgs_ss st0 = [] ->
  bfgs_run g line_search tol maxcor hessinv_estimate callback st0 log st ->
  exists k, k <= length log /\
            bfgs_ys st = drop k log.*1 /\ bfgs_ss st = drop k log.*2.
Proof.
  intros Hys Hss Hrun. induction Hrun as [st | st st' st'' log d _ IH Hd Hbody].
  - exists 0. by rewrite Hys, Hss.
  - destruct (IH Hys Hss) as (k & Hk & Hy & Hs).
    apply bfgs_body_Continue in Hbody as (d' & Hd' & Hfields).
    assert (d' = d) as -> by congruence.
    destruct Hfields as (_ & _ & _ & Hy' & Hs' & _).
    set (pair := bfgs_pair g line_search st' d) in *.
    rewrite !fmap_app, length_app. simpl.
    assert (Hya : bfgs_ys st' ++ [pair.1] = drop k (log.*1 ++ [pair.1])).
    { rewrite drop_app_le by (by rewrite length_fmap). by rewrite Hy. }
    assert (Hsa : bfgs_ss st' ++ [pair.2] = drop k (log.*2 ++ [pair.2])).
    { rewrite drop_app_le by (by rewrite length_fmap). by rewrite Hs. }
    destruct maxcor as [m |].
    + unfold slice_from in Hy', Hs'.
      assert (Hlen : length (bfgs_ss st' ++ [pair.2]) = length (bfgs_ys st' ++ [pair.1])).
      { rewrite !length_app, Hy, Hs, !length_drop, !length_fmap. done. }
      rewrite Hlen in Hs'.
      pose proof (slice_start_le (- m) (length (bfgs_ys st' ++ [pair.1]))) as Hle.
      set (k' := slice_start (- m) (length (bfgs_ys st' ++ [pair.1]))) in *.
      exists (k + k'). split_and!.
      * rewrite length_app, Hy, length_drop, length_fmap in Hle. simpl in Hle. lia.
      * by rewrite Hy', Hya, drop_drop.
      * by rewrite Hs', Hsa, drop_drop.
    + exists k. split_and!; [lia | by rewrite Hy', Hya | by rewrite Hs', Hsa].
Qed.

Lemma bfgs_run_lastn g line_search tol (m : Z)
    (hessinv_estimate : option (E -> E)) (callback : bool) st0 log st :
  (0 < m)%Z ->
  bfgs_ys st0 = [] -> bfgs_ss st0 = [] ->
  bfgs_run g line_search tol (Some m) hessinv_estimate callback st0 log st ->
  bfgs_ys st = lastn (Z.to_nat m) log.*1 /\ bfgs_ss st = lastn (Z.to_nat m) log.*2.
Proof.
  intros Hm Hys Hss Hrun.
  induction Hrun as [st | st st' st'' log d _ IH Hd Hbody].
  - by rewrite Hys, Hss.
  - destruct (IH Hys Hss) as (Hy & Hs).
    apply bfgs_body_Continue in Hbody as (d' & Hd' & Hfields).
    assert (d' = d) as -> by congruence.
    destruct Hfields as (_ & _ & _ & Hy' & Hs' & _).
    rewrite !fmap_app. simpl. rewrite Hy', Hs', !slice_from_last, Hy, Hs by done.
    rewrite !lastn_snoc by lia. done.
Qed.

Lemma bfgs_run_unbounded g line_search tol
    (hessinv_estimate : option (E -> E)) (callback : bool) st0 log st :
  bfgs_ys st0 = [] -> bfgs_ss st0 = [] ->
  bfgs_run g line_search tol None hessinv_estimate callback st0 log st ->
  bfgs_ys st = log.*1 /\ bfgs_ss st = log.*2.
Proof.
  intros Hys Hss Hrun.
  induction Hrun as [st | st st' st'' log d _ IH Hd Hbody].
  - by rewrite Hys, Hss.
  - destruct (IH Hys Hss) as (Hy & Hs).
    apply bfgs_body_Continue in Hbody as (d' & Hd' & Hfields).
    assert (d' = d) as -> by congruence.
    destruct Hfields as (_ & _ & _ & Hy' & Hs' & _).
    rewrite !fmap_app. simpl. by rewrite Hy', Hs', Hy, Hs.
Qed.

(** Passes that go on are a run with some log, one pair per pass. *)
Lemma iterates_bfgs_run g line_search tol (maxcor : option Z)
    (hessinv_estimate : option (E -> E)) (callback : bool) st0 st :
  iterates (bfgs_body g line_search tol maxcor hessinv_estimate callback) st0 st ->
  exists log, bfgs_run g line_search tol maxcor hessinv_estimate callback st0 log st.
Proof.
  intros Hit. induction Hit as [st | st st' st'' _ IH Hbody].
  - exists []. constructor.
  - destruct IH as [log Hrun].
    destruct (bfgs_body_Continue _ _ _ _ _ _ _ _ Hbody) as (d & Hd & _).
    eexists. by eapply bfgs_run_step.
Qed.

Lemma bfgs_body_Return_history g line_search tol (maxcor : option Z)
    (hessinv_estimate : option (E -> E)) (callback : bool) st st' :
  bfgs_body g line_search tol maxcor hessinv_estimate callback st = Ok (Return st') ->
  bfgs_ys st' = bfgs_ys st /\ bfgs_ss st' = bfgs_ss st.
Proof.
  unfold bfgs_body.
  destruct (bfgs_search_dir hessinv_estimate st) as [d |]; simpl; [| done].
  destruct (klt _ tol); [by intros [= <-] |].
  destruct (klt _ tol); [by intros [= <-] | done].
Qed.

(** C5. From a state with an empty history, after passes of the loop of
    [bfgs_method] that appended the pairs [log] (oldest first): with
    [maxcor] a positive integer the history is the last [maxcor] pairs of
    [log] (all of [log] while it is shorter), hence holds at most [maxcor]
    pairs, also in the state in which the solver returns; with [maxcor]
    unset the history is all of [log], one pair per pass. *)
Theorem bfgs_history g line_search tol
    (hessinv_estimate : option (E -> E)) (callback : bool) st0 :
  bfgs_ys st0 = [] -> bfgs_ss st0 = [] ->
  (forall (m : Z) log st, (0 < m)%Z ->
      bfgs_run g line_search tol (Some m) hessinv_estimate callback st0 log st ->
      bfgs_ys st = lastn (Z.to_nat m) log.*1 /\
      bfgs_ss st = lastn (Z.to_nat m) log.*2 /\
      length (bfgs_ys st) <= Z.to_nat m /\ length (bfgs_ss st) <= Z.to_nat m) /\
  (forall (m : Z) (n : nat) st, (0 < m)%Z ->
      for_range n (bfgs_body g line_search tol (Some m) hessinv_estimate callback) st0
      = Ok st ->
      length (bfgs_ys st) <= Z.to_nat m /\ length (bfgs_ss st) <= Z.to_nat m) /\
  (forall log st,
      bfgs_run g line_search tol None hessinv_estimate callback st0 log st ->
      bfgs_ys st = log.*1 /\ bfgs_ss st = log.*2 /\
      length (bfgs_ys st) = length log /\ length (bfgs_ss st) = length log).
Proof.
  intros Hys Hss. split_and!.
  - intros m log st Hm Hrun.
    destruct (bfgs_run_lastn _ _ _ _ _ _ _ _ _ Hm Hys Hss Hrun) as [-> ->].
    split_and!; try done; apply length_lastn.
  - intros m n st Hm Hfor.
    apply for_range_iterates in Hfor as (s1 & Hit & Hlast).
    apply iterates_bfgs_run in Hit as [log Hrun].
    destruct (bfgs_run_lastn _ _ _ _ _ _ _ _ _ Hm Hys Hss Hrun) as [Hy Hs].
    assert (Hsame : bfgs_ys st = bfgs_ys s1 /\ bfgs_ss st = bfgs_ss s1).
    { destruct Hlast as [-> | Hret]; [done |]. by eapply bfgs_body_Return_history. }
    destruct Hsame as [-> ->]. rewrite Hy, Hs. split; apply length_lastn.
  - intros log st Hrun.
    destruct (bfgs_run_unbounded _ _ _ _ _ _ _ _ Hys Hss Hrun) as [-> ->].
    by rewrite !length_fmap.
Qed.

End History.

(** ** The search direction of [bfgs_method] *)

Section TwoLoop.
Context `{LincombLaws K E}.
Implicit Types (s y : list E) (r : E) (alphas rhos : list K).

Lemma setitem_Ok {A : Type} (l : list A) (i : nat) (v : A) :
  i < length l -> setitem l i v = Ok (<[i := v]> l).
Proof. intros Hi. unfold setitem. by rewrite decide_True. Qed.

Lemma drop_insert_eq {A : Type} (l : list A) (i : nat) (v : A) :
  i < length l -> drop i (<[i := v]> l) = v :: drop (S i) l.
Proof.
  intros Hi. rewrite (drop_S _ v) by (by apply list_lookup_insert_eq).
  by rewrite drop_insert_lt by lia.
Qed.

Lemma two_loop_backward_snoc (pairs : list (E * E)) (p : E * E) r :
  two_loop_backward (reverse (pairs ++ [p])) r
  = let alpha := kmul (rho_of p) (inner p.1 r) in
    let res := two_loop_backward (reverse pairs) (minus r (scal alpha p.2)) in
    (res.1, alpha :: res.2).
Proof.
  rewrite reverse_snoc. simpl.
  by destruct (two_loop_backward (reverse pairs) _).
Qed.

Lemma length_two_loop_backward (pairs : list (E * E)) r :
  length (two_loop_backward pairs r).2 = length pairs.
Proof.
  revert r. induction pairs as [| p pairs IH]; intros r; simpl; [done |].
  specialize (IH (minus r (scal (kmul (rho_of p) (inner p.1 r)) p.2))).
  destruct (two_loop_backward pairs _). simpl in *. by rewrite IH.
Qed.

(** The first loop of [_bfgs_multiply], over the indices below [k]: it is
    the backward pass over the first [k] pairs, and it fills the first [k]
    entries of [alphas] and [rhos]. *)
Lemma bfgs_backward_spec s y (k : nat) r alphas rhos :
  k <= length s -> k <= length y -> k <= length alphas -> k <= length rhos ->
  let pairs := take k (zip s y) in
  bfgs_backward s y (reverse (seq 0 k)) r alphas rhos
  = Ok ((two_loop_backward (reverse pairs) r).1,
        reverse (two_loop_backward (reverse pairs) r).2 ++ drop k alphas,
        (rho_of <$> pairs) ++ drop k rhos).
Proof.
  revert r alphas rhos. induction k as [| k IH]; intros r alphas rhos Hs Hy Ha Hr.
  - simpl. by rewrite !drop_0.
  - destruct (lookup_lt_is_Some_2 s k ltac:(lia)) as [sk Hsk].
    destruct (lookup_lt_is_Some_2 y k ltac:(lia)) as [yk Hyk].
    assert (Hzip : zip s y !! k = Some (sk, yk)).
    { apply lookup_zip_with_Some. by exists sk, yk. }
    cbv zeta. rewrite (take_S_r _ _ _ Hzip), two_loop_backward_snoc. cbv zeta.
    rewrite seq_S, reverse_snoc. simpl.
    rewrite (getitem_lookup _ _ _ Hyk). simpl. rewrite (getitem_lookup _ _ _ Hsk). simpl.
    rewrite setitem_Ok by lia. simpl.
    rewrite (getitem_lookup _ k (kdiv kone (inner yk sk)))
      by (apply list_lookup_insert_eq; lia).
    simpl. rewrite setitem_Ok by lia. simpl.
    rewrite (getitem_lookup _ k (kmul (kdiv kone (inner yk sk)) (inner sk r)))
      by (apply list_lookup_insert_eq; lia).
    simpl. rewrite lincomb_minus.
    rewrite IH by (rewrite ?length_insert; lia). cbv zeta.
    rewrite !drop_insert_eq by lia. unfold rho_of at 2 4. simpl.
    rewrite reverse_cons, fmap_app, <- !app_assoc. done.
Qed.

(** The second loop of [_bfgs_multiply], over the indices from [a] on. *)
Lemma bfgs_forward_spec s y (a k : nat) r alphas rhos :
  (forall i, a <= i < a + k ->
     exists si yi ai, s !! i = Some si /\ y !! i = Some yi /\
                      alphas !! i = Some ai /\ rhos !! i = Some (rho_of (si, yi))) ->
  bfgs_forward s y (seq a k) r alphas rhos
  = Ok (two_loop_forward (take k (drop a (zip (zip s y) alphas))) r).
Proof.
  revert a r. induction k as [| k IH]; intros a r Hidx; [done |].
  destruct (Hidx a ltac:(lia)) as (sa & ya & aa & Hsa & Hya & Haa & Hra).
  assert (Hzip : zip (zip s y) alphas !! a = Some (sa, ya, aa)).
  { apply lookup_zip_with_Some. exists (sa, ya), aa. split_and!; try done.
    apply lookup_zip_with_Some. by exists sa, ya. }
  rewrite (drop_S _ _ _ Hzip). simpl.
  rewrite (getitem_lookup _ _ _ Hra). simpl. rewrite (getitem_lookup _ _ _ Hya). simpl.
  rewrite (getitem_lookup _ _ _ Haa). simpl. rewrite (getitem_lookup _ _ _ Hsa). simpl.
  rewrite lincomb_plus. rewrite IH; [done |].
  intros i Hi. apply Hidx. lia.
Qed.

(** [_bfgs_multiply] is the two-loop recursion on the pairs
    [(s[i], y[i])]. *)
Lemma _bfgs_multiply_two_loop s y (x : E) (hessinv_estimate : option (E -> E)) :
  length s = length y ->
  _bfgs_multiply s y x hessinv_estimate
  = Ok (two_loop_recursion (zip s y) hessinv_estimate x).
Proof.
  intros Hlen. unfold _bfgs_multiply, two_loop_recursion.
  rewrite Hlen, Nat.eqb_refl. simpl.
  rewrite bfgs_backward_spec by (rewrite ?length_replicate; lia). cbv zeta.
  assert (Hz : length (zip s y) = length y).
  { rewrite length_zip, Hlen. lia. }
  rewrite take_ge by lia.
  rewrite !drop_ge by (by rewrite length_replicate). rewrite !app_nil_r.
  pose proof (length_two_loop_backward (reverse (zip s y)) x) as Hal.
  destruct (two_loop_backward (reverse (zip s y)) x) as [q al].
  rewrite length_reverse, Hz in Hal. simpl in Hal. simpl.
  rewrite bfgs_forward_spec.
  - rewrite drop_0, take_ge; [done |].
    rewrite length_zip, Hz, length_reverse, Hal. lia.
  - intros i Hi.
    destruct (lookup_lt_is_Some_2 s i ltac:(lia)) as [si Hsi].
    destruct (lookup_lt_is_Some_2 y i ltac:(lia)) as [yi Hyi].
    destruct (lookup_lt_is_Some_2 (reverse al) i) as [ai Hai].
    { rewrite length_reverse. lia. }
    exists si, yi, ai. split_and!; try done.
    rewrite list_lookup_fmap.
    assert (Hzip : zip s y !! i = Some (si, yi)).
    { apply lookup_zip_with_Some. by exists si, yi. }
    by rewrite Hzip.
Qed.

Implicit Types (g : Gradient E) (line_search : E -> E -> K -> K) (tol : K).

(** C4. In every state the loop of [bfgs_method] reaches from an empty
    history, the stored lists pair up into pairs [(s_i, y_i)] that are
    among the pairs (displacement, difference of gradients) the passes
    computed, and the search direction is the negation of the two-loop
    recursion on these pairs and the current gradient; a pass that goes on
    moves [x] by the displacement it stores and stores the difference
    between the new and the old gradient. *)
Theorem bfgs_search_dir_two_loop g line_search tol (maxcor : option Z)
    (hessinv_estimate : option (E -> E)) (callback : bool)
    (st0 : BfgsState E) (log : list (E * E)) (st : BfgsState E) :
  bfgs_ys st0 = [] -> bfgs_ss st0 = [] ->
  bfgs_run g line_search tol maxcor hessinv_estimate callback st0 log st ->
  let pairs := zip (bfgs_ys st) (bfgs_ss st) in
  (exists k, pairs = drop k log) /\
  pairs.*1 = bfgs_ys st /\ pairs.*2 = bfgs_ss st /\
  bfgs_search_dir hessinv_estimate st
  = Ok (neg (two_loop_recursion pairs hessinv_estimate (bfgs_grad_x st))) /\
  (forall st', bfgs_body g line_search tol maxcor hessinv_estimate callback st
               = Ok (Continue st') ->
     exists d, bfgs_search_dir hessinv_estimate st = Ok d /\
       let pair := bfgs_pair g line_search st d in
       bfgs_x st' = plus (bfgs_x st) pair.1 /\
       pair.2 = lincomb (kopp kone) (bfgs_grad_x st) kone (grad g (bfgs_x st')) /\
       bfgs_run g line_search tol maxcor hessinv_estimate callback st0 (log ++ [pair]) st').
Proof.
  intros Hys Hss Hrun.
  destruct (bfgs_run_history _ _ _ _ _ _ _ _ _ Hys Hss Hrun) as (k & Hk & Hy & Hs).
  assert (Hlen : length (bfgs_ys st) = length (bfgs_ss st)).
  { by rewrite Hy, Hs, !length_drop, !length_fmap. }
  cbv zeta. split_and!.
  - exists k. rewrite Hy, Hs.
    rewrite <- (zip_with_drop pair k (log.*1) (log.*2)).
    by rewrite (zip_fst_snd log).
  - apply fst_zip. lia.
  - apply snd_zip. lia.
  - unfold bfgs_search_dir. by rewrite _bfgs_multiply_two_loop.
  - intros st' Hbody.
    destruct (bfgs_body_Continue _ _ _ _ _ _ _ _ Hbody) as (d & Hd & Hx & Hg & Hp & _).
    exists d. split; [done |]. cbv zeta. split_and!; [done | by rewrite <- Hg |].
    by eapply bfgs_run_step.
Qed.

End TwoLoop.

(** ** The theorems at concrete inputs *)

Lemma Qmult_1_l_eq (q : Q) : Qmult 1 q = q.
Proof. destruct q as [[| p | p] d]; reflexivity. Qed.

Lemma Qmult_opp_l_eq (a b : Q) : Qmult (Qopp a) b = Qopp (Qmult a b).
Proof. unfold Qmult, Qopp. simpl. by rewrite Z.mul_opp_l. Qed.

#[global] Instance Rn_LincombLaws : LincombLaws Q (list Q).
Proof.
  split.
  - intros r y a. simpl. revert y.
    induction r as [| q r IH]; intros [| b y]; simpl; try done.
    rewrite IH, Qmult_1_l_eq, Qmult_opp_l_eq. done.
  - intros r s a. simpl. revert s.
    induction r as [| q r IH]; intros [| b s]; simpl; try done.
    rewrite IH, Qmult_1_l_eq. done.
Qed.

Example ProductSpaceOperator_init_block_example :
  ProductSpaceOperator_init
    [[Op (identity_on_Rn 3); Op (identity_on_Rn 3)]; [Op (identity_on_Rn 3); Zero]]
    None None
  = Ok block_example.
Proof. reflexivity. Qed.

(** A row without a block is zeroed whatever [out] held. *)
Example ProductSpaceOperator_apply_empty_row :
  ProductSpaceOperator_apply block_with_empty_row
    [[1; 2; 3]; [4; 5; 6]]%Q [[8; 8; 8]; [9; 9; 9]]%Q
  = Ok [[5; 7; 9]; [0; 0; 0]]%Q.
Proof. reflexivity. Qed.

Lemma ProductSpaceOperator_apply_rows_witness :
  exists out',
    ProductSpaceOperator_apply block_with_empty_row
      [[1; 2; 3]; [4; 5; 6]]%Q [[8; 8; 8]; [9; 9; 9]]%Q = Ok out' /\
    length out' = 2 /\
    forall i ri, [Rn 3; Rn 3] !! i = Some ri ->
      out' !! i = Some (match row_blocks i (ops block_with_empty_row)
                                [[1; 2; 3]; [4; 5; 6]]%Q with
                        | [] => zero ri
                        | v :: vs => foldl add v vs
                        end).
Proof.
  apply (ProductSpaceOperator_apply_rows block_with_empty_row
           [[1; 2; 3]; [4; 5; 6]]%Q [[8; 8; 8]; [9; 9; 9]]%Q [Rn 3; Rn 3]).
  - reflexivity.
  - repeat constructor.
  - repeat constructor; simpl; lia.
Defined.

Lemma ProductSpaceOperator_call_rows_witness :
  exists out,
    ProductSpaceOperator_call block_example [[1; 2; 3]; [4; 5; 6]]%Q = Ok out /\
    length out = 2 /\
    forall i ri, [Rn 3; Rn 3] !! i = Some ri ->
      out !! i
      = Some (foldl add (zero ri)
                (row_values
                   (default [] ([[Op (identity_on_Rn 3); Op (identity_on_Rn 3)];
                                 [Op (identity_on_Rn 3); Zero]] !! i))
                   [[1; 2; 3]; [4; 5; 6]]%Q)) /\
      (Forall (fun e => e = Zero)
         (default [] ([[Op (identity_on_Rn 3); Op (identity_on_Rn 3)];
                       [Op (identity_on_Rn 3); Zero]] !! i)) ->
       out !! i = Some (zero ri)).
Proof.
  apply (ProductSpaceOperator_call_rows
           [[Op (identity_on_Rn 3); Op (identity_on_Rn 3)]; [Op (identity_on_Rn 3); Zero]]
           None None block_example [[1; 2; 3]; [4; 5; 6]]%Q).
  - reflexivity.
  - reflexivity.
Defined.



(** With [tol = 1], [|dd| = 1] and the step [1/2], the pass of
    [bfgs_method] and of [broydens_method] gets past the test, moves [x]
    to [1/2] and returns at the guard on the denominator. *)
Example dir_deriv_equal_tol_later_return :
  (exists st,
      bfgs_body (half_square_norm 1) (as_callable (Number (1 # 2)%Q)) 1%Q None None false
        (bfgs_at [1]%Q) = Ok (Return st) /\
      bfgs_x st = plus [1]%Q (scal (1 # 2)%Q [-1]%Q)) /\
  (exists st,
      broyden_body (half_square_norm 1) (as_callable (Number (1 # 2)%Q)) "first" 1%Q false
        (broyden_at [1]%Q) = Ok (Return st) /\
      broyden_x st = plus [1]%Q (scal (1 # 2)%Q [-1]%Q)).
Proof. split; by eexists. Qed.

Lemma broydens_method_other_impl_witness :
  broyden_body (half_square_norm 1) (as_callable (Number (1 # 4)%Q)) "third"
    (1 # 100)%Q true (broyden_at [2]%Q)
  = Ok (Continue {| broyden_x := plus [2]%Q (scal (1 # 4)%Q [-2]%Q);
                    broyden_grad_x := plus [2]%Q (scal (1 # 4)%Q [-2]%Q);
                    broyden_hess := IdentityOperator;
                    broyden_calls := [plus [2]%Q (scal (1 # 4)%Q [-2]%Q)] |}) /\
  broyden_hess
    (next_state (broyden_body (half_square_norm 1) (as_callable (Number (1 # 4)%Q)) "third"
                   (1 # 100)%Q true) (broyden_at [2]%Q))
  = IdentityOperator /\
  exists st,
    broydens_method (half_square_norm 1) [2]%Q (Number (1 # 4)%Q) "third" 2
      (1 # 100)%Q true = Ok st /\
    broyden_hess st = IdentityOperator.
Proof.
  destruct (broydens_method_other_impl (half_square_norm 1) (Number (1 # 4)%Q) "third"
              (1 # 100)%Q true)
    as (Hpass & Hreached & Hreturned); [discriminate | discriminate |].
  split_and!.
  - apply (Hpass (broyden_at [2]%Q)). reflexivity.
  - apply (Hreached (broyden_at [2]%Q)).
    eapply iterates_step; [apply iterates_refl | reflexivity].
  - eexists. split; [vm_compute; reflexivity |].
    apply (Hreturned [2]%Q 2%Z). vm_compute. reflexivity.
Defined.

Example broydens_method_unknown_impl_run :
  (fun st => (broyden_hess st, length (broyden_calls st)))
    <$> broydens_method (half_square_norm 1) [2]%Q (Number (1 # 4)%Q) "third" 2
          (1 # 100)%Q true
  = Ok (IdentityOperator, 2).
Proof. reflexivity. Qed.

Lemma underflow_return_after_update_witness :
  (exists st',
      for_range 3 (bfgs_body (half_square_norm 1) example_line_search 1%Q None None true)
        (bfgs_at [2]%Q) = Ok st' /\
      bfgs_x st' = plus [2]%Q (scal (1 # 4)%Q [-2]%Q) /\ bfgs_calls st' = []) /\
  (exists st',
      for_range 3 (broyden_body (half_square_norm 1) example_line_search "first" 1%Q true)
        (broyden_at [2]%Q) = Ok st' /\
      broyden_x st' = plus [2]%Q (scal (1 # 4)%Q [-2]%Q) /\ broyden_calls st' = []) /\
  (exists st',
      for_range 3 (broyden_body (half_square_norm 1) example_line_search "second" 1%Q true)
        (broyden_at [2]%Q) = Ok st' /\
      broyden_x st' = plus [2]%Q (scal (1 # 4)%Q [-2]%Q) /\ broyden_calls st' = []).
Proof.
  destruct (underflow_return_after_update (half_square_norm 1) example_line_search 1%Q true)
    as (Hbfgs & Hbroyden).
  split_and!.
  - apply (Hbfgs None None (bfgs_at [2]%Q) [-2]%Q 2); reflexivity.
  - apply (Hbroyden "first" (broyden_at [2]%Q) 2); [reflexivity |].
    left. split; reflexivity.
  - apply (Hbroyden "second" (broyden_at [2]%Q) 2); [reflexivity |].
    right. split; reflexivity.
Defined.

(** Three passes from [x = [2]] with the step [1/4] go on; they append
    three pairs. *)
Lemma bfgs_run_three_passes (maxcor : option Z) :
  maxcor = Some 2%Z \/ maxcor = None ->
  exists (log : list (list Q * list Q)) (st : BfgsState (list Q)),
    bfgs_run (half_square_norm 1) example_line_search (1 # 100)%Q maxcor None true
      (bfgs_at [2]%Q) log st /\
    length log = 3 /\
    for_range 3 (bfgs_body (half_square_norm 1) example_line_search (1 # 100)%Q maxcor
                   None true) (bfgs_at [2]%Q) = Ok st.
Proof.
  intros [-> | ->].
  - eexists _, _. split_and!.
    + eapply bfgs_run_step;
        [eapply bfgs_run_step;
           [eapply bfgs_run_step; [apply bfgs_run_nil | |] | |] | |];
        vm_compute; reflexivity.
    + reflexivity.
    + vm_compute. reflexivity.
  - eexists _, _. split_and!.
    + eapply bfgs_run_step;
        [eapply bfgs_run_step;
           [eapply bfgs_run_step; [apply bfgs_run_nil | |] | |] | |];
        vm_compute; reflexivity.
    + reflexivity.
    + vm_compute. reflexivity.
Defined.

Lemma bfgs_history_witness :
  (exists (log : list (list Q * list Q)) (st : BfgsState (list Q)),
      bfgs_run (half_square_norm 1) example_line_search (1 # 100)%Q (Some 2%Z) None true
        (bfgs_at [2]%Q) log st /\
      length log = 3 /\
      bfgs_ys st = lastn (Z.to_nat 2) log.*1 /\
      bfgs_ss st = lastn (Z.to_nat 2) log.*2 /\
      length (bfgs_ys st) <= Z.to_nat 2 /\ length (bfgs_ss st) <= Z.to_nat 2) /\
  (exists st : BfgsState (list Q),
      for_range 3 (bfgs_body (half_square_norm 1) example_line_search (1 # 100)%Q
                     (Some 2%Z) None true) (bfgs_at [2]%Q) = Ok st /\
      length (bfgs_ys st) <= Z.to_nat 2 /\ length (bfgs_ss st) <= Z.to_nat 2) /\
  (exists (log : list (list Q * list Q)) (st : BfgsState (list Q)),
      bfgs_run (half_square_norm 1) example_line_search (1 # 100)%Q None None true
        (bfgs_at [2]%Q) log st /\
      length log = 3 /\
      bfgs_ys st = log.*1 /\ bfgs_ss st = log.*2 /\
      length (bfgs_ys st) = length log /\ length (bfgs_ss st) = length log).
Proof.
  destruct (bfgs_history (half_square_norm 1) example_line_search (1 # 100)%Q None true
              (bfgs_at [2]%Q)) as (Hlast & Hbound & Hall); [reflexivity | reflexivity |].
  destruct (bfgs_run_three_passes (Some 2%Z)) as (log & st & Hrun & Hlen & Hfor);
    [by left |].
  destruct (bfgs_run_three_passes None) as (log' & st' & Hrun' & Hlen' & Hfor');
    [by right |].
  split_and!.
  - exists log, st. split_and!; [done | done | ..];
      apply (Hlast 2%Z log st); (lia || done).
  - exists st. split; [done |]. apply (Hbound 2%Z 3 st); [lia | done].
  - exists log', st'. split_and!; [done | done | ..]; by apply (Hall log' st').
Defined.

(** Three passes with [maxcor = 2] keep two pairs; without [maxcor] all
    three are kept. *)
Example bfgs_method_history_lengths :
  (fun st => (length (bfgs_ys st), length (bfgs_ss st), length (bfgs_calls st)))
    <$> bfgs_method (half_square_norm 1) [2]%Q (Number (1 # 4)%Q) 3 (1 # 100)%Q
          (Some 2%Z) None true = Ok (2, 2, 3) /\
  (fun st => (length (bfgs_ys st), length (bfgs_ss st), length (bfgs_calls st)))
    <$> bfgs_method (half_square_norm 1) [2]%Q (Number (1 # 4)%Q) 3 (1 # 100)%Q
          None None true = Ok (3, 3, 3).
Proof. split; reflexivity. Qed.

Lemma bfgs_search_dir_two_loop_witness :
  let body := bfgs_body (half_square_norm 1) example_line_search (1 # 100)%Q
                (Some 1%Z) None true in
  let st := next_state body (bfgs_at [2]%Q) in
  let log := [bfgs_pair (half_square_norm 1) example_line_search (bfgs_at [2]%Q) [-2]%Q] in
  let pairs := zip (bfgs_ys st) (bfgs_ss st) in
  (exists k, pairs = drop k log) /\
  pairs.*1 = bfgs_ys st /\ pairs.*2 = bfgs_ss st /\
  bfgs_search_dir None st
  = Ok (neg (two_loop_recursion pairs None (bfgs_grad_x st))) /\
  (forall st', body st = Ok (Continue st') ->
     exists d, bfgs_search_dir None st = Ok d /\
       let pair := bfgs_pair (half_square_norm 1) example_line_search st d in
       bfgs_x st' = plus (bfgs_x st) pair.1 /\
       pair.2 = lincomb (kopp kone) (bfgs_grad_x st) kone
                  (grad (half_square_norm 1) (bfgs_x st')) /\
       bfgs_run (half_square_norm 1) example_line_search (1 # 100)%Q (Some 1%Z) None true
         (bfgs_at [2]%Q) (log ++ [pair]) st').
Proof.
  intros body st log.
  apply (bfgs_search_dir_two_loop (half_square_norm 1) example_line_search (1 # 100)%Q
           (Some 1%Z) None true (bfgs_at [2]%Q) log st).
  - reflexivity.
  - reflexivity.
  - apply (bfgs_run_step _ _ _ _ _ _ (bfgs_at [2]%Q) (bfgs_at [2]%Q) st [] [-2]%Q).
    + constructor.
    + reflexivity.
    + reflexivity.
Defined.

(** * Further properties *)

(** ** The constructor of [ProductSpaceOperator] *)

Section ConstructorBehaviour.
Context {Elem : Type}.
Implicit Types (op : Operator Elem) (e : Entry Elem).
Implicit Types (ts : list (nat * nat * Operator Elem)).
Implicit Types (operators : list (list (Entry Elem))).

(** The second part of the constructor: either every slot is filled, or the
    error names the first empty slot. *)
Lemma all_filled_spec mk (k : nat) (slots : list (option Space)) :
  match all_filled mk k slots with
  | Ok l => slots = Some <$> l
  | Raise ex =>
      exists j, ex = ValueError (mk (k + j)) /\ slots !! j = Some None /\
                forall j', j' < j -> exists s, slots !! j' = Some (Some s)
  end.
Proof.
  revert k. induction slots as [| [s |] slots IH]; intros k; simpl.
  - done.
  - specialize (IH (S k)). destruct (all_filled mk (S k) slots) as [l | ex]; simpl.
    + by rewrite IH.
    + destruct IH as (j & -> & Hj & Hlt). exists (S j). split_and!.
      * do 2 f_equal. lia.
      * done.
      * intros [| j'] Hj'; simpl; [by eexists |]. apply Hlt. lia.
  - exists 0. split_and!; [do 2 f_equal; lia | reflexivity | intros j' Hj'; exfalso; lia].
Qed.

Lemma slot_step_other mk (slots slots' : list (option Space)) (i : nat) (s : Space) :
  slot_step mk slots i s = Ok slots' ->
  forall i', i' <> i -> slots' !! i' = slots !! i'.
Proof.
  unfold slot_step. destruct (getitem slots i) as [[d0 |] |]; simpl; [| | done].
  - destruct (negb _); [done |]. by intros [= <-].
  - intros [= <-] i' Hne. by rewrite list_lookup_insert_ne.
Qed.

(** The loop of the constructor writes only the slots of the columns and
    rows that hold a block. *)
Lemma init_loop_untouched ts (ds rs ds' rs' : list (option Space)) :
  init_loop ts (Some ds) (Some rs) = Ok (Some ds', Some rs') ->
  (forall c, (forall r op, (r, c, op) ∉ ts) -> ds' !! c = ds !! c) /\
  (forall r, (forall c op, (r, c, op) ∉ ts) -> rs' !! r = rs !! r).
Proof.
  revert ds rs. induction ts as [| [[r c] op] ts IH]; intros ds rs.
  - simpl. by intros [= -> ->].
  - rewrite init_loop_cons.
    destruct (slot_step ColumnInconsistent ds c (domain op)) as [ds1 |] eqn:E1;
      simpl; [| done].
    destruct (slot_step RowInconsistent rs r (range op)) as [rs1 |] eqn:E2;
      simpl; [| done].
    intros Hloop. destruct (IH _ _ Hloop) as [IHd IHr]. split.
    + intros c' Hc'. rewrite IHd.
      * apply (slot_step_other _ _ _ _ _ E1). intros ->. apply (Hc' r op). by left.
      * intros r' op' Hin. apply (Hc' r' op'). by right.
    + intros r' Hr'. rewrite IHr.
      * apply (slot_step_other _ _ _ _ _ E2). intros ->. apply (Hr' c op). by left.
      * intros c' op' Hin. apply (Hr' c' op'). by right.
Qed.

Lemma block_in_column_dec ts (c : nat) :
  (exists r op, (r, c, op) ∈ ts) \/ (forall r op, (r, c, op) ∉ ts).
Proof.
  destruct (decide (Exists (fun t => t.1.2 = c) ts)) as [Hex | Hno].
  - left. apply Exists_exists in Hex as ([[r c'] op] & Hin & Hc). simpl in Hc. subst c'.
    by exists r, op.
  - right. intros r op Hin. apply Hno, Exists_exists. by exists (r, c, op).
Qed.

Lemma block_in_row_dec ts (r : nat) :
  (exists c op, (r, c, op) ∈ ts) \/ (forall c op, (r, c, op) ∉ ts).
Proof.
  destruct (decide (Exists (fun t => t.1.1 = r) ts)) as [Hex | Hno].
  - left. apply Exists_exists in Hex as ([[r' c] op] & Hin & Hr). simpl in Hr. subst r'.
    by exists c, op.
  - right. intros c op Hin. apply Hno, Exists_exists. by exists (r, c, op).
Qed.

Lemma ProductSpace_new_Ok (spaces : list Space) :
  spaces <> [] -> ProductSpace_new spaces = Ok (ProductSpace spaces).
Proof. by destruct spaces. Qed.

Lemma rows_length operators : 0 < columns operators -> rows operators = length operators.
Proof. destruct operators; simpl; [lia | done]. Qed.

(** The outcome of the constructor on a consistent array, with [dom] and
    [ran] omitted. *)
Lemma ProductSpaceOperator_init_consistent operators :
  rectangular operators = true ->
  Forall (Forall (fun e => e <> Other)) operators ->
  consistent operators ->
  match ProductSpaceOperator_init operators None None with
  | Ok P =>
      (exists dl rl,
          pso_domain P = ProductSpace dl /\ pso_range P = ProductSpace rl /\
          length dl = columns operators /\ length rl = length operators /\
          forall i j op, present operators i j op ->
            dl !! j = Some (domain op) /\ rl !! i = Some (range op)) /\
      (forall j, j < columns operators -> exists i op, present operators i j op) /\
      (forall i, i < length operators -> exists j op, present operators i j op) /\
      0 < columns operators
  | Raise (ValueError (ColEmpty c)) =>
      c < columns operators /\ column_empty operators c /\
      forall c', c' < c -> exists i op, present operators i c' op
  | Raise (ValueError (RowEmpty r)) =>
      r < length operators /\ row_empty operators r /\
      (forall r', r' < r -> exists j op, present operators r' j op) /\
      (forall c, c < columns operators -> exists i op, present operators i c op) /\
      0 < columns operators
  | Raise (ValueError NoSpaces) => columns operators = 0
  | _ => False
  end.
Proof.
  intros Hrect Hno [Hcols Hrows].
  destruct (no_other_all_operators _ Hno) as [ts Hall].
  rewrite (ProductSpaceOperator_init_inferred _ _ Hrect Hall).
  pose proof (init_loop_inferred _ _ Hrect Hall) as Hinf.
  destruct (init_loop ts _ _) as [[[ds' |] [rs' |]] | [m | m | | | |]] eqn:Hloop;
    try done.
  2:{ exfalso. destruct m as [| | c d1 d2 | r g1 g2 | | | | |]; try done.
      - destruct Hinf as (Hne & (r1 & op1 & H1 & <-) & (r2 & op2 & H2 & <-)).
        apply Hne. by eapply Hcols.
      - destruct Hinf as (Hne & (c1 & op1 & H1 & <-) & (c2 & op2 & H2 & <-)).
        apply Hne. by eapply Hrows. }
  destruct Hinf as (Hld & Hlr & Hslots).
  destruct (init_loop_untouched _ _ _ _ _ Hloop) as [Hud Hur].
  assert (Hcol : forall c s, ds' !! c = Some (Some s) -> exists i op, present operators i c op).
  { intros c s Hs. destruct (block_in_column_dec ts c) as [(r & op & Hin) | Hnone].
    - exists r, op. by apply (present_coo _ _ _ _ _ Hall).
    - rewrite (Hud c Hnone) in Hs. apply lookup_replicate in Hs as [[=] _]. }
  assert (Hrow : forall r s, rs' !! r = Some (Some s) -> exists j op, present operators r j op).
  { intros r s Hs. destruct (block_in_row_dec ts r) as [(c & op & Hin) | Hnone].
    - exists c, op. by apply (present_coo _ _ _ _ _ Hall).
    - rewrite (Hur r Hnone) in Hs. apply lookup_replicate in Hs as [[=] _]. }
  simpl.
  pose proof (all_filled_spec ColEmpty 0 ds') as Hfd.
  destruct (all_filled ColEmpty 0 ds') as [dl | ex]; simpl.
  2:{ destruct Hfd as (j & -> & Hj & Hlt). simpl. split_and!.
      - rewrite <- Hld. by eapply lookup_lt_Some.
      - intros i op Hp. apply Hslots in Hp as [Hp _]. congruence.
      - intros c' Hc'. destruct (Hlt c' Hc') as [s Hs]. by eapply Hcol. }
  destruct (decide (dl = [])) as [-> | Hdl].
  { simpl. by rewrite <- Hld, Hfd. }
  rewrite (ProductSpace_new_Ok _ Hdl). simpl.
  assert (Hpos : 0 < columns operators).
  { rewrite <- Hld, Hfd, length_fmap. destruct dl; [done | simpl; lia]. }
  rewrite (rows_length _ Hpos) in Hlr.
  assert (Hcolumns : forall c, c < columns operators -> exists i op, present operators i c op).
  { intros c Hc. rewrite <- Hld in Hc.
    destruct (lookup_lt_is_Some_2 ds' c Hc) as [s Hs].
    rewrite Hfd, list_lookup_fmap in Hs.
    destruct (dl !! c) as [s' |] eqn:Hdl'; [| done].
    apply (Hcol c s'). by rewrite Hfd, list_lookup_fmap, Hdl'. }
  pose proof (all_filled_spec RowEmpty 0 rs') as Hfr.
  destruct (all_filled RowEmpty 0 rs') as [rl | ex]; simpl.
  2:{ destruct Hfr as (j & -> & Hj & Hlt). simpl. split_and!.
      - rewrite <- Hlr. by eapply lookup_lt_Some.
      - intros c op Hp. apply Hslots in Hp as [_ Hp]. congruence.
      - intros r' Hr'. destruct (Hlt r' Hr') as [s Hs]. by eapply Hrow.
      - done.
      - done. }
  assert (Hrl : rl <> []).
  { intros ->. rewrite Hfr in Hlr. simpl in Hlr.
    destruct operators; simpl in *; lia. }
  rewrite (ProductSpace_new_Ok _ Hrl). simpl.
  split_and!.
  - exists dl, rl. subst ds' rs'. rewrite !length_fmap in *. split_and!; try done.
    intros i j op Hp. apply Hslots in Hp as [Hp1 Hp2].
    rewrite list_lookup_fmap in Hp1, Hp2.
    destruct (dl !! j), (rl !! i); by simplify_eq/=.
  - done.
  - intros r Hr. rewrite <- Hlr in Hr.
    destruct (lookup_lt_is_Some_2 rs' r Hr) as [s Hs].
    rewrite Hfr, list_lookup_fmap in Hs.
    destruct (rl !! r) as [s' |] eqn:Hrl'; [| done].
    apply (Hrow r s'). by rewrite Hfr, list_lookup_fmap, Hrl'.
  - done.
Qed.

Lemma no_columns_row_empty operators (i : nat) :
  columns operators = 0 -> rectangular operators = true -> row_empty operators i.
Proof.
  intros Hcols Hrect j op (row & Hrow & Hj).
  pose proof (rectangular_length _ _ _ Hrect Hrow) as Hlen.
  apply lookup_lt_Some in Hj. lia.
Qed.

(** X1. With [dom] and [ran] omitted, a consistent array of operators and
    zeros that has a row and in which every column and every row holds an
    operator is accepted: the domain is the product of the domains of the
    columns, the range the product of the ranges of the rows. *)
Theorem ProductSpaceOperator_init_infers operators :
  operators <> [] ->
  rectangular operators = true ->
  Forall (Forall (fun e => e <> Other)) operators ->
  consistent operators ->
  (forall j, j < columns operators -> ~ column_empty operators j) ->
  (forall i, i < length operators -> ~ row_empty operators i) ->
  exists P dl rl,
    ProductSpaceOperator_init operators None None = Ok P /\
    pso_domain P = ProductSpace dl /\ pso_range P = ProductSpace rl /\
    length dl = columns operators /\ length rl = length operators /\
    forall i j op, present operators i j op ->
      dl !! j = Some (domain op) /\ rl !! i = Some (range op).
Proof.
  intros Hne Hrect Hno Hcons Hcols Hrows.
  pose proof (ProductSpaceOperator_init_consistent _ Hrect Hno Hcons) as Hout.
  destruct (ProductSpaceOperator_init operators None None) as [P | [m | m | | | |]];
    try done.
  - destruct Hout as ((dl & rl & Hfields) & _). by exists P, dl, rl.
  - exfalso. destruct m as [| | | | c | r | | |]; try done.
    + destruct Hout as (Hc & Hempty & _). by apply (Hcols c).
    + destruct Hout as (Hr & Hempty & _). by apply (Hrows r).
    + apply (Hrows 0); [destruct operators; [done | simpl; lia] |].
      by apply no_columns_row_empty.
Qed.

(** X2. With [dom] and [ran] omitted, a consistent array with a column
    that holds no operator is refused with the [ValueError] that names the
    first such column; when there is a column, every column holds an
    operator and some row holds none, with the [ValueError] that names the
    first such row; and an array without a column is refused with the
    [ValueError] of [ProductSpace] for an empty sequence of spaces. *)
Theorem ProductSpaceOperator_init_empty operators :
  rectangular operators = true ->
  Forall (Forall (fun e => e <> Other)) operators ->
  consistent operators ->
  ((exists j, j < columns operators /\ column_empty operators j) ->
   exists c,
     ProductSpaceOperator_init operators None None = Raise (ValueError (ColEmpty c)) /\
     c < columns operators /\ column_empty operators c /\
     forall c', c' < c -> ~ column_empty operators c') /\
  (0 < columns operators ->
   (forall j, j < columns operators -> ~ column_empty operators j) ->
   (exists i, i < length operators /\ row_empty operators i) ->
   exists r,
     ProductSpaceOperator_init operators None None = Raise (ValueError (RowEmpty r)) /\
     r < length operators /\ row_empty operators r /\
     forall r', r' < r -> ~ row_empty operators r') /\
  (columns operators = 0 ->
   ProductSpaceOperator_init operators None None = Raise (ValueError NoSpaces)).
Proof.
  intros Hrect Hno Hcons.
  pose proof (ProductSpaceOperator_init_consistent _ Hrect Hno Hcons) as Hout.
  split_and!.
  - intros (j & Hj & Hempty).
    destruct (ProductSpaceOperator_init operators None None) as [P | [m | m | | | |]];
      try done.
    + exfalso. destruct Hout as (_ & Hcols & _).
      destruct (Hcols j Hj) as (i & op & Hp). by apply (Hempty i op).
    + destruct m as [| | | | c | r | | |]; try done.
      * destruct Hout as (Hc & Hce & Hlt). exists c. split_and!; try done.
        intros c' Hc' Hempty'. destruct (Hlt c' Hc') as (i & op & Hp).
        by apply (Hempty' i op).
      * exfalso. destruct Hout as (_ & _ & _ & Hcols & _).
        destruct (Hcols j Hj) as (i & op & Hp). by apply (Hempty i op).
      * exfalso. lia.
  - intros Hpos Hcols (i & Hi & Hempty).
    destruct (ProductSpaceOperator_init operators None None) as [P | [m | m | | | |]];
      try done.
    + exfalso. destruct Hout as (_ & _ & Hrows & _).
      destruct (Hrows i Hi) as (j & op & Hp). by apply (Hempty j op).
    + destruct m as [| | | | c | r | | |]; try done.
      * exfalso. destruct Hout as (Hc & Hce & _). by apply (Hcols c).
      * destruct Hout as (Hr & Hre & Hlt & _). exists r. split_and!; try done.
        intros r' Hr' Hempty'. destruct (Hlt r' Hr') as (j & op & Hp).
        by apply (Hempty' j op).
      * exfalso. lia.
  - intros Hzero.
    destruct (ProductSpaceOperator_init operators None None) as [P | [m | m | | | |]];
      try done.
    + exfalso. destruct Hout as (_ & _ & _ & Hpos). lia.
    + destruct m as [| | | | c | r | | |]; try done.
      * exfalso. destruct Hout as (Hc & _). lia.
      * exfalso. destruct Hout as (_ & _ & _ & _ & Hpos). lia.
Qed.

Lemma all_operators_Other (es : list (nat * nat * Entry Elem)) (r c : nat) :
  (r, c, Other) ∈ es -> all_operators es = None.
Proof.
  intros Hin. destruct (all_operators es) as [ts |] eqn:Hall; [| done].
  rewrite (all_operators_Some _ _ Hall) in Hin.
  apply list_elem_of_fmap in Hin as (t & [=] & _).
Qed.

(** X3. Whatever [dom] and [ran] (omitted or product spaces), an array
    that holds a non-zero entry that is not an operator is refused with the
    [TypeError] for the array, before any domain or range is looked at. *)
Theorem ProductSpaceOperator_init_not_operators operators (dom ran : option Space)
    (i j : nat) (row : list (Entry Elem)) :
  product_or_omitted dom -> product_or_omitted ran ->
  rectangular operators = true ->
  operators !! i = Some row -> row !! j = Some Other ->
  ProductSpaceOperator_init operators dom ran = Raise (TypeError NotOperators).
Proof.
  intros Hdom Hran Hrect Hrow Hother.
  assert (Hnone : all_operators (coo_rows 0 operators) = None).
  { apply (all_operators_Other _ i j), elem_of_coo_rows. split; [lia |].
    exists row. by rewrite Nat.sub_0_r. }
  unfold ProductSpaceOperator_init, coo_matrix. rewrite Hrect.
  destruct Hdom as [-> | [dparts ->]], Hran as [-> | [rparts ->]]; simpl;
    by rewrite Hnone.
Qed.

Lemma coo_row_sorted (row col : nat) (entries : list (Entry Elem)) :
  StronglySorted rowmajor_lt (coo_row row col entries).
Proof.
  revert col. induction entries as [| e entries IH]; intros col; simpl; [constructor |].
  assert (Hhead : forall e0, StronglySorted rowmajor_lt ((row, col, e0) :: coo_row row (S col) entries)).
  { intros e0. apply StronglySorted_cons. split; [| apply IH].
    apply Forall_forall. intros [[r c] e'] Hin.
    apply elem_of_coo_row in Hin as (-> & Hc & _). right. simpl. lia. }
  destruct e as [| op |]; [apply IH | apply Hhead | apply Hhead].
Qed.

Lemma coo_rows_sorted (row : nat) operators :
  StronglySorted rowmajor_lt (coo_rows row operators).
Proof.
  revert row. induction operators as [| es operators IH]; intros row; simpl; [constructor |].
  apply StronglySorted_app. split_and!; [| apply coo_row_sorted | apply IH].
  intros [[r1 c1] e1] [[r2 c2] e2] H1 H2.
  apply elem_of_coo_row in H1 as (-> & _). apply elem_of_coo_rows in H2 as (Hr & _).
  left. simpl. lia.
Qed.

(** X4. The blocks an operator stores are the operators of the array,
    each at its position, in strictly increasing row-major order (so no
    position occurs twice). *)
Theorem ProductSpaceOperator_init_ops operators (dom ran : option Space)
    (P : ProductSpaceOperator Elem) :
  ProductSpaceOperator_init operators dom ran = Ok P ->
  StronglySorted rowmajor_lt (ops P) /\
  forall i j op, (i, j, op) ∈ ops P <-> present operators i j op.
Proof.
  intros Hinit.
  destruct (ProductSpaceOperator_init_Ok _ _ _ _ Hinit) as (Hrect & Hall & _).
  split; [| intros i j op; by apply present_coo].
  pose proof (coo_rows_sorted 0 operators) as Hsorted.
  rewrite (all_operators_Some _ _ Hall) in Hsorted.
  clear -Hsorted. induction (ops P) as [| t ts IH]; [constructor |].
  rewrite fmap_cons in Hsorted. apply StronglySorted_cons in Hsorted as [Hhd Htl].
  apply StronglySorted_cons. split; [| by apply IH].
  apply Forall_forall. intros t' Hin. rewrite Forall_forall in Hhd.
  apply (Hhd (t'.1, Op t'.2)), list_elem_of_fmap. by exists t'.
Qed.

End ConstructorBehaviour.

(** ** Evaluation of a constructed [ProductSpaceOperator] *)

Section EvaluationBehaviour.
Context `{ComponentElement Elem}.
Implicit Types (op : Operator Elem) (ts : list (nat * nat * Operator Elem)).
Implicit Types (operators : list (list (Entry Elem))) (x out : list Elem).

Local Arguments init_loop : simpl never.

(** The linearity flag and the shape of a constructed operator. *)
Lemma ProductSpaceOperator_init_Ok_flag operators dom ran (P : ProductSpaceOperator Elem) :
  ProductSpaceOperator_init operators dom ran = Ok P ->
  pso_linear P = forallb (fun t => is_linear t.2) (ops P) /\
  ops_shape P = (rows operators, columns operators).
Proof.
  intros Hinit.
  destruct (ProductSpaceOperator_init_Ok _ _ _ _ Hinit) as (Hrect & Hall & _).
  unfold ProductSpaceOperator_init, coo_matrix in Hinit. rewrite Hrect in Hinit.
  destruct dom as [[n | dparts] |], ran as [[m | rparts] |]; simpl in Hinit;
    try discriminate; rewrite Hall in Hinit; simpl in Hinit;
    repeat match type of Hinit with
           | context [init_loop ?l ?d ?r] =>
               destruct (init_loop l d r) as [[? ?] |]; simpl in Hinit; try discriminate
           | context [read_local ?n ?l] =>
               destruct l; simpl in Hinit; try discriminate
           | context [all_filled ?mk ?k ?l] =>
               destruct (all_filled mk k l) as [[| ? ?] |]; simpl in Hinit;
               try discriminate
           end;
    (injection Hinit as <-; simpl; split; [done | by destruct operators]).
Qed.

(** X5. A constructed operator is flagged linear exactly when every
    operator of the array is. *)
Theorem ProductSpaceOperator_init_linear operators dom ran (P : ProductSpaceOperator Elem) :
  ProductSpaceOperator_init operators dom ran = Ok P ->
  pso_linear P = true <->
  forall i j op, present operators i j op -> is_linear op = true.
Proof.
  intros Hinit.
  destruct (ProductSpaceOperator_init_Ok _ _ _ _ Hinit) as (Hrect & Hall & _).
  destruct (ProductSpaceOperator_init_Ok_flag _ _ _ _ Hinit) as [-> _].
  rewrite forallb_forall. split.
  - intros Hlin i j op Hp. apply (Hlin (i, j, op)).
    by apply list_elem_of_In, (present_coo _ _ _ _ _ Hall).
  - intros Hlin [[i j] op] Hin. apply (Hlin i j op).
    by apply (present_coo _ _ _ _ _ Hall), list_elem_of_In.
Qed.

(** The spaces an operator gets when [dom] and [ran] are omitted. *)
Lemma ProductSpaceOperator_init_inferred_Ok operators (P : ProductSpaceOperator Elem) :
  ProductSpaceOperator_init operators None None = Ok P ->
  exists dl rl,
    pso_domain P = ProductSpace dl /\ pso_range P = ProductSpace rl /\
    length dl = columns operators /\ length rl = length operators /\
    forall i j op, present operators i j op ->
      dl !! j = Some (domain op) /\ rl !! i = Some (range op).
Proof.
  intros Hinit.
  destruct (ProductSpaceOperator_init_Ok _ _ _ _ Hinit) as (Hrect & Hall & _).
  rewrite (ProductSpaceOperator_init_inferred _ _ Hrect Hall) in Hinit.
  pose proof (init_loop_inferred _ _ Hrect Hall) as Hinf.
  destruct (init_loop (ops P) _ _) as [[[ds' |] [rs' |]] | ex]; try done.
  destruct Hinf as (Hld & Hlr & Hslots). simpl in Hinit.
  pose proof (all_filled_spec ColEmpty 0 ds') as Hfd.
  destruct (all_filled ColEmpty 0 ds') as [dl |]; simpl in Hinit; [| done].
  destruct (decide (dl = [])) as [-> | Hdl]; [done |].
  rewrite (ProductSpace_new_Ok _ Hdl) in Hinit. simpl in Hinit.
  pose proof (all_filled_spec RowEmpty 0 rs') as Hfr.
  destruct (all_filled RowEmpty 0 rs') as [rl |]; simpl in Hinit; [| done].
  destruct (decide (rl = [])) as [-> | Hrl]; [done |].
  rewrite (ProductSpace_new_Ok _ Hrl) in Hinit. simpl in Hinit.
  injection Hinit as <-. simpl. exists dl, rl. subst ds' rs'.
  rewrite !length_fmap in *.
  rewrite rows_length in Hlr by (rewrite <- Hld; destruct dl; [done | simpl; lia]).
  split_and!; try done.
  intros i j op Hp. apply Hslots in Hp as [Hp1 Hp2].
  rewrite list_lookup_fmap in Hp1, Hp2.
  destruct (dl !! j), (rl !! i); by simplify_eq/=.
Qed.

(** [_apply] row by row, for any [out] with as many components as the
    range. *)
Lemma ProductSpaceOperator_apply_spec (P : ProductSpaceOperator Elem) x out :
  length out = space_size (pso_range P) ->
  (forall i j op, (i, j, op) ∈ ops P -> i < length out /\ j < length x) ->
  exists out',
    ProductSpaceOperator_apply P x out = Ok out' /\
    length out' = length out /\
    forall i oi, out !! i = Some oi ->
      out' !! i = Some (match row_blocks i (ops P) x with
                        | [] => set_zero oi
                        | v :: vs => foldl add v vs
                        end).
Proof.
  intros Hlen Hb. unfold ProductSpaceOperator_apply. rewrite <- Hlen.
  destruct (apply_loop_spec (ops P) x (replicate (length out) false) out)
    as (her' & out1 & Hrun & Hlh & Hlo & Hrows); [by rewrite length_replicate | done |].
  rewrite Hrun. simpl. rewrite length_replicate in Hlh.
  destruct (zero_loop_spec 0 her' out1) as (out' & Hrun' & Hlo' & Hrows'); [lia |].
  exists out'. split_and!; [done | lia |].
  intros i oi Hoi.
  destruct (Hrows i oi false Hoi) as [Hh1 Ho1].
  { apply lookup_replicate. split; [done |]. by eapply lookup_lt_Some. }
  rewrite (Hrows' i _ Ho1), Nat.sub_0_r, Hh1.
  by destruct (row_blocks i (ops P) x) as [| v vs].
Qed.

Lemma row_blocks_head (i : nat) ts x (v : Elem) (vs : list Elem) :
  row_blocks i ts x = v :: vs ->
  exists j op, (i, j, op) ∈ ts /\ v = call op (x !!! j).
Proof.
  unfold row_blocks. destruct (filter _ ts) as [| [[r j] op] l] eqn:Hf; [done |].
  intros [= <- _]. exists j, op.
  assert (Hin : (r, j, op) ∈ filter (fun t => t.1.1 = i) ts) by (rewrite Hf; by left).
  apply list_elem_of_filter in Hin as [Hr Hin]. simpl in Hr. by subst r.
Qed.

(** X6. On a constructed operator, for [x] in the domain and [out] in the
    range, the in-place evaluation leaves in [out] what the out-of-place
    evaluation returns, provided a zero added to an element of its space
    gives that element and every block maps into its range. *)
Theorem ProductSpaceOperator_apply_call operators dom ran
    (P : ProductSpaceOperator Elem) x out :
  ProductSpaceOperator_init operators dom ran = Ok P ->
  length x = length (space_parts (pso_domain P)) ->
  Forall2 (fun o s => space_of o = s) out (space_parts (pso_range P)) ->
  (forall v, add (zero (space_of v)) v = v) ->
  (forall i j op xj, present operators i j op -> x !! j = Some xj ->
     space_of (call op xj) = range op) ->
  ProductSpaceOperator_apply P x out = ProductSpaceOperator_call P x.
Proof.
  intros Hinit Hx Hout Hzero Hrange.
  destruct (ProductSpaceOperator_init_Ok _ _ _ _ Hinit)
    as (Hrect & Hall & dparts & rparts & Hdom & Hran & Hcases).
  rewrite Hdom in Hx. rewrite Hran in Hout. simpl in Hx, Hout.
  pose proof (Forall2_length _ _ _ Hout) as Hlen.
  assert (Hfacts : forall i j op, (i, j, op) ∈ ops P ->
            i < length rparts /\ j < length x /\ rparts !! i = Some (range op) /\
            present operators i j op).
  { intros i j op Hin. destruct Hcases as [Hnil | (-> & -> & Hld & Hlr)].
    - rewrite Hnil in Hin. by apply elem_of_nil in Hin.
    - destruct (ProductSpaceOperator_init_inferred_Ok _ _ Hinit)
        as (dl & rl & Hdom' & Hran' & _ & _ & Hslots).
      assert (dl = dparts) as -> by congruence. assert (rl = rparts) as -> by congruence.
      apply (present_coo _ _ _ _ _ Hall) in Hin. destruct (Hslots _ _ _ Hin) as [Hd Hr].
      split_and!; try done.
      + by eapply lookup_lt_Some.
      + rewrite Hx. by eapply lookup_lt_Some. }
  destruct (ProductSpaceOperator_apply_spec P x out) as (out' & -> & Hlo' & Hrows').
  { by rewrite Hran. }
  { intros i j op Hin. rewrite Hlen. destruct (Hfacts i j op Hin) as (? & ? & _). done. }
  unfold ProductSpaceOperator_call. rewrite Hran. simpl.
  destruct (call_loop_spec (ops P) x (zero <$> rparts)) as (outc & -> & Hlc & Hrowsc).
  { intros i j op Hin. rewrite length_fmap.
    destruct (Hfacts i j op Hin) as (? & ? & _). done. }
  f_equal. apply list_eq. intros i.
  destruct (rparts !! i) as [ri |] eqn:Hri.
  - destruct (Forall2_lookup_r _ _ _ _ _ Hout Hri) as (oi & Hoi & Hsp).
    rewrite (Hrows' i oi Hoi), (Hrowsc i (zero ri)) by (by rewrite list_lookup_fmap, Hri).
    f_equal. destruct (row_blocks i (ops P) x) as [| v vs] eqn:Hblocks; simpl.
    + unfold set_zero. by rewrite Hsp.
    + destruct (row_blocks_head _ _ _ _ _ Hblocks) as (j & op & Hin & ->).
      destruct (Hfacts i j op Hin) as (_ & Hj & Hr & Hp).
      destruct (lookup_lt_is_Some_2 x j Hj) as [xj Hxj].
      rewrite (list_lookup_total_correct _ _ _ Hxj).
      assert (ri = range op) as -> by congruence.
      rewrite <- (Hrange i j op xj Hp Hxj). by rewrite Hzero.
  - rewrite !(proj2 (lookup_ge_None _ _)); [done | |].
    + rewrite Hlc, length_fmap. by apply lookup_ge_None.
    + rewrite Hlo', Hlen. by apply lookup_ge_None.
Qed.

Lemma coo_rows_zero (k : nat) operators :
  Forall (Forall (fun e => e = Zero)) operators -> coo_rows k operators = [].
Proof.
  intros Hz. revert k. induction Hz as [| es operators Hes _ IH]; intros k; [done |].
  simpl. rewrite IH, app_nil_r. clear -Hes. generalize 0.
  induction Hes as [| e es -> _ IH]; intros c; [done |]. simpl. apply IH.
Qed.

(** X7. An array without operators is accepted with any explicit product
    spaces [dom] and [ran], whatever their numbers of components; the
    operator stores no block, [_call] returns the zero of the range for
    every [x], and [_apply] zeroes every component of [out]. *)
Theorem ProductSpaceOperator_init_zero operators (dparts rparts : list Space) :
  rectangular operators = true ->
  Forall (Forall (fun e => e = Zero)) operators ->
  exists P,
    ProductSpaceOperator_init operators
      (Some (ProductSpace dparts)) (Some (ProductSpace rparts)) = Ok P /\
    pso_domain P = ProductSpace dparts /\ pso_range P = ProductSpace rparts /\
    ops P = [] /\ pso_linear P = true /\
    (forall x, ProductSpaceOperator_call P x = Ok (zero <$> rparts)) /\
    (forall x out, length out = length rparts ->
       ProductSpaceOperator_apply P x out = Ok (set_zero <$> out)).
Proof.
  intros Hrect Hz.
  set (P := {| ops_shape := (rows operators, columns operators); ops := [];
               pso_domain := ProductSpace dparts; pso_range := ProductSpace rparts;
               pso_linear := true |} : ProductSpaceOperator Elem).
  exists P. split_and!; try done.
  - unfold ProductSpaceOperator_init, coo_matrix. rewrite Hrect. simpl.
    rewrite (coo_rows_zero 0 _ Hz). subst P. by destruct operators.
  - intros x out Hlen.
    destruct (ProductSpaceOperator_apply_spec P x out) as (out' & Hrun & Hlo & Hrows).
    { done. }
    { intros i j op Hin. by apply elem_of_nil in Hin. }
    rewrite Hrun. f_equal. apply list_eq. intros i.
    rewrite list_lookup_fmap. destruct (out !! i) as [oi |] eqn:Hoi; simpl.
    + by rewrite (Hrows i oi Hoi).
    + apply lookup_ge_None. rewrite Hlo. by apply lookup_ge_None.
Qed.

Lemma foldl_add_zip (z : Elem) (l k : list Elem) :
  (forall a b c, add (add a b) c = add a (add b c)) ->
  (forall a b, add a b = add b a) ->
  add z z = z ->
  length l = length k ->
  foldl add z (zip_with add l k) = add (foldl add z l) (foldl add z k).
Proof.
  intros Hassoc Hcomm Hz.
  assert (Hgen : forall l k u w, length l = length k ->
            foldl add (add u w) (zip_with add l k) = add (foldl add u l) (foldl add w k)).
  { clear l k. induction l as [| a l IH]; intros [| b k] u w Hlen; try done. simpl.
    rewrite <- IH by (simpl in Hlen; lia). f_equal.
    rewrite !Hassoc. f_equal. rewrite <- !Hassoc. f_equal. apply Hcomm. }
  intros Hlen. rewrite <- (Hgen l k z z Hlen). by rewrite Hz.
Qed.

Lemma row_blocks_add (i : nat) ts x y :
  length x = length y ->
  (forall r j op, (r, j, op) ∈ ts -> j < length x /\
     forall a b, call op (add a b) = add (call op a) (call op b)) ->
  row_blocks i ts (zip_with add x y)
  = zip_with add (row_blocks i ts x) (row_blocks i ts y).
Proof.
  intros Hlen Hts. unfold row_blocks.
  induction ts as [| [[r j] op] ts IH]; [done |].
  assert (Hrest : forall r' j' op', (r', j', op') ∈ ts -> j' < length x /\
            forall a b, call op' (add a b) = add (call op' a) (call op' b)).
  { intros r' j' op' Hin. apply (Hts r' j' op'). by right. }
  destruct (decide (r = i)) as [-> | Hne].
  - rewrite !filter_cons_True by done. rewrite !fmap_cons. simpl.
    rewrite IH by done. f_equal.
    destruct (Hts i j op) as [Hj Hadd]; [by left |].
    destruct (lookup_lt_is_Some_2 x j Hj) as [xj Hxj].
    destruct (lookup_lt_is_Some_2 y j ltac:(lia)) as [yj Hyj].
    rewrite (list_lookup_total_correct x _ _ Hxj), (list_lookup_total_correct y _ _ Hyj).
    rewrite (list_lookup_total_correct (zip_with add x y) j (add xj yj)); [apply Hadd |].
    apply lookup_zip_with_Some. by exists xj, yj.
  - rewrite !filter_cons_False by done. by apply IH.
Qed.

(** X8. When addition of elements is associative and commutative, the
    zeros are idempotent and every operator of the array is additive, the
    constructed operator is additive: on elements [x] and [y] of the domain
    [_call] of the componentwise sum is the componentwise sum of the
    results. *)
Theorem ProductSpaceOperator_call_additive operators dom ran
    (P : ProductSpaceOperator Elem) x y :
  ProductSpaceOperator_init operators dom ran = Ok P ->
  length x = length (space_parts (pso_domain P)) ->
  length y = length (space_parts (pso_domain P)) ->
  (forall a b c, add (add a b) c = add a (add b c)) ->
  (forall a b, add a b = add b a) ->
  (forall s, add (zero s) (zero s) = zero s) ->
  (forall i j op a b, present operators i j op ->
     call op (add a b) = add (call op a) (call op b)) ->
  exists ox oy,
    ProductSpaceOperator_call P x = Ok ox /\
    ProductSpaceOperator_call P y = Ok oy /\
    ProductSpaceOperator_call P (zip_with add x y) = Ok (zip_with add ox oy).
Proof.
  intros Hinit Hx Hy Hassoc Hcomm Hzero Hadd.
  destruct (ProductSpaceOperator_init_Ok _ _ _ _ Hinit)
    as (Hrect & Hall & dparts & rparts & Hdom & Hran & Hcases).
  rewrite Hdom in Hx, Hy. simpl in Hx, Hy.
  assert (Hfacts : forall i j op, (i, j, op) ∈ ops P ->
            i < length rparts /\ j < length x /\ present operators i j op).
  { intros i j op Hin. destruct Hcases as [Hnil | (-> & -> & Hld & Hlr)].
    - rewrite Hnil in Hin. by apply elem_of_nil in Hin.
    - apply (present_coo _ _ _ _ _ Hall) in Hin as Hp.
      destruct Hp as (es & Hes & Hl). split_and!.
      + rewrite Hlr. by eapply lookup_lt_Some.
      + rewrite Hx, Hld, <- (rectangular_length _ _ _ Hrect Hes). by eapply lookup_lt_Some.
      + by exists es. }
  assert (Hxy : length (zip_with add x y) = length x).
  { rewrite length_zip_with. lia. }
  unfold ProductSpaceOperator_call. rewrite Hran. simpl.
  destruct (call_loop_spec (ops P) x (zero <$> rparts)) as (ox & -> & Hlx & Hrx).
  { intros i j op Hin. rewrite length_fmap. destruct (Hfacts i j op Hin) as (? & ? & _).
    done. }
  destruct (call_loop_spec (ops P) y (zero <$> rparts)) as (oy & -> & Hly & Hry).
  { intros i j op Hin. rewrite length_fmap. destruct (Hfacts i j op Hin) as (? & ? & _).
    split; [done | lia]. }
  destruct (call_loop_spec (ops P) (zip_with add x y) (zero <$> rparts))
    as (oxy & -> & Hlxy & Hrxy).
  { intros i j op Hin. rewrite length_fmap, Hxy.
    destruct (Hfacts i j op Hin) as (? & ? & _). done. }
  exists ox, oy. split_and!; try done. f_equal. apply list_eq. intros i.
  rewrite lookup_zip_with. rewrite length_fmap in Hlx, Hly, Hlxy.
  destruct (rparts !! i) as [ri |] eqn:Hri.
  - assert (Hz : (zero <$> rparts) !! i = Some (zero ri)) by (by rewrite list_lookup_fmap, Hri).
    rewrite (Hrxy _ _ Hz), (Hrx _ _ Hz), (Hry _ _ Hz). simpl. f_equal.
    rewrite row_blocks_add.
    + apply foldl_add_zip; try done.
      unfold row_blocks. by rewrite !length_fmap.
    + lia.
    + intros r j op Hin. destruct (Hfacts r j op Hin) as (_ & Hj & Hp). split; [done |].
      intros a b. by eapply Hadd.
  - apply lookup_ge_None in Hri.
    rewrite (proj2 (lookup_ge_None oxy i)) by lia.
    by rewrite (proj2 (lookup_ge_None ox i)) by lia.
Qed.

End EvaluationBehaviour.

(** ** The adjoint of a projection *)

Section ProjectionBehaviour.
Context `{ProductIndexing Index Element}.

(** X9. For every space [S] and index [I] for which
    [ComponentProjectionAdjoint(S, I)] can be built, its adjoint is a
    projection with domain and range swapped, and the adjoint of that
    projection is an operator with the index, domain, range and action
    ([_call] and [_apply]) of the one started from. *)
Theorem ComponentProjectionAdjoint_adjoint_adjoint (S : Space) (I : Index)
    (a : ComponentProjectionAdjoint Index) :
  ComponentProjectionAdjoint_init S I = Ok a ->
  exists (p : ComponentProjection Index) (a' : ComponentProjectionAdjoint Index),
    ComponentProjectionAdjoint_adjoint a = Ok p /\
    cp_domain p = cpa_range a /\ cp_range p = cpa_domain a /\ cp_index p = cpa_index a /\
    ComponentProjection_adjoint p = Ok a' /\
    cpa_index a' = cpa_index a /\
    cpa_domain a' = cpa_domain a /\
    cpa_range a' = cpa_range a /\
    (forall x, ComponentProjectionAdjoint_call a' x = ComponentProjectionAdjoint_call a x) /\
    (forall x out,
        ComponentProjectionAdjoint_apply a' x out = ComponentProjectionAdjoint_apply a x out).
Proof.
  unfold ComponentProjectionAdjoint_init. intros Ha.
  apply bind_Ok in Ha as (sub & Hsub & Ha). injection Ha as <-.
  exists {| cp_index := I; cp_domain := S; cp_range := sub |},
         {| cpa_index := I; cpa_domain := sub; cpa_range := S |}.
  unfold ComponentProjectionAdjoint_adjoint, ComponentProjection_adjoint,
    ComponentProjection_init, ComponentProjectionAdjoint_init. simpl.
  rewrite Hsub. simpl. split_and!; done.
Qed.

End ProjectionBehaviour.

(** ** Exceptions and the history of the solvers *)

Section SolverBehaviour.
Context `{Scalar K, LinearSpaceElement K E, LinearSolver E}.
Implicit Types (g f : Gradient E) (line_search : E -> E -> K -> K) (tol : K).
Implicit Types (alphas rhos : list K).

Lemma bfgs_backward_Ok (s y : list E) (idx : list nat) (r : E) alphas rhos :
  Forall (fun i => i < length s /\ i < length y /\
                   i < length alphas /\ i < length rhos) idx ->
  exists r' alphas' rhos',
    bfgs_backward s y idx r alphas rhos = Ok (r', alphas', rhos') /\
    length alphas' = length alphas /\ length rhos' = length rhos.
Proof.
  revert r alphas rhos. induction idx as [| i idx IH]; intros r alphas rhos Hidx.
  - exists r, alphas, rhos. done.
  - apply Forall_cons in Hidx as [(Hs & Hy & Ha & Hr) Hidx].
    destruct (lookup_lt_is_Some_2 s i Hs) as [si Hsi].
    destruct (lookup_lt_is_Some_2 y i Hy) as [yi Hyi].
    simpl. rewrite (getitem_lookup _ _ _ Hyi). simpl.
    rewrite (getitem_lookup _ _ _ Hsi). simpl.
    rewrite setitem_Ok by done. simpl.
    rewrite (getitem_lookup _ i (kdiv kone (inner yi si)))
      by (by apply list_lookup_insert_eq).
    simpl. rewrite setitem_Ok by (by rewrite ?length_insert). simpl.
    rewrite (getitem_lookup _ i (kmul (kdiv kone (inner yi si)) (inner si r)))
      by (by apply list_lookup_insert_eq).
    simpl.
    edestruct IH as (r' & al & rh & -> & Hal & Hrh).
    { eapply Forall_impl; [exact Hidx |]. intros j. rewrite !length_insert. done. }
    exists r', al, rh. rewrite Hal, Hrh, !length_insert. done.
Qed.

Lemma bfgs_forward_Ok (s y : list E) (idx : list nat) (r : E) alphas rhos :
  Forall (fun i => i < length s /\ i < length y /\
                   i < length alphas /\ i < length rhos) idx ->
  exists r', bfgs_forward s y idx r alphas rhos = Ok r'.
Proof.
  revert r. induction idx as [| i idx IH]; intros r Hidx; [by eexists |].
  apply Forall_cons in Hidx as [(Hs & Hy & Ha & Hr) Hidx].
  destruct (lookup_lt_is_Some_2 s i Hs) as [si Hsi].
  destruct (lookup_lt_is_Some_2 y i Hy) as [yi Hyi].
  destruct (lookup_lt_is_Some_2 alphas i Ha) as [ai Hai].
  destruct (lookup_lt_is_Some_2 rhos i Hr) as [ri Hri].
  simpl. rewrite (getitem_lookup _ _ _ Hri). simpl.
  rewrite (getitem_lookup _ _ _ Hyi). simpl.
  rewrite (getitem_lookup _ _ _ Hai). simpl.
  rewrite (getitem_lookup _ _ _ Hsi). simpl. by apply IH.
Qed.

Lemma _bfgs_multiply_Ok (s y : list E) (x : E) (hessinv_estimate : option (E -> E)) :
  length s = length y -> exists r, _bfgs_multiply s y x hessinv_estimate = Ok r.
Proof.
  unfold _bfgs_multiply. intros Hlen. rewrite Hlen, Nat.eqb_refl. simpl.
  assert (Hidx : forall idx (al rh : list K), Forall (fun i => i < length y) idx ->
            length al = length y -> length rh = length y ->
            Forall (fun i => i < length s /\ i < length y /\
                             i < length al /\ i < length rh) idx).
  { intros idx al rh Hidx Hal Hrh. eapply Forall_impl; [exact Hidx |].
    intros i Hi. simpl in Hi. lia. }
  assert (Hseq : Forall (fun i => i < length y) (seq 0 (length y))).
  { apply Forall_forall. intros i Hi. apply list_elem_of_In, in_seq in Hi. lia. }
  edestruct (bfgs_backward_Ok s y (reverse (seq 0 (length y))) x)
    as (r' & al & rh & -> & Hal & Hrh).
  { apply Hidx; [by apply Forall_reverse | by rewrite length_replicate ..]. }
  simpl. rewrite length_replicate in Hal, Hrh.
  apply bfgs_forward_Ok. by apply Hidx.
Qed.

(** X10. When the two lists pair up and no pair has a zero inner product
    (the divisor of [1.0 / y[i].inner(s[i])]), [_bfgs_multiply] returns a
    vector: no index is out of range.  When the lengths of the lists differ
    it fails with its assertion, whatever the lists hold. *)
Theorem _bfgs_multiply_assertion (s y : list E) (x : E) (hessinv_estimate : option (E -> E)) :
  (Forall2 (fun si yi => inner yi si <> kzero) s y ->
   exists r, _bfgs_multiply s y x hessinv_estimate = Ok r) /\
  (length s <> length y -> _bfgs_multiply s y x hessinv_estimate = Raise AssertionError).
Proof.
  split.
  - intros Hpairs. apply _bfgs_multiply_Ok. by eapply Forall2_length.
  - unfold _bfgs_multiply. intros Hlen. apply Nat.eqb_neq in Hlen. by rewrite Hlen.
Qed.

Lemma for_range_Ok_inv {S : Type} (Inv : S -> Prop) (n : nat)
    (body : S -> result (Outcome S)) (st0 : S) :
  Inv st0 ->
  (forall st : S, Inv st ->
     exists o, body st = Ok o /\
               Inv (match o with Return st' => st' | Continue st' => st' end)) ->
  exists st1 : S, for_range n body st0 = Ok st1 /\ Inv st1.
Proof.
  intros Hs Hbody. revert st0 Hs.
  induction n as [| n IH]; intros st0 Hs; [by exists st0 |].
  destruct (Hbody st0 Hs) as ([st1 | st1] & Hb & Hs'); simpl; rewrite Hb; simpl.
  - by exists st1.
  - by apply IH.
Qed.

Lemma length_slice_from {A B : Type} (start : Z) (l : list A) (k : list B) :
  length l = length k -> length (slice_from start l) = length (slice_from start k).
Proof. intros Hlen. unfold slice_from. by rewrite !length_drop, Hlen. Qed.

Lemma Forall2_slice_from {A B : Type} (P : A -> B -> Prop) (start : Z)
    (l : list A) (k : list B) :
  Forall2 P l k -> Forall2 P (slice_from start l) (slice_from start k).
Proof.
  intros Hlk. unfold slice_from. rewrite (Forall2_length _ _ _ Hlk).
  by apply Forall2_drop.
Qed.

(** A pass of [bfgs_method] keeps the stored pairs with a non-zero inner
    product, under a tolerance that zero does not pass. *)
Lemma bfgs_body_divisors g line_search tol (maxcor : option Z)
    (hessinv_estimate : option (E -> E)) (callback : bool) (st : BfgsState E) :
  (forall b : K, klt (kabs b) tol = false -> b <> kzero) ->
  Forall2 (fun si yi => inner yi si <> kzero) (bfgs_ys st) (bfgs_ss st) ->
  exists o,
    bfgs_body g line_search tol maxcor hessinv_estimate callback st = Ok o /\
    Forall2 (fun si yi => inner yi si <> kzero)
      (bfgs_ys (state_of o)) (bfgs_ss (state_of o)).
Proof.
  intros Htol Hpairs. unfold bfgs_body, bfgs_search_dir.
  destruct (_bfgs_multiply_Ok (bfgs_ys st) (bfgs_ss st) (bfgs_grad_x st)
              hessinv_estimate (Forall2_length _ _ _ Hpairs)) as [r ->].
  simpl. destruct (klt _ tol); [by eexists |].
  destruct (klt _ tol) eqn:Hguard; [by eexists |].
  eexists. split; [done |]. simpl.
  assert (Happ : Forall2 (fun si yi => inner yi si <> kzero)
            (bfgs_ys st ++ [scal (line_search (bfgs_x st) (neg r)
                                    (inner (neg r) (bfgs_grad_x st))) (neg r)])
            (bfgs_ss st ++ [lincomb (kopp kone) (bfgs_grad_x st) kone
                              (grad g (plus (bfgs_x st)
                                 (scal (line_search (bfgs_x st) (neg r)
                                          (inner (neg r) (bfgs_grad_x st))) (neg r))))])).
  { apply Forall2_app; [done |]. constructor; [| constructor]. by apply Htol. }
  destruct maxcor as [m |]; [by apply Forall2_slice_from | done].
Qed.

(** X11. For [x] in the domain of the gradient, a numeric [line_search]
    and a tolerance that zero does not pass, [bfgs_method] neither divides
    by zero nor fails the assertion of [_bfgs_multiply]: in every state its
    loop reaches, and in the state in which it returns, the stored lists
    pair up and every pair has a non-zero inner product (the divisor of
    [_bfgs_multiply]), the search direction is computed, and the method
    returns, for every number of iterations, [maxcor], [hessinv_estimate]
    and callback. *)
Theorem bfgs_method_divisors (f : Gradient E) (x : E) (a : K) (maxiter : Z) tol
    (maxcor : option Z) (hessinv_estimate : option (E -> E)) (callback : bool) :
  (forall b : K, klt (kabs b) tol = false -> b <> kzero) ->
  grad_domain_contains f x = true ->
  let body := bfgs_body f (as_callable (Number a)) tol maxcor hessinv_estimate callback in
  let start := {| bfgs_x := x; bfgs_grad_x := grad f x; bfgs_ys := []; bfgs_ss := [];
                  bfgs_calls := [] |} in
  (forall st, iterates body start st ->
     Forall2 (fun si yi => inner yi si <> kzero) (bfgs_ys st) (bfgs_ss st) /\
     exists d, bfgs_search_dir hessinv_estimate st = Ok d) /\
  exists st,
    bfgs_method f x (Number a) maxiter tol maxcor hessinv_estimate callback = Ok st /\
    Forall2 (fun si yi => inner yi si <> kzero) (bfgs_ys st) (bfgs_ss st).
Proof.
  intros Htol Hdom body start. split.
  - assert (Hinv : forall st, iterates body start st ->
              Forall2 (fun si yi => inner yi si <> kzero) (bfgs_ys st) (bfgs_ss st)).
    { assert (Hgen : forall st0 st,
                Forall2 (fun si yi => inner yi si <> kzero) (bfgs_ys st0) (bfgs_ss st0) ->
                iterates body st0 st ->
                Forall2 (fun si yi => inner yi si <> kzero) (bfgs_ys st) (bfgs_ss st)).
      { intros st0 st H0' Hit. induction Hit as [st | st st' st'' _ IH Hb]; [done |].
        destruct (bfgs_body_divisors f (as_callable (Number a)) tol maxcor
                    hessinv_estimate callback st' Htol (IH H0')) as (o & Ho & Hpairs).
        unfold body in Hb. rewrite Hb in Ho. by injection Ho as <-. }
      intros st. apply Hgen. constructor. }
    intros st Hit. split; [by apply Hinv |].
    unfold bfgs_search_dir.
    destruct (_bfgs_multiply_Ok (bfgs_ys st) (bfgs_ss st) (bfgs_grad_x st)
                hessinv_estimate (Forall2_length _ _ _ (Hinv st Hit))) as [r ->].
    by eexists.
  - unfold bfgs_method. rewrite Hdom. simpl.
    apply (for_range_Ok_inv
             (fun st : BfgsState E =>
                Forall2 (fun si yi => inner yi si <> kzero) (bfgs_ys st) (bfgs_ss st)));
      [constructor |].
    intros st Hpairs. by apply bfgs_body_divisors.
Qed.

Lemma for_range_ext {S : Type} (n : nat) (body body' : S -> result (Outcome S)) (st0 : S) :
  (forall st : S, body st = body' st) ->
  for_range n body st0 = for_range n body' st0.
Proof.
  intros Hext. revert st0. induction n as [| n IH]; intros st0; [done |].
  simpl. rewrite Hext. destruct (body' st0) as [[st1 | st1] |]; simpl; [done | | done].
  apply IH.
Qed.

Lemma slice_from_zero {A : Type} (l : list A) : slice_from 0 l = l.
Proof.
  unfold slice_from, slice_start. cbv zeta.
  replace (Z.to_nat _) with 0; [done |]. simpl. lia.
Qed.

(** X12. [maxcor = 0] does not empty the history: the slice [l[-0:]] is
    all of [l], and [bfgs_method] with [maxcor = 0] is [bfgs_method] with
    [maxcor] unset. *)
Theorem bfgs_method_maxcor_zero (f : Gradient E) (x : E) (line_search : LineSearch K E)
    (maxiter : Z) tol (hessinv_estimate : option (E -> E)) (callback : bool) :
  bfgs_method f x line_search maxiter tol (Some 0%Z) hessinv_estimate callback
  = bfgs_method f x line_search maxiter tol None hessinv_estimate callback.
Proof.
  unfold bfgs_method. destruct (negb (grad_domain_contains f x)); [done |].
  apply for_range_ext. intros st. unfold bfgs_body.
  destruct (bfgs_search_dir hessinv_estimate st) as [d |]; simpl; [| done].
  destruct (klt _ tol); [done |]. destruct (klt _ tol); [done |].
  change (- 0)%Z with 0%Z. by rewrite !slice_from_zero.
Qed.

Lemma slice_from_singleton {A : Type} (m : Z) (a : A) :
  (m < 0)%Z -> slice_from (- m) [a] = [].
Proof.
  intros Hm. unfold slice_from, slice_start. cbv zeta. simpl length.
  destruct (- m <? 0)%Z eqn:Hneg; [apply Z.ltb_lt in Hneg; lia |].
  replace (Z.to_nat (Z.min (- m) (Z.of_nat 1))) with 1 by lia. done.
Qed.

(** X13. With a negative [maxcor] the slice drops every pair that is
    appended: the history is empty in every state the loop reaches and in
    the state in which [bfgs_method] returns, and every search direction is
    the negated gradient, passed through [hessinv_estimate] when one is
    given. *)
Theorem bfgs_method_maxcor_negative (f : Gradient E) (x : E)
    (line_search : LineSearch K E) (maxiter : Z) tol (m : Z)
    (hessinv_estimate : option (E -> E)) (callback : bool) :
  (m < 0)%Z ->
  let body := bfgs_body f (as_callable line_search) tol (Some m) hessinv_estimate callback in
  let start := {| bfgs_x := x; bfgs_grad_x := grad f x; bfgs_ys := []; bfgs_ss := [];
                  bfgs_calls := [] |} in
  (forall st, iterates body start st ->
     bfgs_ys st = [] /\ bfgs_ss st = [] /\
     bfgs_search_dir hessinv_estimate st
     = Ok (neg (match hessinv_estimate with
                | Some h => h (bfgs_grad_x st)
                | None => bfgs_grad_x st
                end))) /\
  (forall st,
     bfgs_method f x line_search maxiter tol (Some m) hessinv_estimate callback = Ok st ->
     bfgs_ys st = [] /\ bfgs_ss st = []).
Proof.
  intros Hm body start.
  assert (Hgen : forall st0 st, bfgs_ys st0 = [] -> bfgs_ss st0 = [] ->
            iterates body st0 st -> bfgs_ys st = [] /\ bfgs_ss st = []).
  { intros st0 st Hy0 Hs0 Hit. induction Hit as [st | st st' st'' _ IH Hb]; [done |].
    destruct (IH Hy0 Hs0) as [Hy Hs].
    apply bfgs_body_Continue in Hb as (d & _ & _ & _ & _ & Hy' & Hs' & _).
    rewrite Hy', Hs', Hy, Hs. simpl. by rewrite !slice_from_singleton. }
  assert (Hempty : forall st, iterates body start st -> bfgs_ys st = [] /\ bfgs_ss st = []).
  { intros st. by apply Hgen. }
  split.
  - intros st Hit. destruct (Hempty st Hit) as [Hy Hs]. split_and!; try done.
    unfold bfgs_search_dir, _bfgs_multiply. rewrite Hy, Hs. by destruct hessinv_estimate.
  - intros st. unfold bfgs_method.
    destruct (negb (grad_domain_contains f x)); [done |].
    intros Hrun. apply for_range_iterates in Hrun as (st1 & Hit & Hlast).
    destruct (Hempty st1 Hit) as [Hy Hs].
    destruct Hlast as [-> | Hret]; [done |].
    apply bfgs_body_Return_history in Hret as [-> ->]. done.
Qed.

Lemma for_range_measure {S : Type} (measure : S -> nat) (n : nat)
    (body : S -> result (Outcome S)) (st0 st1 : S) :
  (forall (st : S) o, body st = Ok o ->
     match o with
     | Return st' => measure st' <= measure st
     | Continue st' => measure st' <= Datatypes.S (measure st)
     end) ->
  for_range n body st0 = Ok st1 ->
  measure st1 <= n + measure st0.
Proof.
  intros Hstep. revert st0. induction n as [| n IH]; intros st0; simpl.
  - intros [= <-]. lia.
  - destruct (body st0) as [[st2 | st2] |] eqn:Hb; simpl; [| | done].
    + intros [= <-]. specialize (Hstep _ _ Hb). simpl in Hstep. lia.
    + intros Hrun. apply IH in Hrun. specialize (Hstep _ _ Hb). simpl in Hstep. lia.
Qed.

Lemma length_invoke (callback : bool) (calls : list E) (x : E) :
  length (invoke callback calls x) <= Datatypes.S (length calls).
Proof. destruct callback; simpl; [rewrite length_app; simpl |]; lia. Qed.

(** X14. Each solver invokes the callback at most [maxiter] times (never
    for a non-positive [maxiter]). *)
Theorem callback_invocations_bounded (f : Gradient E) (x : E)
    (line_search : LineSearch K E) (maxiter : Z) tol (callback : bool) :
  (forall cg_iter st,
      newtons_method f x line_search maxiter tol cg_iter callback = Ok st ->
      length (newton_calls st) <= Z.to_nat maxiter) /\
  (forall maxcor hessinv_estimate st,
      bfgs_method f x line_search maxiter tol maxcor hessinv_estimate callback = Ok st ->
      length (bfgs_calls st) <= Z.to_nat maxiter) /\
  (forall impl st,
      broydens_method f x line_search impl maxiter tol callback = Ok st ->
      length (broyden_calls st) <= Z.to_nat maxiter).
Proof.
  unfold newtons_method, bfgs_method, broydens_method.
  destruct (negb (grad_domain_contains f x)); [done |]. split_and!.
  - intros cg_iter st Hrun.
    apply (for_range_measure (fun s => length (newton_calls s))) in Hrun;
      [simpl in Hrun; lia |].
    intros s o. unfold newton_body. destruct (kle _ tol); intros [= <-]; [done |].
    apply length_invoke.
  - intros maxcor hessinv_estimate st Hrun.
    apply (for_range_measure (fun s => length (bfgs_calls s))) in Hrun;
      [simpl in Hrun; lia |].
    intros s o. unfold bfgs_body.
    destruct (bfgs_search_dir hessinv_estimate s) as [d |]; simpl; [| done].
    destruct (klt _ tol); [by intros [= <-] |].
    destruct (klt _ tol); intros [= <-]; [done |]. apply length_invoke.
  - intros impl st Hrun.
    apply (for_range_measure (fun s => length (broyden_calls s))) in Hrun;
      [simpl in Hrun; lia |].
    intros s o. unfold broyden_body.
    destruct (klt _ tol); [by intros [= <-] |].
    destruct (String.eqb impl "first").
    { destruct (klt _ tol); intros [= <-]; [done |]. apply length_invoke. }
    destruct (String.eqb impl "second").
    { destruct (klt _ tol); intros [= <-]; [done |]. apply length_invoke. }
    intros [= <-]. apply length_invoke.
Qed.

(** X15. With a callback, the point [newtons_method] returns is the last
    point it showed to the callback, or the start point when it showed
    none: no step is taken behind the callback's back. *)
Theorem newtons_method_last_call (f : Gradient E) (x : E) (line_search : LineSearch K E)
    (maxiter : Z) tol (cg_iter : option nat) (st : NewtonState E) :
  newtons_method f x line_search maxiter tol cg_iter true = Ok st ->
  newton_x st = default x (last (newton_calls st)).
Proof.
  unfold newtons_method. destruct (negb (grad_domain_contains f x)); [done |].
  intros Hrun.
  edestruct (for_range_Ok_inv
               (fun s : NewtonState E => newton_x s = default x (last (newton_calls s))))
    as (st' & Hrun' & Hinv); [| | rewrite Hrun in Hrun'; injection Hrun' as <-; exact Hinv].
  - done.
  - intros s Hs. unfold newton_body. destruct (kle _ tol); eexists; (split; [done |]).
    + done.
    + simpl. by rewrite last_snoc.
Qed.

End SolverBehaviour.

(** ** The update of the Hessian estimate in [broydens_method] *)

Section HessianUpdate.
Context `{ExactArithmetic K E}.

(** X16. In exact arithmetic and with a tolerance that only lets
    invertible divisors through, an iteration of [broydens_method] that
    updates the estimate ([impl] 'first' or 'second') leaves an estimate
    that maps the change of the gradient to the search direction of that
    iteration. *)
Theorem broyden_update_secant (g : Gradient E) (line_search : E -> E -> K -> K)
    (impl : string) (tol : K) (callback : bool) (st st' : BroydenState E) :
  (forall a : K, klt (kabs a) tol = false -> kmul a (kdiv kone a) = kone) ->
  impl = "first" \/ impl = "second" ->
  broyden_body g line_search impl tol callback st = Ok (Continue st') ->
  hess_call (broyden_hess st') (minus (broyden_grad_x st') (broyden_grad_x st))
  = neg (hess_call (broyden_hess st) (broyden_grad_x st)).
Proof.
  intros Hinv Himpl. unfold broyden_body.
  destruct (klt _ tol); [done |].
  destruct Himpl as [-> | ->]; simpl.
  - destruct (klt _ tol) eqn:Hdiv; [done |]. intros [= <-]. simpl.
    rewrite scal_scal, (inner_comm (hess_call _ _)), (Hinv _ Hdiv), scal_one.
    apply plus_minus.
  - destruct (klt _ tol) eqn:Hdiv; [done |]. intros [= <-]. simpl.
    rewrite scal_scal, (Hinv _ Hdiv), scal_one.
    apply plus_minus.
Qed.

End HessianUpdate.

#[global] Instance Qc_ExactArithmetic : ExactArithmetic Qc Qc.
Proof.
  split; simpl; intros; ring.
Qed.

Lemma Qc_invertible_outside_tol (a : Qc) :
  klt (kabs a) (Q2Qc (1 # 2)) = false -> kmul a (kdiv kone a) = kone.
Proof.
  simpl. intros Hlt.
  assert (Ha : a <> Q2Qc 0).
  { intros ->. done. }
  unfold Qcdiv. rewrite Qcmult_1_l. by apply Qcmult_inv_r.
Qed.

Lemma broyden_update_secant_witness :
  let st := {| broyden_x := Q2Qc 1; broyden_grad_x := Q2Qc 2;
               broyden_hess := IdentityOperator; broyden_calls := [] |} in
  exists st',
    broyden_body square_on_line (fun _ _ _ => Q2Qc 1) "first" (Q2Qc (1 # 2)) true st
    = Ok (Continue st') /\
    hess_call (broyden_hess st') (minus (broyden_grad_x st') (broyden_grad_x st))
    = neg (hess_call (broyden_hess st) (broyden_grad_x st)).
Proof.
  intros st. eexists. split; [reflexivity |].
  apply (broyden_update_secant square_on_line (fun _ _ _ => Q2Qc 1) "first" (Q2Qc (1 # 2)) true);
    [apply Qc_invertible_outside_tol | by left | reflexivity].
Defined.

(** ** Accepted arrays, and arguments of the wrong size *)

Section EvaluationBounds.
Context `{ComponentElement Elem}.
Implicit Types (op : Operator Elem) (ts : list (nat * nat * Operator Elem)).
Implicit Types (operators : list (list (Entry Elem))) (x out : list Elem).

Lemma ProductSpaceOperator_init_Ok_array operators (P : ProductSpaceOperator Elem) :
  ProductSpaceOperator_init operators None None = Ok P ->
  rectangular operators = true /\
  Forall (Forall (fun e => e <> Other)) operators /\
  consistent operators /\
  (forall j, j < columns operators -> exists i op, present operators i j op) /\
  (forall i, i < length operators -> exists j op, present operators i j op).
Proof.
  intros Hinit.
  destruct (ProductSpaceOperator_init_Ok _ _ _ _ Hinit) as (Hrect & Hall & _).
  pose proof (all_operators_no_other _ _ Hall) as Hno.
  destruct (ProductSpaceOperator_init_inferred_Ok _ _ Hinit)
    as (dl & rl & _ & _ & _ & _ & Hslots).
  assert (Hcons : consistent operators).
  { split.
    - intros i1 i2 j op1 op2 H1 H2.
      apply Hslots in H1 as [H1 _]. apply Hslots in H2 as [H2 _]. congruence.
    - intros i j1 j2 op1 op2 H1 H2.
      apply Hslots in H1 as [_ H1]. apply Hslots in H2 as [_ H2]. congruence. }
  pose proof (ProductSpaceOperator_init_consistent _ Hrect Hno Hcons) as Hout.
  rewrite Hinit in Hout. destruct Hout as (_ & Hc & Hr & _). done.
Qed.

(** X17. With [dom] and [ran] omitted, the constructor accepts only
    rectangular arrays of operators and zeros that are consistent and have
    an operator in every column and in every row. *)
Theorem ProductSpaceOperator_init_accepts_only operators (P : ProductSpaceOperator Elem) :
  ProductSpaceOperator_init operators None None = Ok P ->
  rectangular operators = true /\
  Forall (Forall (fun e => e <> Other)) operators /\
  consistent operators /\
  (forall j, j < columns operators -> ~ column_empty operators j) /\
  (forall i, i < length operators -> ~ row_empty operators i).
Proof.
  intros Hinit.
  destruct (ProductSpaceOperator_init_Ok_array _ _ Hinit) as (Hrect & Hno & Hcons & Hc & Hr).
  split_and!; try done.
  - intros j Hj Hempty. destruct (Hc j Hj) as (i & op & Hp). by apply (Hempty i op).
  - intros i Hi Hempty. destruct (Hr i Hi) as (j & op & Hp). by apply (Hempty j op).
Qed.

Lemma call_loop_short ts x out :
  (forall i j op, (i, j, op) ∈ ts -> i < length out) ->
  (exists i j op, (i, j, op) ∈ ts /\ length x <= j) ->
  call_loop ts x out = Raise IndexError.
Proof.
  revert out. induction ts as [| [[r c] op] ts IH]; intros out Hb (i & j & op' & Hin & Hj).
  - by apply elem_of_nil in Hin.
  - destruct (lookup_lt_is_Some_2 out r) as [o_r Ho_r]; [apply (Hb r c op); by left |].
    simpl. rewrite (getitem_lookup _ _ _ Ho_r). simpl.
    destruct (x !! c) as [x_c |] eqn:Hx_c.
    + rewrite (getitem_lookup _ _ _ Hx_c). simpl. apply IH.
      * intros i' j' op'' Hin'. rewrite length_insert. apply (Hb i' j' op''). by right.
      * apply elem_of_cons in Hin as [[= -> -> ->] | Hin].
        -- apply lookup_lt_Some in Hx_c. lia.
        -- by exists i, j, op'.
    + unfold getitem. by rewrite Hx_c.
Qed.

Lemma apply_loop_short ts x (her : list bool) out :
  length her = length out ->
  (forall i j op, (i, j, op) ∈ ts -> i < length out) ->
  (exists i j op, (i, j, op) ∈ ts /\ length x <= j) ->
  apply_loop ts x her out = Raise IndexError.
Proof.
  revert her out.
  induction ts as [| [[r c] op] ts IH]; intros her out Hlen Hb (i & j & op' & Hin & Hj).
  - by apply elem_of_nil in Hin.
  - assert (Hr : r < length out) by (apply (Hb r c op); by left).
    destruct (lookup_lt_is_Some_2 out r Hr) as [o_r Ho_r].
    destruct (lookup_lt_is_Some_2 her r ltac:(lia)) as [b_r Hb_r].
    simpl. rewrite (getitem_lookup _ _ _ Hb_r). simpl.
    rewrite (getitem_lookup _ _ _ Ho_r).
    destruct (x !! c) as [x_c |] eqn:Hx_c.
    + rewrite (getitem_lookup _ _ _ Hx_c).
      assert (Hrest : exists i j op, (i, j, op) ∈ ts /\ length x <= j).
      { apply elem_of_cons in Hin as [[= -> -> ->] | Hin].
        - apply lookup_lt_Some in Hx_c. lia.
        - by exists i, j, op'. }
      destruct b_r; simpl; apply IH; try done; rewrite ?length_insert; try done;
        intros i' j' op'' Hin'; apply (Hb i' j' op''); by right.
    + unfold getitem. rewrite Hx_c. by destruct b_r.
Qed.

(** X18. On an operator built with [dom] and [ran] omitted, [_call]
    returns for every [x] with at least as many components as the array has
    columns (further components are not read), and [_call] and [_apply]
    raise [IndexError] for an [x] with fewer components. *)
Theorem ProductSpaceOperator_call_short operators (P : ProductSpaceOperator Elem) x :
  ProductSpaceOperator_init operators None None = Ok P ->
  (columns operators <= length x ->
   exists r, ProductSpaceOperator_call P x = Ok r /\ length r = length operators /\
             ProductSpaceOperator_call P (take (columns operators) x) = Ok r) /\
  (length x < columns operators ->
   ProductSpaceOperator_call P x = Raise IndexError /\
   forall out, length out = length operators ->
     ProductSpaceOperator_apply P x out = Raise IndexError).
Proof.
  intros Hinit.
  destruct (ProductSpaceOperator_init_Ok _ _ _ _ Hinit) as (Hrect & Hall & _).
  destruct (ProductSpaceOperator_init_inferred_Ok _ _ Hinit)
    as (dl & rl & Hdom & Hran & Hld & Hlr & Hslots).
  destruct (ProductSpaceOperator_init_Ok_array _ _ Hinit) as (_ & _ & _ & Hc & _).
  assert (Hrows : forall i j op, (i, j, op) ∈ ops P ->
            i < length rl /\ j < columns operators).
  { intros i j op Hin. apply (present_coo _ _ _ _ _ Hall) in Hin.
    apply Hslots in Hin as [Hj Hi]. rewrite <- Hld.
    split; by eapply lookup_lt_Some. }
  unfold ProductSpaceOperator_call, ProductSpaceOperator_apply. rewrite Hran. simpl.
  split.
  - intros Hlen.
    destruct (call_loop_spec (ops P) x (zero <$> rl)) as (r & Hr & Hlo & Hvals).
    { intros i j op Hin. rewrite length_fmap. destruct (Hrows i j op Hin). lia. }
    destruct (call_loop_spec (ops P) (take (columns operators) x) (zero <$> rl))
      as (r' & Hr' & Hlo' & Hvals').
    { intros i j op Hin. rewrite length_fmap, length_take.
      destruct (Hrows i j op Hin). lia. }
    rewrite length_fmap in Hlo, Hlo'.
    exists r. split_and!; [done | lia |]. rewrite Hr'. f_equal.
    apply list_eq. intros i. destruct (rl !! i) as [ri |] eqn:Hri.
    + assert (Hz : (zero <$> rl) !! i = Some (zero ri)) by (by rewrite list_lookup_fmap, Hri).
      rewrite (Hvals _ _ Hz), (Hvals' _ _ Hz). do 2 f_equal.
      unfold row_blocks. apply list_fmap_ext. intros k [[i' j] op] Hk. simpl.
      assert (Hin : (i', j, op) ∈ ops P).
      { apply list_elem_of_lookup_2 in Hk. by apply list_elem_of_filter in Hk as [_ Hk]. }
      destruct (Hrows i' j op Hin) as [_ Hj].
      rewrite !list_lookup_total_alt. by rewrite lookup_take_lt.
    + apply lookup_ge_None in Hri.
      by rewrite !(proj2 (lookup_ge_None _ _)) by lia.
  - intros Hlen.
    assert (Hex : exists i j op, (i, j, op) ∈ ops P /\ length x <= j).
    { destruct (Hc (length x) Hlen) as (i & op & Hp).
      exists i, (length x), op. split; [| done]. by apply (present_coo _ _ _ _ _ Hall). }
    split.
    + apply call_loop_short; [| done].
      intros i j op Hin. rewrite length_fmap. by destruct (Hrows i j op Hin).
    + intros out Hout. rewrite apply_loop_short; try done.
      * rewrite length_replicate. lia.
      * intros i j op Hin. destruct (Hrows i j op Hin). lia.
Qed.

Lemma ProductSpaceOperator_init_bounds operators dom ran (P : ProductSpaceOperator Elem) :
  ProductSpaceOperator_init operators dom ran = Ok P ->
  forall i j op, (i, j, op) ∈ ops P ->
    i < space_size (pso_range P) /\ j < length (space_parts (pso_domain P)).
Proof.
  intros Hinit i j op Hin.
  destruct (ProductSpaceOperator_init_Ok _ _ _ _ Hinit)
    as (Hrect & Hall & dparts & rparts & Hdom & Hran & Hcases).
  destruct Hcases as [Hnil | (-> & -> & Hld & Hlr)].
  - rewrite Hnil in Hin. by apply elem_of_nil in Hin.
  - destruct (ProductSpaceOperator_init_inferred_Ok _ _ Hinit)
      as (dl & rl & -> & -> & _ & _ & Hslots).
    apply (present_coo _ _ _ _ _ Hall) in Hin. destruct (Hslots _ _ _ Hin) as [Hd Hr].
    simpl. split; by eapply lookup_lt_Some.
Qed.

(** X19. [_apply] overwrites [out]: on a constructed operator and an [x]
    with the components of the domain it returns, and what it leaves in
    [out] depends on the spaces of the components of [out] only, not on
    what they held. *)
Theorem ProductSpaceOperator_apply_overwrites operators dom ran
    (P : ProductSpaceOperator Elem) x out out' :
  ProductSpaceOperator_init operators dom ran = Ok P ->
  length x = length (space_parts (pso_domain P)) ->
  length out = space_size (pso_range P) ->
  Forall2 (fun o o' => space_of o = space_of o') out out' ->
  exists r,
    ProductSpaceOperator_apply P x out = Ok r /\
    ProductSpaceOperator_apply P x out' = Ok r.
Proof.
  intros Hinit Hx Hout Hsp.
  pose proof (ProductSpaceOperator_init_bounds _ _ _ _ Hinit) as Hb.
  pose proof (Forall2_length _ _ _ Hsp) as Hlen.
  destruct (ProductSpaceOperator_apply_spec P x out) as (r & Hr & Hlr & Hvals); [done | |].
  { intros i j op Hin. destruct (Hb i j op Hin). lia. }
  destruct (ProductSpaceOperator_apply_spec P x out') as (r' & Hr' & Hlr' & Hvals');
    [lia | |].
  { intros i j op Hin. destruct (Hb i j op Hin). lia. }
  exists r. split; [done |]. rewrite Hr'. f_equal. apply list_eq. intros i.
  destruct (out !! i) as [oi |] eqn:Hoi.
  - destruct (Forall2_lookup_l _ _ _ _ _ Hsp Hoi) as (oi' & Hoi' & Hs).
    rewrite (Hvals _ _ Hoi), (Hvals' _ _ Hoi'). unfold set_zero. by rewrite Hs.
  - apply lookup_ge_None in Hoi.
    by rewrite !(proj2 (lookup_ge_None _ _)) by lia.
Qed.

End EvaluationBounds.

(** ** The further properties at concrete inputs *)

Lemma Qplus_0_l_eq (q : Q) : Qplus 0 q = q.
Proof. destruct q as [n d]. unfold Qplus. simpl. f_equal. lia. Qed.

Lemma Qplus_comm_eq (a b : Q) : Qplus a b = Qplus b a.
Proof.
  destruct a as [a1 a2], b as [b1 b2]. unfold Qplus. simpl.
  f_equal; [lia | apply Pos.mul_comm].
Qed.

Lemma Qplus_assoc_eq (a b c : Q) : Qplus (Qplus a b) c = Qplus a (Qplus b c).
Proof.
  destruct a as [a1 a2], b as [b1 b2], c as [c1 c2]. unfold Qplus. simpl.
  f_equal; [| symmetry; apply Pos.mul_assoc].
  rewrite !Pos2Z.inj_mul. ring.
Qed.

Lemma Rn_add_zero (v : list Q) : add (zero (space_of v)) v = v.
Proof.
  simpl. induction v as [| q v IH]; [done |]. simpl. by rewrite IH, Qplus_0_l_eq.
Qed.

Lemma Rn_add_comm (a b : list Q) : add a b = add b a.
Proof.
  simpl. revert b. induction a as [| q a IH]; intros [| r b]; simpl; try done.
  by rewrite IH, Qplus_comm_eq.
Qed.

Lemma Rn_add_assoc (a b c : list Q) : add (add a b) c = add a (add b c).
Proof.
  simpl. revert b c. induction a as [| q a IH]; intros [| r b] [| t c]; simpl; try done.
  by rewrite IH, Qplus_assoc_eq.
Qed.

Lemma Rn_zero_idempotent (s : Space) : add (zero s) (zero s) = zero (Elem := list Q) s.
Proof.
  destruct s as [n | parts]; [| done]. simpl.
  induction n as [| n IH]; [done |]. simpl. by rewrite IH.
Qed.

(** The operators an array of identities and zeros holds. *)
Lemma present_identities (operators : list (list (Entry (list Q)))) (i j : nat)
    (op : Operator (list Q)) :
  Forall (Forall (fun e => e = I3 \/ e = Zero)) operators ->
  present operators i j op -> op = identity_on_Rn 3.
Proof.
  intros Hall (row & Hrow & Hj).
  rewrite Forall_forall in Hall. apply list_elem_of_lookup_2 in Hrow, Hj.
  specialize (Hall row Hrow). rewrite Forall_forall in Hall.
  destruct (Hall _ Hj) as [[=] | [=]]. done.
Qed.

Lemma identities_consistent (operators : list (list (Entry (list Q)))) :
  Forall (Forall (fun e => e = I3 \/ e = Zero)) operators -> consistent operators.
Proof.
  intros Hall. split.
  - intros i1 i2 j op1 op2 H1 H2.
    by rewrite (present_identities _ _ _ _ Hall H1), (present_identities _ _ _ _ Hall H2).
  - intros i j1 j2 op1 op2 H1 H2.
    by rewrite (present_identities _ _ _ _ Hall H1), (present_identities _ _ _ _ Hall H2).
Qed.

Local Ltac identities := repeat constructor; by (left + right).
Local Ltac no_other := repeat constructor; done.
Local Ltac holds_identity row := exists row; by split.

Lemma ProductSpaceOperator_init_infers_witness :
  exists P dl rl,
    ProductSpaceOperator_init array_example None None = Ok P /\
    pso_domain P = ProductSpace dl /\ pso_range P = ProductSpace rl /\
    length dl = columns array_example /\ length rl = length array_example /\
    forall i j op, present array_example i j op ->
      dl !! j = Some (domain op) /\ rl !! i = Some (range op).
Proof.
  apply (ProductSpaceOperator_init_infers array_example).
  - discriminate.
  - reflexivity.
  - no_other.
  - apply identities_consistent. identities.
  - intros j Hj Hempty. apply (Hempty 0 (identity_on_Rn 3)).
    destruct j as [| [| j]]; [holds_identity [I3; I3] .. | simpl in Hj; lia].
  - intros i Hi Hempty. apply (Hempty 0 (identity_on_Rn 3)).
    destruct i as [| [| i]];
      [holds_identity [I3; I3] | holds_identity [I3; Zero (Elem := list Q)]
      | simpl in Hi; lia].
Defined.

Lemma ProductSpaceOperator_init_empty_witness :
  (exists c,
      ProductSpaceOperator_init array_empty_column None None
      = Raise (ValueError (ColEmpty c)) /\
      c < columns array_empty_column /\ column_empty array_empty_column c /\
      forall c', c' < c -> ~ column_empty array_empty_column c') /\
  (exists r,
      ProductSpaceOperator_init array_empty_row None None
      = Raise (ValueError (RowEmpty r)) /\
      r < length array_empty_row /\ row_empty array_empty_row r /\
      forall r', r' < r -> ~ row_empty array_empty_row r') /\
  ProductSpaceOperator_init array_no_column None None = Raise (ValueError NoSpaces).
Proof.
  split_and!.
  - apply (ProductSpaceOperator_init_empty array_empty_column).
    + reflexivity.
    + no_other.
    + apply identities_consistent. identities.
    + exists 1. split; [simpl; lia |].
      intros i op (row & Hrow & Hop).
      destruct i as [| [| i]]; simpl in Hrow; by simplify_eq.
  - apply (ProductSpaceOperator_init_empty array_empty_row).
    + reflexivity.
    + no_other.
    + apply identities_consistent. identities.
    + simpl. lia.
    + intros j Hj Hempty. apply (Hempty 0 (identity_on_Rn 3)).
      destruct j as [| [| j]]; [holds_identity [I3; I3] .. | simpl in Hj; lia].
    + exists 1. split; [simpl; lia |].
      intros j op (row & Hrow & Hop). simpl in Hrow. simplify_eq.
      destruct j as [| [| j]]; simpl in Hop; by simplify_eq.
  - apply (ProductSpaceOperator_init_empty array_no_column).
    + reflexivity.
    + no_other.
    + apply identities_consistent. identities.
    + reflexivity.
Defined.

(** A list without rows is read as one row without columns: both are
    refused when [dom] is omitted, and accepted with explicit spaces, with
    the shape of one row. *)
Example ProductSpaceOperator_init_no_column :
  ProductSpaceOperator_init (Elem := list Q) [] None None
  = Raise (ValueError NoSpaces) /\
  ProductSpaceOperator_init (Elem := list Q) [[]] None None
  = Raise (ValueError NoSpaces) /\
  ProductSpaceOperator_init (Elem := list Q) [] (Some (ProductSpace [Rn 3])) None
  = Raise (ValueError (RowEmpty 0)) /\
  ops_shape <$> ProductSpaceOperator_init (Elem := list Q) []
                  (Some (ProductSpace [Rn 3])) (Some (ProductSpace [Rn 3]))
  = Ok (1, 0).
Proof. repeat split. Qed.

Lemma ProductSpaceOperator_init_not_operators_witness :
  ProductSpaceOperator_init array_other None (Some (ProductSpace [Rn 3]))
  = Raise (TypeError NotOperators).
Proof.
  apply (ProductSpaceOperator_init_not_operators array_other None
           (Some (ProductSpace [Rn 3])) 0 1 [I3; Other]).
  - by left.
  - right. by exists [Rn 3].
  - reflexivity.
  - reflexivity.
  - reflexivity.
Defined.

Lemma ProductSpaceOperator_init_ops_witness :
  StronglySorted rowmajor_lt (ops block_example) /\
  forall i j op, (i, j, op) ∈ ops block_example <-> present array_example i j op.
Proof.
  apply (ProductSpaceOperator_init_ops array_example None None block_example).
  reflexivity.
Defined.

Lemma ProductSpaceOperator_init_linear_witness :
  pso_linear block_example = true <->
  forall i j op, present array_example i j op -> is_linear op = true.
Proof.
  apply (ProductSpaceOperator_init_linear array_example None None block_example).
  reflexivity.
Defined.

Lemma ProductSpaceOperator_apply_call_witness :
  ProductSpaceOperator_apply block_example
    [[1; 2; 3]; [4; 5; 6]]%Q [[8; 8; 8]; [9; 9; 9]]%Q
  = ProductSpaceOperator_call block_example [[1; 2; 3]; [4; 5; 6]]%Q.
Proof.
  apply (ProductSpaceOperator_apply_call array_example None None).
  - reflexivity.
  - reflexivity.
  - repeat constructor.
  - apply Rn_add_zero.
  - intros i j op xj Hp Hxj.
    rewrite (present_identities array_example i j op); [| identities | done].
    destruct j as [| [| j]]; simpl in Hxj; by simplify_eq.
Defined.

Lemma ProductSpaceOperator_init_zero_witness :
  exists P,
    ProductSpaceOperator_init array_zero
      (Some (ProductSpace [Rn 1])) (Some (ProductSpace [Rn 2; Rn 3; Rn 4])) = Ok P /\
    pso_domain P = ProductSpace [Rn 1] /\ pso_range P = ProductSpace [Rn 2; Rn 3; Rn 4] /\
    ops P = [] /\ pso_linear P = true /\
    (forall x, ProductSpaceOperator_call P x = Ok (zero <$> [Rn 2; Rn 3; Rn 4])) /\
    (forall x out, length out = length [Rn 2; Rn 3; Rn 4] ->
       ProductSpaceOperator_apply P x out = Ok (set_zero <$> out)).
Proof.
  apply (ProductSpaceOperator_init_zero array_zero [Rn 1] [Rn 2; Rn 3; Rn 4]).
  - reflexivity.
  - repeat constructor.
Defined.

Lemma ProductSpaceOperator_call_additive_witness :
  exists ox oy,
    ProductSpaceOperator_call block_example [[1; 2; 3]; [4; 5; 6]]%Q = Ok ox /\
    ProductSpaceOperator_call block_example [[1; 0; 1]; [0; 2; 0]]%Q = Ok oy /\
    ProductSpaceOperator_call block_example
      (zip_with add [[1; 2; 3]; [4; 5; 6]]%Q [[1; 0; 1]; [0; 2; 0]]%Q)
    = Ok (zip_with add ox oy).
Proof.
  apply (ProductSpaceOperator_call_additive array_example None None).
  - reflexivity.
  - reflexivity.
  - reflexivity.
  - apply Rn_add_assoc.
  - apply Rn_add_comm.
  - apply Rn_zero_idempotent.
  - intros i j op a b Hp.
    rewrite (present_identities array_example i j op); [done | identities | done].
Defined.

Lemma ComponentProjectionAdjoint_adjoint_adjoint_witness :
  let a := {| cpa_index := IList [0; 2]; cpa_domain := ProductSpace [Rn 1; Rn 3];
              cpa_range := X123 |} in
  exists (p : ComponentProjection Index) (a' : ComponentProjectionAdjoint Index),
    ComponentProjectionAdjoint_adjoint a = Ok p /\
    cp_domain p = cpa_range a /\ cp_range p = cpa_domain a /\ cp_index p = cpa_index a /\
    ComponentProjection_adjoint p = Ok a' /\
    cpa_index a' = cpa_index a /\
    cpa_domain a' = cpa_domain a /\
    cpa_range a' = cpa_range a /\
    (forall x : Element,
        ComponentProjectionAdjoint_call a' x = ComponentProjectionAdjoint_call a x) /\
    (forall x out : Element,
        ComponentProjectionAdjoint_apply a' x out = ComponentProjectionAdjoint_apply a x out).
Proof.
  intros a.
  apply (ComponentProjectionAdjoint_adjoint_adjoint (H := tree_ProductIndexing)
           X123 (IList [0; 2]) a).
  reflexivity.
Defined.

Lemma _bfgs_multiply_assertion_witness :
  (exists r, _bfgs_multiply [[1]; [3]]%Q [[2]; [5]]%Q [7]%Q None = Ok r) /\
  _bfgs_multiply [[1]]%Q [[2]; [5]]%Q [7]%Q None = Raise AssertionError.
Proof.
  split.
  - apply (_bfgs_multiply_assertion [[1]; [3]]%Q [[2]; [5]]%Q [7]%Q None).
    repeat constructor; discriminate.
  - apply (_bfgs_multiply_assertion [[1]]%Q [[2]; [5]]%Q [7]%Q None). simpl. lia.
Defined.

Lemma Qc_zero_below_tol (b : Qc) :
  klt (kabs b) (Q2Qc (1 # 2)) = false -> b <> kzero.
Proof. intros Hb ->. done. Qed.

Lemma bfgs_method_divisors_witness :
  (exists d,
      bfgs_search_dir None
        (next_state (bfgs_body square_on_line (as_callable (Number (Q2Qc (1 # 4))))
                       (Q2Qc (1 # 2)) (Some 1%Z) None true)
           {| bfgs_x := Q2Qc 1; bfgs_grad_x := grad square_on_line (Q2Qc 1);
              bfgs_ys := []; bfgs_ss := []; bfgs_calls := [] |}) = Ok d) /\
  exists st,
    bfgs_method square_on_line (Q2Qc 1) (Number (Q2Qc (1 # 4))) 3 (Q2Qc (1 # 2))
      (Some 1%Z) None true = Ok st /\
    Forall2 (fun si yi : Qc => inner yi si <> kzero) (bfgs_ys st) (bfgs_ss st).
Proof.
  destruct (bfgs_method_divisors square_on_line (Q2Qc 1) (Q2Qc (1 # 4)) 3 (Q2Qc (1 # 2))
              (Some 1%Z) None true Qc_zero_below_tol eq_refl) as [Hreached Hreturned].
  split; [| exact Hreturned].
  apply Hreached. eapply iterates_step; [apply iterates_refl |].
  vm_compute. reflexivity.
Defined.

Lemma bfgs_method_maxcor_negative_witness :
  exists st,
    bfgs_method (half_square_norm 1) [2]%Q (Number (1 # 4)%Q) 3 (1 # 100)%Q
      (Some (-1)%Z) None true = Ok st /\
    bfgs_ys st = [] /\ bfgs_ss st = [].
Proof.
  eexists. split; [vm_compute; reflexivity |].
  apply (bfgs_method_maxcor_negative (half_square_norm 1) [2]%Q (Number (1 # 4)%Q)
           3 (1 # 100)%Q (-1) None true); [lia | vm_compute; reflexivity].
Defined.

Lemma callback_invocations_bounded_witness :
  exists st,
    broydens_method (half_square_norm 1) [2]%Q (Number (1 # 4)%Q) "first" 3 (1 # 100)%Q true
    = Ok st /\
    length (broyden_calls st) <= Z.to_nat 3.
Proof.
  eexists. split; [reflexivity |].
  apply (callback_invocations_bounded (half_square_norm 1) [2]%Q (Number (1 # 4)%Q)
           3 (1 # 100)%Q true) with (impl := "first").
  reflexivity.
Defined.

Lemma newtons_method_last_call_witness :
  exists st,
    newtons_method (half_square_norm 1) [2]%Q (Number (1 # 4)%Q) 3 (1 # 100)%Q (Some 1) true
    = Ok st /\
    newton_x st = default [2]%Q (last (newton_calls st)).
Proof.
  eexists. split; [reflexivity |].
  apply (newtons_method_last_call (half_square_norm 1) [2]%Q (Number (1 # 4)%Q)
           3 (1 # 100)%Q (Some 1)).
  reflexivity.
Defined.

Lemma ProductSpaceOperator_init_accepts_only_witness :
  rectangular array_example = true /\
  Forall (Forall (fun e => e <> Other)) array_example /\
  consistent array_example /\
  (forall j, j < columns array_example -> ~ column_empty array_example j) /\
  (forall i, i < length array_example -> ~ row_empty array_example i).
Proof.
  apply (ProductSpaceOperator_init_accepts_only array_example block_example).
  reflexivity.
Defined.

Lemma ProductSpaceOperator_call_short_witness :
  (exists r,
      ProductSpaceOperator_call block_example [[1; 2; 3]; [4; 5; 6]; [7]]%Q = Ok r /\
      length r = length array_example /\
      ProductSpaceOperator_call block_example
        (take (columns array_example) [[1; 2; 3]; [4; 5; 6]; [7]]%Q) = Ok r) /\
  (ProductSpaceOperator_call block_example [[1; 2; 3]]%Q = Raise IndexError /\
   forall out, length out = length array_example ->
     ProductSpaceOperator_apply block_example [[1; 2; 3]]%Q out = Raise IndexError).
Proof.
  split.
  - apply (ProductSpaceOperator_call_short array_example block_example
             [[1; 2; 3]; [4; 5; 6]; [7]]%Q); [reflexivity | simpl; lia].
  - apply (ProductSpaceOperator_call_short array_example block_example [[1; 2; 3]]%Q);
      [reflexivity | simpl; lia].
Defined.

Lemma ProductSpaceOperator_apply_overwrites_witness :
  exists r,
    ProductSpaceOperator_apply block_example
      [[1; 2; 3]; [4; 5; 6]]%Q [[8; 8; 8]; [9; 9; 9]]%Q = Ok r /\
    ProductSpaceOperator_apply block_example
      [[1; 2; 3]; [4; 5; 6]]%Q [[0; 1; 0]; [1; 1; 1]]%Q = Ok r.
Proof.
  apply (ProductSpaceOperator_apply_overwrites array_example None None).
  - reflexivity.
  - reflexivity.
  - reflexivity.
  - repeat constructor.
Defined.
